(** * new-api: payload capture, log retention, stream aggregation, transport

    A shallow embedding of the parts of the gateway that its specification
    makes checkable statements about:

    - [GoString]: Go strings as byte sequences, with the standard library
      operations the code calls ([[]rune(s)], [string(runes)],
      [strings.TrimSpace], [strings.Contains], [fmt.Sprintf "%d"]);
    - [PayloadCapture]: [common/log_payload.go] (preview and full payload);
    - [LogRetention]: [model/log_retention.go] (retention sweep);
    - [StreamAggregate]: the stream aggregators of [UsageLogDetailDrawer.jsx];
    - [Transport]: header hygiene, header overrides and upstream URLs. *)

From Stdlib Require Import ZArith NArith Lia Ascii String DecimalString.
From stdpp Require Import base tactics option list sorting gmap.

Local Open Scope Z_scope.

(** ** Go strings *)

Module GoString.

(** A Go [string] is an immutable sequence of bytes. *)
Abbreviation gostring := (list ascii).

(** A string literal of the source, as its UTF-8 bytes. *)
Definition lit (s : string) : gostring := list_ascii_of_string s.

Definition byteval (b : ascii) : Z := Z.of_N (N_of_ascii b).
Definition mkbyte (z : Z) : ascii := ascii_of_N (Z.to_N z).

(** [utf8.RuneError], the replacement character U+FFFD. *)
Definition RuneError : Z := 0xFFFD.

(** Continuation bytes are [0x80..0xBF] ([locb], [hicb] in [unicode/utf8]). *)
Definition isCont (b : ascii) : bool :=
  (0x80 <=? byteval b) && (byteval b <=? 0xBF).

(** The table [first] of [unicode/utf8] with its accept ranges: what a first
    byte announces. *)
Inductive lead : Type :=
  | LAscii
  | LInvalid
  | LMulti (size : nat) (lo hi : Z).

Definition classify (b0 : ascii) : lead :=
  let c := byteval b0 in
  if c <? 0x80 then LAscii
  else if c <? 0xC2 then LInvalid
  else if c <? 0xE0 then LMulti 2 0x80 0xBF
  else if c =? 0xE0 then LMulti 3 0xA0 0xBF
  else if c =? 0xED then LMulti 3 0x80 0x9F
  else if c <? 0xF0 then LMulti 3 0x80 0xBF
  else if c =? 0xF0 then LMulti 4 0x90 0xBF
  else if c <? 0xF4 then LMulti 4 0x80 0xBF
  else if c =? 0xF4 then LMulti 4 0x80 0x8F
  else LInvalid.

Definition inRange (lo hi : Z) (b : ascii) : bool :=
  (lo <=? byteval b) && (byteval b <=? hi).

(** [utf8.DecodeRuneInString]: the first rune of [s] and its width in bytes;
    [(RuneError, 0)] on the empty string and [(RuneError, 1)] on an invalid or
    incomplete encoding. *)
Definition decodeRune (s : gostring) : Z * nat :=
  match s with
  | [] => (RuneError, 0%nat)
  | b0 :: t =>
    match classify b0 with
    | LAscii => (byteval b0, 1%nat)
    | LInvalid => (RuneError, 1%nat)
    | LMulti sz lo hi =>
      match sz, t with
      | 2%nat, b1 :: _ =>
        if inRange lo hi b1
        then ((byteval b0 - 0xC0) * 64 + (byteval b1 - 0x80), 2%nat)
        else (RuneError, 1%nat)
      | 3%nat, b1 :: b2 :: _ =>
        if inRange lo hi b1 && isCont b2
        then ((byteval b0 - 0xE0) * 4096 + (byteval b1 - 0x80) * 64
              + (byteval b2 - 0x80), 3%nat)
        else (RuneError, 1%nat)
      | 4%nat, b1 :: b2 :: b3 :: _ =>
        if inRange lo hi b1 && isCont b2 && isCont b3
        then ((byteval b0 - 0xF0) * 262144 + (byteval b1 - 0x80) * 4096
              + (byteval b2 - 0x80) * 64 + (byteval b3 - 0x80), 4%nat)
        else (RuneError, 1%nat)
      | _, _ => (RuneError, 1%nat)
      end
    end
  end.

(** [[]rune(s)]: decode rune after rune; every invalid byte yields one
    [RuneError]. The fuel is the number of bytes, an upper bound on the
    number of runes. *)
Fixpoint runes_fuel (fuel : nat) (s : gostring) : list Z :=
  match fuel with
  | O => []
  | S fuel' =>
    match s with
    | [] => []
    | _ :: _ =>
      let '(r, w) := decodeRune s in r :: runes_fuel fuel' (drop w s)
    end
  end.

Definition runes (s : gostring) : list Z := runes_fuel (length s) s.

(** [utf8.RuneCountInString], which is [len([]rune(s))]. *)
Definition runeCount (s : gostring) : nat := length (runes s).

(** [utf8.ValidString]: no position decodes to an encoding error. *)
Fixpoint valid_fuel (fuel : nat) (s : gostring) : bool :=
  match fuel with
  | O => match s with [] => true | _ => false end
  | S fuel' =>
    match s with
    | [] => true
    | _ :: _ =>
      let '(r, w) := decodeRune s in
      if (w =? 1)%nat && (r =? RuneError) then false
      else valid_fuel fuel' (drop w s)
    end
  end.

Definition utf8_Valid (s : gostring) : bool := valid_fuel (length s) s.

(** A rune that [string(rune)] encodes as itself: a Unicode scalar value. *)
Definition isScalar (r : Z) : bool :=
  (0 <=? r) && (r <=? 0x10FFFF) && negb ((0xD800 <=? r) && (r <=? 0xDFFF)).

(** [utf8.AppendRune] / [string(rune)]: surrogates and out-of-range values
    are encoded as U+FFFD. *)
Definition encodeRune (r : Z) : gostring :=
  if negb (isScalar r) then [mkbyte 0xEF; mkbyte 0xBF; mkbyte 0xBD]
  else if r <? 0x80 then [mkbyte r]
  else if r <? 0x800 then [mkbyte (0xC0 + r / 64); mkbyte (0x80 + r mod 64)]
  else if r <? 0x10000 then
    [mkbyte (0xE0 + r / 4096); mkbyte (0x80 + (r / 64) mod 64);
     mkbyte (0x80 + r mod 64)]
  else
    [mkbyte (0xF0 + r / 262144); mkbyte (0x80 + (r / 4096) mod 64);
     mkbyte (0x80 + (r / 64) mod 64); mkbyte (0x80 + r mod 64)].

(** [string(rs)] for [rs []rune]. *)
Definition encodeRunes (rs : list Z) : gostring := concat (map encodeRune rs).

(** [unicode.IsSpace]: the Latin-1 spaces and the code points with the
    Unicode White_Space property. *)
Definition IsSpace (r : Z) : bool :=
  ((0x09 <=? r) && (r <=? 0x0D)) || (r =? 0x20) || (r =? 0x85) || (r =? 0xA0)
  || (r =? 0x1680) || ((0x2000 <=? r) && (r <=? 0x200A))
  || (r =? 0x2028) || (r =? 0x2029) || (r =? 0x202F) || (r =? 0x205F)
  || (r =? 0x3000).

(** [utf8.RuneStart]: the byte is not a continuation byte. *)
Definition RuneStart (b : ascii) : bool := negb (isCont b).

(** The backward scan of [utf8.DecodeLastRuneInString]: with [k] bytes
    already behind the candidate start (counted from the end), look at most
    [fuel] bytes further back for a rune start. [rs] is the string reversed,
    beginning at the byte under inspection. The result is the distance of the
    chosen start from the end of the string. *)
Fixpoint lastStart (fuel : nat) (k : nat) (rs : gostring) : nat :=
  match fuel, rs with
  | S fuel', b :: rs' => if RuneStart b then S k else lastStart fuel' (S k) rs'
  | O, _ :: _ => S k
  | _, [] => k
  end.

(** [utf8.DecodeLastRuneInString]: the last rune of [s] and its width. *)
Definition decodeLastRune (s : gostring) : Z * nat :=
  match rev s with
  | [] => (RuneError, 0%nat)
  | b :: rs =>
    if byteval b <? 0x80 then (byteval b, 1%nat)
    else
      let d := lastStart 3 1 rs in
      let '(r, size) := decodeRune (drop (length s - d) s) in
      if (size =? d)%nat then (r, size) else (RuneError, 1%nat)
  end.

(** [strings.TrimLeftFunc(s, unicode.IsSpace)]. *)
Fixpoint trimLeft_fuel (fuel : nat) (s : gostring) : gostring :=
  match fuel with
  | O => s
  | S fuel' =>
    match s with
    | [] => []
    | _ :: _ =>
      let '(r, w) := decodeRune s in
      if IsSpace r then trimLeft_fuel fuel' (drop w s) else s
    end
  end.

(** [strings.TrimRightFunc(s, unicode.IsSpace)]. *)
Fixpoint trimRight_fuel (fuel : nat) (s : gostring) : gostring :=
  match fuel with
  | O => s
  | S fuel' =>
    match s with
    | [] => []
    | _ :: _ =>
      let '(r, w) := decodeLastRune s in
      if IsSpace r then trimRight_fuel fuel' (take (length s - w) s) else s
    end
  end.

(** [strings.TrimSpace]: all leading and trailing white space removed. *)
Definition TrimSpace (s : gostring) : gostring :=
  let l := trimLeft_fuel (length s) s in trimRight_fuel (length l) l.

(** [strings.HasPrefix]. *)
Fixpoint HasPrefix (s prefix : gostring) : bool :=
  match prefix, s with
  | [], _ => true
  | p :: prefix', b :: s' => if decide (p = b) then HasPrefix s' prefix' else false
  | _ :: _, [] => false
  end.

(** [strings.Contains]: [substr] occurs in [s] at some byte offset. *)
Fixpoint Contains (s substr : gostring) : bool :=
  HasPrefix s substr ||
  match s with
  | [] => false
  | _ :: s' => Contains s' substr
  end.

(** The verb [%d] of [fmt.Sprintf] on an [int]: decimal digits, most
    significant first, after a minus sign for a negative number. *)
Definition digit (d : Z) : ascii := mkbyte (48 + d).

Fixpoint digits_fuel (fuel : nat) (n : Z) : gostring :=
  match fuel with
  | O => []
  | S fuel' =>
    if n <? 10 then [digit n]
    else digits_fuel fuel' (n / 10) ++ [digit (n mod 10)]
  end.

Definition digits (n : Z) : gostring := digits_fuel (S (Z.to_nat (Z.log2 n))) n.

Definition itoa (n : Z) : gostring :=
  if n <? 0 then lit "-" ++ digits (- n) else digits n.

(** [strings.ToLower] on ASCII text: the letters [A..Z] become [a..z]. *)
Definition lowerByte (b : ascii) : ascii :=
  if (0x41 <=? byteval b) && (byteval b <=? 0x5A) then mkbyte (byteval b + 32) else b.

Definition upperByte (b : ascii) : ascii :=
  if (0x61 <=? byteval b) && (byteval b <=? 0x7A) then mkbyte (byteval b - 32) else b.

Definition ToLower (s : gostring) : gostring := map lowerByte s.

(** [strings.Split(s, sep)] for a one-byte separator. *)
Fixpoint Split (s : gostring) (sep : ascii) : list gostring :=
  match s with
  | [] => [[]]
  | b :: s' =>
    if decide (b = sep) then [] :: Split s' sep
    else
      match Split s' sep with
      | field :: fields => (b :: field) :: fields
      | [] => [[b]]
      end
  end.

(** [strings.TrimPrefix] and [strings.TrimSuffix]. *)
Definition TrimPrefix (s prefix : gostring) : gostring :=
  if HasPrefix s prefix then drop (length prefix) s else s.

Definition HasSuffix (s suffix : gostring) : bool :=
  HasPrefix (rev s) (rev suffix).

Definition TrimSuffix (s suffix : gostring) : gostring :=
  if HasSuffix s suffix then take (length s - length suffix) s else s.

(** [strings.Index]: the offset of the first occurrence of [substr]. *)
Fixpoint Index (s substr : gostring) : option nat :=
  if HasPrefix s substr then Some 0%nat
  else
    match s with
    | [] => None
    | _ :: s' => S <$> Index s' substr
    end.

(** [strings.Join] with the empty separator. *)
Definition Join (segments : list gostring) : gostring := concat segments.

End GoString.

(** ** Payload capture: [common/log_payload.go] *)

Module PayloadCapture.
Import GoString.

(** The context keys of package [constant] that the capture code names.
    They are distinct string constants; every other key of the request
    context is an [ContextKeyOther]. *)
Inductive ContextKey : Type :=
  | ContextKeyLoggedRequestBody
  | ContextKeyLoggedResponseBody
  | ContextKeyLoggedRequestBodyFull
  | ContextKeyLoggedResponseBodyFull
  | ContextKeyOther (name : string).

#[global] Instance ContextKey_eq_dec : EqDecision ContextKey.
Proof. solve_decision. Defined.

#[global] Instance ContextKey_countable : Countable ContextKey.
Proof.
  refine (inj_countable'
    (fun k => match k with
              | ContextKeyLoggedRequestBody => inl 0%nat
              | ContextKeyLoggedResponseBody => inl 1%nat
              | ContextKeyLoggedRequestBodyFull => inl 2%nat
              | ContextKeyLoggedResponseBodyFull => inl 3%nat
              | ContextKeyOther s => inr s
              end)
    (fun x => match x with
              | inl 0%nat => ContextKeyLoggedRequestBody
              | inl 1%nat => ContextKeyLoggedResponseBody
              | inl 2%nat => ContextKeyLoggedRequestBodyFull
              | inl _ => ContextKeyLoggedResponseBodyFull
              | inr s => ContextKeyOther s
              end) _).
  by intros [].
Defined.

(** What [gin.Context.Keys] holds under a key: a value of type [any]. The
    capture code distinguishes [string], [[]string] and [[]byte]; a value of
    any other type is kept by its [%v] rendering. *)
Inductive anyval : Type :=
  | VString (s : gostring)
  | VStrings (segments : list gostring)
  | VBytes (data : gostring)
  | VOther (rendered : gostring).

(** The key/value store of a (non-nil) [*gin.Context]. *)
Abbreviation Context := (gmap ContextKey anyval).

(** [c.GetString(key)]: the value if it is a string, the empty string
    otherwise. *)
Definition GetString (c : Context) (key : ContextKey) : gostring :=
  match c !! key with
  | Some (VString s) => s
  | _ => []
  end.

Definition maxLogPayloadRunes : nat := 2048.

Definition fullPayloadKeyFor (previewKey : ContextKey) : option ContextKey :=
  match previewKey with
  | ContextKeyLoggedRequestBody => Some ContextKeyLoggedRequestBodyFull
  | ContextKeyLoggedResponseBody => Some ContextKeyLoggedResponseBodyFull
  | _ => None
  end.

Definition setFullPayload (c : Context) (previewKey : ContextKey)
    (segments : list gostring) : Context :=
  match fullPayloadKeyFor previewKey with
  | None => c
  | Some fullKey => <[fullKey := VStrings segments]> c
  end.

Definition appendFullPayloadSegment (c : Context) (previewKey : ContextKey)
    (segment : gostring) : Context :=
  if decide (segment = []) then c
  else
    match fullPayloadKeyFor previewKey with
    | None => c
    | Some fullKey =>
      match c !! fullKey with
      | Some (VStrings payload) => <[fullKey := VStrings (payload ++ [segment])]> c
      | Some (VString payload) => <[fullKey := VStrings [payload; segment]]> c
      | _ => <[fullKey := VStrings [segment]]> c
      end
    end.

Definition GetFullPayloadString (c : Context) (key : ContextKey) : gostring :=
  match c !! key with
  | None => []
  | Some (VStrings payload) => Join payload
  | Some (VString payload) => payload
  | Some (VBytes payload) => payload
  | Some (VOther rendered) => rendered
  end.

(** The loop of [isBinaryPayload] over the runes of the sample. Every rune
    below [0x20] is a control character, so [unicode.IsPrint] is false
    there. *)
Definition controlCount (sample : gostring) : nat :=
  length (filter (fun r => r <> 0x0A /\ r <> 0x0D /\ r <> 0x09 /\ r < 0x20)
                 (runes sample)).

Definition isBinaryPayload (data : gostring) : bool :=
  if decide (length data = 0%nat) then false
  else if negb (utf8_Valid data) then true
  else
    let sample := if decide (256 < length data)%nat then take 256 data else data in
    bool_decide (length sample / 10 < controlCount sample)%nat.

Definition truncatedSuffix (overflow : Z) : gostring :=
  let overflow := if decide (overflow < 0) then 0 else overflow in
  lit "… [truncated " ++ itoa overflow ++ lit " chars]".

Definition applyLogLimit (value : gostring) : gostring :=
  let runes := runes value in
  if decide (length runes <= maxLogPayloadRunes)%nat then value
  else
    let trimmed := encodeRunes (take maxLogPayloadRunes runes) in
    trimmed ++ truncatedSuffix (Z.of_nat (length runes) - Z.of_nat maxLogPayloadRunes).

Definition formatPayloadForLog (data : gostring) : gostring :=
  if decide (length data = 0%nat) then []
  else if isBinaryPayload data then
    lit "[binary payload omitted: " ++ itoa (Z.of_nat (length data)) ++ lit " bytes]"
  else applyLogLimit data.

Definition setPayloadIfEmpty (c : Context) (key : ContextKey) (value : gostring)
    : Context :=
  if decide (value = []) then c
  else if decide (GetString c key <> []) then c
  else <[key := VString value]> c.

(** [CapturePayloadForLog]: the context after the call and the returned
    preview. *)
Definition CapturePayloadForLog (c : Context) (key : ContextKey) (data : gostring)
    : Context * gostring :=
  let preview := formatPayloadForLog data in
  let c := setPayloadIfEmpty c key preview in
  let c :=
    if bool_decide (0 < length data)%nat && negb (isBinaryPayload data)
    then setFullPayload c key [data] else c in
  (c, preview).

Definition CapturePayloadStringForLog (c : Context) (key : ContextKey)
    (value : gostring) : Context * gostring :=
  if decide (value = []) then (c, [])
  else
    let preview := applyLogLimit value in
    let c := setPayloadIfEmpty c key preview in
    let c := setFullPayload c key [value] in
    (c, preview).

Definition AppendPayloadChunkForLog (c : Context) (key : ContextKey)
    (chunk : gostring) : Context :=
  let chunk := TrimSpace chunk in
  if decide (chunk = [] \/ chunk = lit "[DONE]") then c
  else
    let existing := GetString c key in
    if decide (existing = []) then
      appendFullPayloadSegment (<[key := VString (applyLogLimit chunk)]> c) key chunk
    else if Contains existing (lit "[truncated") then
      appendFullPayloadSegment c key chunk
    else
      let existingRunes := runes existing in
      let chunkRunes := runes chunk in
      let total := (length existingRunes + length chunkRunes)%nat in
      if decide (total <= maxLogPayloadRunes)%nat then
        appendFullPayloadSegment (<[key := VString (existing ++ chunk)]> c) key chunk
      else
        let remaining := Z.of_nat maxLogPayloadRunes - Z.of_nat (length existingRunes) in
        if decide (remaining <= 0) then
          let suffix := truncatedSuffix (Z.of_nat (length chunkRunes)) in
          appendFullPayloadSegment
            (<[key := VString (encodeRunes (take maxLogPayloadRunes existingRunes) ++ suffix)]> c)
            key chunk
        else
          let trimmedChunk := encodeRunes (take (Z.to_nat remaining) chunkRunes) in
          let overflow := Z.of_nat total - Z.of_nat maxLogPayloadRunes in
          appendFullPayloadSegment
            (<[key := VString (existing ++ trimmedChunk ++ truncatedSuffix overflow)]> c)
            key chunk.

(** A streaming sequence: the chunks are appended one after the other. *)
Definition appendChunks (c : Context) (key : ContextKey) (chunks : list gostring)
    : Context :=
  fold_left (fun c chunk => AppendPayloadChunkForLog c key chunk) chunks c.

End PayloadCapture.

(** ** Payload capture before the full payload: the earlier
    [common/log_payload.go] *)

Module PayloadCaptureLegacy.
Import GoString.

(** The earlier revision of the file has no full payload slot. Its
    [isBinaryPayload], [truncatedSuffix], [applyLogLimit],
    [formatPayloadForLog] and [setPayloadIfEmpty] are, line for line, those
    of the later revision; the three entry points differ. *)
Abbreviation Context := PayloadCapture.Context.
Abbreviation GetString := PayloadCapture.GetString.
Abbreviation maxLogPayloadRunes := PayloadCapture.maxLogPayloadRunes.
Abbreviation truncatedSuffix := PayloadCapture.truncatedSuffix.
Abbreviation applyLogLimit := PayloadCapture.applyLogLimit.
Abbreviation formatPayloadForLog := PayloadCapture.formatPayloadForLog.
Abbreviation setPayloadIfEmpty := PayloadCapture.setPayloadIfEmpty.

Definition CapturePayloadForLog (c : Context) (key : PayloadCapture.ContextKey)
    (data : gostring) : Context * gostring :=
  let preview := formatPayloadForLog data in
  (setPayloadIfEmpty c key preview, preview).

Definition CapturePayloadStringForLog (c : Context)
    (key : PayloadCapture.ContextKey) (value : gostring) : Context * gostring :=
  if decide (value = []) then (c, [])
  else
    let preview := applyLogLimit value in
    (setPayloadIfEmpty c key preview, preview).

Definition AppendPayloadChunkForLog (c : Context) (key : PayloadCapture.ContextKey)
    (chunk : gostring) : Context :=
  let chunk := TrimSpace chunk in
  if decide (chunk = [] \/ chunk = lit "[DONE]") then c
  else
    let existing := GetString c key in
    if decide (existing = []) then
      <[key := PayloadCapture.VString (applyLogLimit chunk)]> c
    else if Contains existing (lit "[truncated") then c
    else
      let existingRunes := runes existing in
      let chunkRunes := runes chunk in
      let total := (length existingRunes + length chunkRunes)%nat in
      if decide (total <= maxLogPayloadRunes)%nat then
        <[key := PayloadCapture.VString (existing ++ chunk)]> c
      else
        let remaining := Z.of_nat maxLogPayloadRunes - Z.of_nat (length existingRunes) in
        if decide (remaining <= 0) then
          let suffix := truncatedSuffix (Z.of_nat (length chunkRunes)) in
          <[key := PayloadCapture.VString
                     (encodeRunes (take maxLogPayloadRunes existingRunes) ++ suffix)]> c
        else
          let trimmedChunk := encodeRunes (take (Z.to_nat remaining) chunkRunes) in
          let overflow := Z.of_nat total - Z.of_nat maxLogPayloadRunes in
          <[key := PayloadCapture.VString
                     (existing ++ trimmedChunk ++ truncatedSuffix overflow)]> c.

End PayloadCaptureLegacy.

(** ** Retention of log details: [model/log_retention.go] *)

Module LogRetention.

(** The database behind [LOG_DB]: the repository runs on MySQL, PostgreSQL
    and SQLite, and GORM writes a statement with the clauses of its
    dialect. *)
Inductive Dialect : Type := MySQL | PostgreSQL | SQLite.

#[global] Instance Dialect_eq_dec : EqDecision Dialect.
Proof. solve_decision. Defined.

Section Sweep.

(** The rows of [log_details] and [log_records]. The structs are declared
    in [model/log.go]; the sweep reads one column, [created_at] (Unix
    seconds), of a log detail and nothing of a log record. *)
Context {LogDetail LogRecord : Type}.
Variable CreatedAt : LogDetail -> Z.

(** The calendar of the process: [AddDate now n] is
    [time.Unix(now, 0).AddDate(0, 0, n).Unix()], the instant [n] calendar
    days after [now] at the same wall clock time in the local zone. It is
    what package [time] computes, with its zone rules and its arithmetic. *)
Variable AddDate : Z -> Z -> Z.

Variable dialect : Dialect.

(** The two tables behind [LOG_DB]. *)
Record Store : Type := mkStore {
  log_details : list LogDetail;
  log_records : list LogRecord;
}.

Definition logDetailCleanupBatchSize : nat := 5000.

(** What the sweep does to the world, in order. *)
Inductive event : Type :=
  | EvDelete (deleted : list LogDetail)   (* a DELETE statement that succeeded *)
  | EvDeleteFailed                        (* a DELETE statement that returned an error *)
  | EvSleep (milliseconds : Z)            (* time.Sleep *)
  | EvLogError                            (* logger.LogError *)
  | EvLogInfo (totalDeleted : nat) (days : Z).  (* logger.LogInfo *)

(** What the sweep meets at the start of one iteration: the context may have
    been cancelled, the statement may fail. *)
Inductive tick : Type := Run | Cancelled | DbError.

Definition expired (cutoff : Z) (row : LogDetail) : bool :=
  CreatedAt row <? cutoff.

(** The rows that match [created_at < cutoff], and the others, in table
    order. *)
Definition stale (cutoff : Z) (rows : list LogDetail) : list LogDetail :=
  filter (fun r => CreatedAt r < cutoff) rows.

Definition fresh (cutoff : Z) (rows : list LogDetail) : list LogDetail :=
  filter (fun r => cutoff <= CreatedAt r) rows.

(** [DELETE FROM log_details WHERE created_at < cutoff]: every matching row
    goes. The result is the deleted rows and the table that is left. *)
Definition deleteExpired (cutoff : Z) (rows : list LogDetail)
    : list LogDetail * list LogDetail :=
  (stale cutoff rows, fresh cutoff rows).

(** The smallest [created_at] among the expired rows. *)
Fixpoint oldestExpired (cutoff : Z) (rows : list LogDetail) : option Z :=
  match rows with
  | [] => None
  | row :: rows' =>
    let rest := oldestExpired cutoff rows' in
    if expired cutoff row then
      match rest with
      | Some t => Some (Z.min (CreatedAt row) t)
      | None => Some (CreatedAt row)
      end
    else rest
  end.

(** Take the first row created at [t] out of the table. *)
Fixpoint removeCreatedAt (t : Z) (rows : list LogDetail)
    : option (LogDetail * list LogDetail) :=
  match rows with
  | [] => None
  | row :: rows' =>
    if CreatedAt row =? t then Some (row, rows')
    else
      match removeCreatedAt t rows' with
      | Some (victim, rest) => Some (victim, row :: rest)
      | None => None
      end
  end.

(** [DELETE FROM log_details WHERE created_at < cutoff ORDER BY created_at
    ASC LIMIT limit], a statement of MySQL: the [limit] oldest matching rows
    go, oldest first. Which of the rows of equal age go is left to the
    database; here they go in table order. *)
Fixpoint deleteOldest (limit : nat) (cutoff : Z) (rows : list LogDetail)
    : list LogDetail * list LogDetail :=
  match limit with
  | O => ([], rows)
  | S limit' =>
    match oldestExpired cutoff rows with
    | None => ([], rows)
    | Some t =>
      match removeCreatedAt t rows with
      | None => ([], rows)
      | Some (victim, rest) =>
        let '(victims, rest') := deleteOldest limit' cutoff rest in
        (victim :: victims, rest')
      end
    end
  end.

(** [DELETE FROM log_details WHERE created_at < cutoff LIMIT limit], a
    statement of MySQL: [limit] matching rows go. Which ones is left to the
    database; here they are the first in table order. *)
Fixpoint deleteAny (limit : nat) (cutoff : Z) (rows : list LogDetail)
    : list LogDetail * list LogDetail :=
  match rows with
  | [] => ([], [])
  | row :: rows' =>
    match limit with
    | O => ([], rows)
    | S limit' =>
      if expired cutoff row then
        let '(victims, rest) := deleteAny limit' cutoff rows' in
        (row :: victims, rest)
      else
        let '(victims, rest) := deleteAny limit cutoff rows' in
        (victims, row :: rest)
    end
  end.

(** [LOG_DB.Where("created_at < ?", cutoff).Order("created_at ASC")
    .Limit(limit).Delete(&LogDetail{})]. GORM builds a DELETE from the
    clauses DELETE, FROM and WHERE; the MySQL dialect alone adds ORDER BY
    and LIMIT to them. On PostgreSQL and SQLite the statement is therefore
    [DELETE FROM log_details WHERE created_at < cutoff]. *)
Definition orderedDelete (limit : nat) (cutoff : Z) (rows : list LogDetail)
    : list LogDetail * list LogDetail :=
  match dialect with
  | MySQL => deleteOldest limit cutoff rows
  | PostgreSQL | SQLite => deleteExpired cutoff rows
  end.

(** [LOG_DB.Where("created_at < ?", cutoff).Limit(limit)
    .Delete(&LogDetail{})], the statement of the earlier revision. *)
Definition limitedDelete (limit : nat) (cutoff : Z) (rows : list LogDetail)
    : list LogDetail * list LogDetail :=
  match dialect with
  | MySQL => deleteAny limit cutoff rows
  | PostgreSQL | SQLite => deleteExpired cutoff rows
  end.

(** [time.Now().AddDate(0, 0, -days).Unix()] with the clock reading [now]
    (Unix seconds). *)
Definition cutoffOf (now days : Z) : Z := AddDate now (- days).

(** The loop of [pruneExpiredLogDetails] as it stands after the cleanup
    optimization: iteration [i] checks the context, issues one statement
    and sleeps before the next one. [None]: out of fuel. *)
Fixpoint pruneLoop (fuel : nat) (env : nat -> tick) (cutoff : Z) (i : nat)
    (rows : list LogDetail) (totalDeleted : nat) (trace : list event)
    : option (list LogDetail * nat * list event) :=
  match fuel with
  | O => None
  | S fuel' =>
    match env i with
    | Cancelled => Some (rows, totalDeleted, trace ++ [EvLogError])
    | DbError => Some (rows, totalDeleted, trace ++ [EvDeleteFailed; EvLogError])
    | Run =>
      let '(deleted, rows') := orderedDelete logDetailCleanupBatchSize cutoff rows in
      let rowsAffected := length deleted in
      let trace := trace ++ [EvDelete deleted] in
      if decide (rowsAffected = 0%nat) then Some (rows', totalDeleted, trace)
      else
        let totalDeleted := (totalDeleted + rowsAffected)%nat in
        if decide (rowsAffected < logDetailCleanupBatchSize)%nat
        then Some (rows', totalDeleted, trace)
        else pruneLoop fuel' env cutoff (S i) rows' totalDeleted
                       (trace ++ [EvSleep 100])
    end
  end.

(** [pruneExpiredLogDetails(ctx)] with the configured
    [common.DetailedLogRetentionDays] and the clock reading [now]: the store
    and the events it leaves. *)
Definition pruneExpiredLogDetails (days now : Z) (env : nat -> tick) (db : Store)
    : option (Store * list event) :=
  if decide (days <= 0) then Some (db, [])
  else
    let cutoff := cutoffOf now days in
    match pruneLoop (S (length (log_details db))) env cutoff 0 (log_details db) 0 [] with
    | None => None
    | Some (rows, totalDeleted, trace) =>
      let trace :=
        if decide (0 < totalDeleted)%nat
        then trace ++ [EvLogInfo totalDeleted days] else trace in
      Some (mkStore rows (log_records db), trace)
    end.

(** The loop of the earlier [pruneExpiredLogDetails]: no order, no context
    check, no pause. *)
Fixpoint pruneLoopPlain (fuel : nat) (env : nat -> tick) (cutoff : Z) (i : nat)
    (rows : list LogDetail) (totalDeleted : nat) (trace : list event)
    : option (list LogDetail * nat * list event) :=
  match fuel with
  | O => None
  | S fuel' =>
    match env i with
    | DbError => Some (rows, totalDeleted, trace ++ [EvDeleteFailed; EvLogError])
    | _ =>
      let '(deleted, rows') := limitedDelete logDetailCleanupBatchSize cutoff rows in
      let rowsAffected := length deleted in
      let trace := trace ++ [EvDelete deleted] in
      if decide (rowsAffected = 0%nat) then Some (rows', totalDeleted, trace)
      else
        let totalDeleted := (totalDeleted + rowsAffected)%nat in
        if decide (rowsAffected < logDetailCleanupBatchSize)%nat
        then Some (rows', totalDeleted, trace)
        else pruneLoopPlain fuel' env cutoff (S i) rows' totalDeleted trace
    end
  end.

Definition pruneExpiredLogDetailsPlain (days now : Z) (env : nat -> tick)
    (db : Store) : option (Store * list event) :=
  if decide (days <= 0) then Some (db, [])
  else
    let cutoff := cutoffOf now days in
    match pruneLoopPlain (S (length (log_details db))) env cutoff 0
                         (log_details db) 0 [] with
    | None => None
    | Some (rows, totalDeleted, trace) =>
      let trace :=
        if decide (0 < totalDeleted)%nat
        then trace ++ [EvLogInfo totalDeleted days] else trace in
      Some (mkStore rows (log_records db), trace)
    end.

End Sweep.

Arguments Store : clear implicits.
Arguments event : clear implicits.

(** The calendar of a process whose zone is UTC, on the dates that the
    arithmetic of package [time] does not overflow on: a calendar day is
    86400 seconds. *)
Definition AddDateUTC (now n : Z) : Z := now + n * 86400.

End LogRetention.

(** ** The retention cleaner: [runLogDetailCleanupLoop] *)

Module LogRetentionCleaner.
Import LogRetention.

Section Cleaner.

Context {LogDetail LogRecord : Type}.
Variable CreatedAt : LogDetail -> Z.
Variable AddDate : Z -> Z -> Z.
Variable dialect : Dialect.

(** What one sweep of the cleaner meets: the configured period
    [common.DetailedLogRetentionDays], which is read at every sweep, the
    clock, and the statements that fail. *)
Record moment : Type := mkMoment {
  moment_days : Z;
  moment_now : Z;
  moment_fails : nat -> bool;
}.

(** [ctx := context.Background()]: never cancelled. *)
Definition background (fails : nat -> bool) : nat -> tick :=
  fun i => if fails i then DbError else Run.

(** The sweeps of [runLogDetailCleanupLoop], one after the other, with the
    events they leave. *)
Fixpoint sweeps (moments : list moment) (db : Store LogDetail LogRecord)
    (log : list (event LogDetail))
    : option (Store LogDetail LogRecord * list (event LogDetail)) :=
  match moments with
  | [] => Some (db, log)
  | m :: moments' =>
    match pruneExpiredLogDetails CreatedAt AddDate dialect
            (moment_days m) (moment_now m) (background (moment_fails m)) db with
    | None => None
    | Some (db', trace) => sweeps moments' db' (log ++ trace)
    end
  end.

(** [runLogDetailCleanupLoop] up to a tick of its ticker: one sweep at
    once, then one sweep for every tick. The loop itself does not return. *)
Definition runLogDetailCleanupLoop (start : moment) (ticks : list moment)
    (db : Store LogDetail LogRecord)
    : option (Store LogDetail LogRecord * list (event LogDetail)) :=
  sweeps (start :: ticks) db [].

End Cleaner.

Arguments moment : clear implicits.

End LogRetentionCleaner.

(** ** Upstream transport: header hygiene, header overrides, upstream URL *)

Module Transport.
Import GoString.

(** An [http.Header]: header names (in the canonical form in which
    [net/http] stores them) to their values, in order. *)
Abbreviation Header := (gmap gostring (list gostring)).

(** [textproto.CanonicalMIMEHeaderKey] on a header token: the first letter
    and every letter after a hyphen in upper case, the others in lower
    case. *)
Fixpoint canonicalFrom (upper : bool) (s : gostring) : gostring :=
  match s with
  | [] => []
  | b :: s' =>
    (if upper then upperByte b else lowerByte b)
      :: canonicalFrom (bool_decide (b = "-"%char)) s'
  end.

Definition CanonicalMIMEHeaderKey (name : gostring) : gostring :=
  canonicalFrom true name.

(** [h.Values(name)], [h.Get(name)], [h.Add(name, value)] and
    [h.Set(name, value)]. *)
Definition Header_Values (h : Header) (name : gostring) : list gostring :=
  default [] (h !! CanonicalMIMEHeaderKey name).


Definition Header_Add (h : Header) (name value : gostring) : Header :=
  <[CanonicalMIMEHeaderKey name := Header_Values h name ++ [value]]> h.


(** The headers that are never passed through, in lower case: the
    credentials and the hop-by-hop headers. *)
Definition passThroughDenied : list gostring :=
  map lit ["authorization"; "cookie"; "api-key"; "x-api-key";
           "connection"; "keep-alive"; "proxy-authenticate";
           "proxy-authorization"; "te"; "trailer"; "transfer-encoding";
           "upgrade"; "proxy-connection"; "host"; "content-length"]%string.

(** A header name as the deny set holds it: trimmed, in lower case. *)
Definition denyKey (name : gostring) : gostring := ToLower (TrimSpace name).

(** The names listed in the values of the [Connection] header: comma
    separated, trimmed, in lower case, the empty ones left out. *)
Definition connectionTokens (src : Header) : list gostring :=
  filter (fun token => token <> [])
         (denyKey <$> (Header_Values src (lit "Connection") ≫= fun v => Split v ","%char)).

(** Modelled from the spec: [buildPassThroughHeaderDenySet] of
    [relay/channel], of which the sources hold only the tests. The deny set
    of a pass-through request: the credentials, the hop-by-hop headers, the
    names listed in the inbound [Connection] header and the names the caller
    adds, all in lower case. *)
Definition buildPassThroughHeaderDenySet (src : Header) (extraDeny : list gostring)
    : gset gostring :=
  list_to_set (passThroughDenied ++ connectionTokens src
               ++ filter (fun k => k <> []) (denyKey <$> extraDeny)).

(** Modelled from the spec: [copyHeadersExcept] of [relay/channel], of which
    the sources hold only the tests. Every header of [src] whose lower-case
    name is not in the deny set is added to [dst] with all its values in
    order, after the values [dst] already has for it. *)
Definition copyHeadersExcept (dst src : Header) (deny : gset gostring) : Header :=
  union_with (fun old new => Some (old ++ new)) dst
             (filter (fun kv => ToLower kv.1 ∉ deny) src).

(** The header map a pass-through request sends upstream. *)
Definition passThroughHeaders (src : Header) : Header :=
  copyHeadersExcept ∅ src (buildPassThroughHeaderDenySet src []).

(** *** Header overrides *)





(** *** Upstream URL *)

(** The channel types that the URL rule tells apart. *)
Inductive ChannelType : Type :=
  | ChannelTypeOpenAI
  | ChannelTypeOther (id : Z).

(** The path component of a URL: what follows the authority, from its first
    slash on. *)
Definition urlPath (url : gostring) : gostring :=
  let afterScheme :=
    match Index url (lit "://") with
    | Some i => drop (i + 3) url
    | None => url
    end in
  match Index afterScheme (lit "/") with
  | Some j => drop j afterScheme
  | None => []
  end.

Definition hasNonRootPath (url : gostring) : bool :=
  bool_decide (urlPath url <> [] /\ urlPath url <> lit "/").

Definition isCloudflareGateway (baseURL : gostring) : bool :=
  HasPrefix baseURL (lit "https://gateway.ai.cloudflare.com").

(** Modelled from the spec: [GetFullRequestURL] of [relay/common], of which
    the sources hold only the test. The Cloudflare AI gateway shape comes
    first. For an OpenAI channel a base URL with a path other than the root
    takes the request URL without its leading [/v1]; a trailing slash of the
    base URL is not doubled. Any other channel appends the request URL as it
    is. *)
Definition GetFullRequestURL (baseURL requestURL : gostring)
    (channelType : ChannelType) : gostring :=
  if isCloudflareGateway baseURL then
    match channelType with
    | ChannelTypeOpenAI => baseURL ++ TrimPrefix requestURL (lit "/v1")
    | ChannelTypeOther _ => baseURL ++ requestURL
    end
  else
    match channelType with
    | ChannelTypeOpenAI =>
      let base := TrimSuffix baseURL (lit "/") in
      if hasNonRootPath baseURL
      then base ++ TrimPrefix requestURL (lit "/v1")
      else base ++ requestURL
    | ChannelTypeOther _ => baseURL ++ requestURL
    end.

End Transport.

(** ** Stream aggregation: [UsageLogDetailDrawer.jsx] *)

Module StreamAggregate.

(** *** JavaScript values *)

(** A JavaScript string: a sequence of UTF-16 code units. *)
Abbreviation jsstring := (list N).

(** A string literal of the source (the literals are ASCII). *)
Definition jlit (s : string) : jsstring := map N_of_ascii (list_ascii_of_string s).

(** A string is truthy when it is not empty; a property that holds a string
    is truthy when it is neither [undefined] nor [null] ([None]) nor
    empty. *)
Definition truthy (s : jsstring) : bool := negb (bool_decide (s = [])).

Definition present (v : option jsstring) : bool :=
  match v with
  | Some s => truthy s
  | None => false
  end.

(** [a || b] for a string property [a]. *)
Definition orElse (a : option jsstring) (b : jsstring) : jsstring :=
  match a with
  | Some s => if truthy s then s else b
  | None => b
  end.

(** White space and line terminators of ECMAScript, which
    [String.prototype.trim] removes. *)
Definition isWhiteSpace (c : N) : bool :=
  ((9 <=? c) && (c <=? 13) || (c =? 32) || (c =? 0xA0) || (c =? 0x1680)
   || ((0x2000 <=? c) && (c <=? 0x200A)) || (c =? 0x2028) || (c =? 0x2029)
   || (c =? 0x202F) || (c =? 0x205F) || (c =? 0x3000) || (c =? 0xFEFF))%N.

Fixpoint trimStart (s : jsstring) : jsstring :=
  match s with
  | c :: s' => if isWhiteSpace c then trimStart s' else s
  | [] => []
  end.

Definition trim (s : jsstring) : jsstring := rev (trimStart (rev (trimStart s))).

(** *** [decodeUnicodeEscapes] *)

Definition isHexDigit (c : N) : bool :=
  ((48 <=? c) && (c <=? 57) || (65 <=? c) && (c <=? 70)
   || (97 <=? c) && (c <=? 102))%N.

Definition hexValue (c : N) : N :=
  (if c <=? 57 then c - 48 else if c <=? 70 then c - 55 else c - 87)%N.

(** The four hexadecimal digits after a backslash and a [u], as
    [parseInt(code, 16)] reads them. *)
Definition unicodeEscape (s : jsstring) : option (N * jsstring) :=
  match s with
  | 92 :: 117 :: a :: b :: c :: d :: rest =>
    if isHexDigit a && isHexDigit b && isHexDigit c && isHexDigit d
    then Some (hexValue a * 4096 + hexValue b * 256 + hexValue c * 16 + hexValue d, rest)
    else None
  | _ => None
  end%N.

(** [raw.replace(/\\u([0-9a-fA-F]{4})/g, ...)]. *)
Fixpoint replaceUnicodeEscapes (fuel : nat) (s : jsstring) : jsstring :=
  match fuel with
  | O => s
  | S fuel' =>
    match unicodeEscape s with
    | Some (code, rest) => code :: replaceUnicodeEscapes fuel' rest
    | None =>
      match s with
      | c :: s' => c :: replaceUnicodeEscapes fuel' s'
      | [] => []
      end
    end
  end.

(** [output.replace(/\\x/g, r)] for a letter [x]: every backslash followed
    by [x] becomes the code unit [r]. *)
Fixpoint replaceEscape (x r : N) (s : jsstring) : jsstring :=
  match s with
  | c1 :: s' =>
    match s' with
    | c2 :: rest =>
      if ((c1 =? 92) && (c2 =? x))%N then r :: replaceEscape x r rest
      else c1 :: replaceEscape x r s'
    | [] => [c1]
    end
  | [] => []
  end.

(** The test of [decodeUnicodeEscapes]: one of the four patterns occurs. *)
Fixpoint hasEscape (s : jsstring) : bool :=
  match s with
  | c1 :: s' =>
    match unicodeEscape s with Some _ => true | None => false end
    || match s' with
       | c2 :: _ => ((c1 =? 92) && ((c2 =? 110) || (c2 =? 114) || (c2 =? 116)))%N
       | [] => false
       end
    || hasEscape s'
  | [] => false
  end.

Definition decodeUnicodeEscapes (raw : jsstring) : jsstring :=
  if negb (hasEscape raw) then raw
  else
    let output := replaceUnicodeEscapes (length raw) raw in
    let output := replaceEscape 110 10 output in
    let output := replaceEscape 114 13 output in
    replaceEscape 116 9 output.

(** [normaliseContent] on a string (the streams carry reasoning as
    strings): the empty string is falsy and gives the empty string. *)
Definition normaliseContent (content : jsstring) : jsstring :=
  if negb (truthy content) then [] else decodeUnicodeEscapes content.

(** *** JSON values *)

(** What [JSON.parse] returns. Numbers are kept as integers: the
    aggregators pass values on and only ask whether one is [null]. *)
#[warnings="-register-all"]
Inductive json : Type :=
  | JNull
  | JBool (b : bool)
  | JNumber (n : Z)
  | JString (s : jsstring)
  | JArray (items : list json)
  | JObject (fields : list (jsstring * json)).

(** [a ?? b] for a property that holds a JSON value: [None] stands for
    [undefined]. *)
Definition nullish (v : option json) : bool :=
  match v with
  | None | Some JNull => true
  | Some _ => false
  end.

(** *** JavaScript arrays with holes *)

(** [arr[i]]: [undefined] for a hole and beyond the length. *)
Definition array_get {A} (arr : list (option A)) (i : nat) : option A :=
  mjoin (arr !! i).

(** [arr[i] = x]: the array grows, with holes, when [i] is beyond it. *)
Definition array_set {A} (arr : list (option A)) (i : nat) (x : A)
    : list (option A) :=
  if decide (i < length arr)%nat then <[i := Some x]> arr
  else arr ++ replicate (i - length arr) None ++ [Some x].

(** [arr.forEach((x, index) => ...)] threading a state. *)
Fixpoint forEach_i {A St} (f : St -> A -> nat -> St) (arr : list A)
    (index : nat) (s : St) : St :=
  match arr with
  | [] => s
  | x :: arr' => forEach_i f arr' (S index) (f s x index)
  end.

(** *** OpenAI [chat.completion.chunk] objects *)

(** The [usage] object of a stream object. *)
Record Usage : Type := mkUsage {
  prompt_tokens : Z;
  completion_tokens : Z;
  total_tokens : Z;
}.

(** [toolDelta.function]. *)
Record FunctionDelta : Type := mkFunctionDelta {
  fn_name : option jsstring;
  fn_arguments : option jsstring;
}.

(** An element of [delta.tool_calls]. *)
Record ToolCallDelta : Type := mkToolCallDelta {
  tc_index : option nat;
  tc_id : option jsstring;
  tc_type : option jsstring;
  tc_function : option FunctionDelta;
}.

(** [choice.delta]. [None] in a field: the property is absent or [null]. *)
Record Delta : Type := mkDelta {
  delta_role : option jsstring;
  delta_content : option jsstring;
  delta_reasoning_content : option jsstring;
  delta_tool_calls : option (list ToolCallDelta);
}.

Record Choice : Type := mkChoice {
  choice_delta : option Delta;
}.

(** A stream object: its choices ([[]] when the property is absent), its
    usage and the usage of its [response] (which a Responses-API event
    carries). *)
Record Chunk : Type := mkChunk {
  chunk_choices : list Choice;
  chunk_usage : option Usage;
  chunk_response_usage : option Usage;
}.

(** An accumulated tool call: [{ id, type, function: { name, arguments } }]. *)
Record ToolCall : Type := mkToolCall {
  call_id : option jsstring;
  call_type : option jsstring;
  call_name : jsstring;
  call_arguments : jsstring;
}.

(** The message an aggregator returns; [None]: the property is not set. *)
Record OpenAIMessage : Type := mkOpenAIMessage {
  msg_role : jsstring;
  msg_content : option jsstring;
  msg_reasoning : option jsstring;
  msg_tool_calls : option (list (option ToolCall));
}.

(** The variables of [aggregateOpenAIStreamChunks]. *)
Record OpenAIState : Type := mkOpenAIState {
  st_role : jsstring;
  st_reasoningBuffer : jsstring;
  st_fullContent : jsstring;
  st_toolCalls : list (option ToolCall);
}.

(** Assignments to the properties of a tool call. *)
Definition withCallId (id : option jsstring) (call : ToolCall) : ToolCall :=
  mkToolCall id (call_type call) (call_name call) (call_arguments call).
Definition withCallType (type : option jsstring) (call : ToolCall) : ToolCall :=
  mkToolCall (call_id call) type (call_name call) (call_arguments call).
Definition withCallName (name : jsstring) (call : ToolCall) : ToolCall :=
  mkToolCall (call_id call) (call_type call) name (call_arguments call).
Definition withCallArguments (arguments : jsstring) (call : ToolCall) : ToolCall :=
  mkToolCall (call_id call) (call_type call) (call_name call) arguments.

(** The updates of [existing] by one tool-call delta. *)
Definition mergeToolDelta (toolDelta : ToolCallDelta) (existing : ToolCall)
    : ToolCall :=
  let existing :=
    if present (tc_id toolDelta) then withCallId (tc_id toolDelta) existing
    else existing in
  let existing :=
    if present (tc_type toolDelta) then withCallType (tc_type toolDelta) existing
    else existing in
  let existing :=
    if present (tc_function toolDelta ≫= fn_name)
    then withCallName (default [] (tc_function toolDelta ≫= fn_name)) existing
    else existing in
  if present (tc_function toolDelta ≫= fn_arguments)
  then withCallArguments
         (call_arguments existing
          ++ default [] (tc_function toolDelta ≫= fn_arguments)) existing
  else existing.

(** The body of [delta.tool_calls.forEach((toolDelta, index) => ...)]. *)
Definition toolDeltaStep (toolCalls : list (option ToolCall))
    (toolDelta : ToolCallDelta) (index : nat) : list (option ToolCall) :=
  let targetIndex := default index (tc_index toolDelta) in
  let existing :=
    match array_get toolCalls targetIndex with
    | Some call => call
    | None =>
      {| call_id := tc_id toolDelta;
         call_type := tc_type toolDelta;
         call_name := orElse (tc_function toolDelta ≫= fn_name) [];
         call_arguments := [] |}
    end in
  array_set toolCalls targetIndex (mergeToolDelta toolDelta existing).

(** The body of [streamObjects.forEach((chunk) => ...)]. *)
Definition chunkStep (st : OpenAIState) (chunk : Chunk) : OpenAIState :=
  match chunk_choices chunk with
  | [] => st
  | choice :: _ =>
    match choice_delta choice with
    | None => st
    | Some delta =>
      {| st_role := orElse (delta_role delta) (st_role st);
         st_fullContent :=
           match delta_content delta with
           | Some content => st_fullContent st ++ content
           | None => st_fullContent st
           end;
         st_reasoningBuffer :=
           match delta_reasoning_content delta with
           | Some reasoning =>
             if truthy reasoning
             then st_reasoningBuffer st ++ normaliseContent reasoning
             else st_reasoningBuffer st
           | None => st_reasoningBuffer st
           end;
         st_toolCalls :=
           match delta_tool_calls delta with
           | Some toolDeltas => forEach_i toolDeltaStep toolDeltas 0 (st_toolCalls st)
           | None => st_toolCalls st
           end |}
    end
  end.

(** [aggregateOpenAIStreamChunks]; [None] is [null]. *)
Definition aggregateOpenAIStreamChunks (streamObjects : list Chunk)
    : option OpenAIMessage :=
  if decide (length streamObjects = 0%nat) then None
  else
    let st := fold_left chunkStep streamObjects
                {| st_role := jlit "assistant"; st_reasoningBuffer := [];
                   st_fullContent := []; st_toolCalls := [] |} in
    Some {| msg_role := st_role st;
            msg_content :=
              if truthy (st_fullContent st) then Some (st_fullContent st) else None;
            msg_reasoning :=
              if truthy (trim (st_reasoningBuffer st))
              then Some (st_reasoningBuffer st) else None;
            msg_tool_calls :=
              if decide (0 < length (st_toolCalls st))%nat
              then Some (st_toolCalls st) else None |}.

(** [collectResponseUsage]: [responseUsage] is [responseObject?.usage]. *)
Definition collectResponseUsage (responseUsage : option Usage)
    (streamObjects : list Chunk) : option Usage :=
  match responseUsage with
  | Some usage => Some usage
  | None =>
    match
      list_find (fun obj => is_Some (chunk_usage obj)
                            \/ is_Some (chunk_response_usage obj))
                (rev streamObjects)
    with
    | Some (_, withUsage) =>
      match chunk_usage withUsage with
      | Some usage => Some usage
      | None => chunk_response_usage withUsage
      end
    | None => None
    end
  end.

(** *** Anthropic message-stream events *)

(** [event.content_block]. *)
Record ContentBlock : Type := mkContentBlock {
  cb_type : option jsstring;
  cb_text : option jsstring;
  cb_name : option jsstring;
  cb_id : option jsstring;
  cb_input : option json;
  cb_content : option json;
  cb_thinking : option jsstring;
}.

(** [event.delta], of a [content_block_delta] or a [message_delta]. *)
Record EventDelta : Type := mkEventDelta {
  ed_type : option jsstring;
  ed_text : option jsstring;
  ed_thinking : option jsstring;
  ed_partial_json : option jsstring;
  ed_partialJson : option jsstring;
  ed_arguments : option jsstring;
  ed_role : option jsstring;
  ed_reasoning : option jsstring;
}.

(** An event object. [ev_message_role] is [event.message?.role]. *)
Record Event : Type := mkEvent {
  ev_type : option jsstring;
  ev_index : option nat;
  ev_message_role : option jsstring;
  ev_content_block : option ContentBlock;
  ev_delta : option EventDelta;
}.

(** A value of the map [blocks]. *)
Record Block : Type := mkBlock {
  block_type : jsstring;
  block_text : jsstring;
  block_name : option jsstring;
  block_id : option jsstring;
  block_input : option json;
  block_partialJson : jsstring;
  block_content : option json;
  block_reasoning : jsstring;
}.

(** The block that [getBlock] creates for a new index. *)
Definition newBlock : Block :=
  {| block_type := jlit "text"; block_text := []; block_name := None;
     block_id := None; block_input := None; block_partialJson := [];
     block_content := None; block_reasoning := [] |}.

(** The variables of [aggregateClaudeStreamEvents]. *)
Record ClaudeState : Type := mkClaudeState {
  cs_blocks : gmap nat Block;
  cs_role : jsstring;
  cs_reasoning : jsstring;
}.

(** [getBlock(index)]: the map with the block in it, and the block. *)
Definition getBlock (blocks : gmap nat Block) (index : nat)
    : gmap nat Block * Block :=
  match blocks !! index with
  | Some block => (blocks, block)
  | None => (<[index := newBlock]> blocks, newBlock)
  end.

(** An element of [message.content]. *)
Inductive ContentItem : Type :=
  | TextItem (text : jsstring)
  | ToolUseItem (id name : option jsstring) (input : option json)
  | ToolResultItem (id name : option jsstring) (content : json)
  | OtherItem (type : jsstring) (content : json).

Record ClaudeMessage : Type := mkClaudeMessage {
  cm_role : jsstring;
  cm_content : option (list ContentItem);
  cm_reasoning : option jsstring;
}.

(** Assignments to the properties of a block. *)
Definition withType (type : jsstring) (b : Block) : Block :=
  mkBlock type (block_text b) (block_name b) (block_id b) (block_input b)
          (block_partialJson b) (block_content b) (block_reasoning b).
Definition withText (text : jsstring) (b : Block) : Block :=
  mkBlock (block_type b) text (block_name b) (block_id b) (block_input b)
          (block_partialJson b) (block_content b) (block_reasoning b).
Definition withName (name : option jsstring) (b : Block) : Block :=
  mkBlock (block_type b) (block_text b) name (block_id b) (block_input b)
          (block_partialJson b) (block_content b) (block_reasoning b).
Definition withId (id : option jsstring) (b : Block) : Block :=
  mkBlock (block_type b) (block_text b) (block_name b) id (block_input b)
          (block_partialJson b) (block_content b) (block_reasoning b).
Definition withInput (input : option json) (b : Block) : Block :=
  mkBlock (block_type b) (block_text b) (block_name b) (block_id b) input
          (block_partialJson b) (block_content b) (block_reasoning b).
Definition withPartialJson (partialJson : jsstring) (b : Block) : Block :=
  mkBlock (block_type b) (block_text b) (block_name b) (block_id b)
          (block_input b) partialJson (block_content b) (block_reasoning b).
Definition withContent (content : option json) (b : Block) : Block :=
  mkBlock (block_type b) (block_text b) (block_name b) (block_id b)
          (block_input b) (block_partialJson b) content (block_reasoning b).
Definition withReasoning (reasoning : jsstring) (b : Block) : Block :=
  mkBlock (block_type b) (block_text b) (block_name b) (block_id b)
          (block_input b) (block_partialJson b) (block_content b) reasoning.

(** An event without [delta] reads as one with the empty object. *)
Definition noDelta : EventDelta :=
  mkEventDelta None None None None None None None None.

(** The [switch (delta.type)] of a [content_block_delta]. *)
Definition blockDeltaStep (block : Block) (delta : EventDelta) : Block :=
  let type := default [] (ed_type delta) in
  if decide (type = jlit "text_delta") then
    let block := withType (if truthy (block_type block) then block_type block
                           else jlit "text") block in
    withText (block_text block ++ orElse (ed_text delta) []) block
  else if decide (type = jlit "thinking_delta") then
    withReasoning (block_reasoning block ++ orElse (ed_thinking delta) []) block
  else if decide (type = jlit "input_json_delta") then
    withPartialJson
      (block_partialJson block ++
       match ed_partial_json delta with
       | Some fragment => fragment
       | None => default [] (ed_partialJson delta)
       end) block
  else if decide (type = jlit "tool_use_delta") then
    withPartialJson (block_partialJson block ++ orElse (ed_arguments delta) []) block
  else if present (ed_text delta) then
    withText (block_text block ++ default [] (ed_text delta)) block
  else block.

(** The assignments of [content_block_start]. *)
Definition blockStart (block : Block) (contentBlock : option ContentBlock) : Block :=
  let block := withType (orElse (contentBlock ≫= cb_type) (block_type block)) block in
  let block := withText (orElse (contentBlock ≫= cb_text) []) block in
  let block := withName (contentBlock ≫= cb_name) block in
  let block := withId (contentBlock ≫= cb_id) block in
  let block := withInput (contentBlock ≫= cb_input) block in
  let block := withContent (contentBlock ≫= cb_content) block in
  withReasoning (orElse (contentBlock ≫= cb_thinking) []) block.

Section Claude.

(** [JSON.parse]; [None] when it throws. *)
Variable JSON_parse : jsstring -> option json.

Definition safeParseJson (raw : jsstring) : json :=
  if negb (truthy raw) then JNull
  else
    match JSON_parse raw with
    | Some value => value
    | None => JNull
    end.

(** The assignment of [content_block_stop]: [parsed ?? block.partialJson]. *)
Definition blockStop (block : Block) : Block :=
  if truthy (block_partialJson block) then
    let parsed := safeParseJson (block_partialJson block) in
    withInput (Some (if nullish (Some parsed)
                     then JString (block_partialJson block) else parsed)) block
  else block.

(** The body of [events.forEach((event) => ...)]. *)
Definition eventStep (st : ClaudeState) (event : Event) : ClaudeState :=
  let type := default [] (ev_type event) in
  if decide (type = jlit "message_start") then
    mkClaudeState (cs_blocks st) (orElse (ev_message_role event) (cs_role st))
                  (cs_reasoning st)
  else if decide (type = jlit "content_block_start") then
    let index := default (size (cs_blocks st)) (ev_index event) in
    let '(blocks, block) := getBlock (cs_blocks st) index in
    mkClaudeState (<[index := blockStart block (ev_content_block event)]> blocks)
                  (cs_role st) (cs_reasoning st)
  else if decide (type = jlit "content_block_delta") then
    let index := default 0%nat (ev_index event) in
    let '(blocks, block) := getBlock (cs_blocks st) index in
    let delta := default noDelta (ev_delta event) in
    mkClaudeState (<[index := blockDeltaStep block delta]> blocks)
                  (cs_role st) (cs_reasoning st)
  else if decide (type = jlit "content_block_stop") then
    let index := default 0%nat (ev_index event) in
    let '(blocks, block) := getBlock (cs_blocks st) index in
    mkClaudeState (<[index := blockStop block]> blocks)
                  (cs_role st) (cs_reasoning st)
  else if decide (type = jlit "message_delta") then
    let role := orElse (ev_delta event ≫= ed_role) (cs_role st) in
    let reasoning :=
      if present (ev_delta event ≫= ed_reasoning)
      then cs_reasoning st
           ++ normaliseContent (default [] (ev_delta event ≫= ed_reasoning))
      else cs_reasoning st in
    mkClaudeState (cs_blocks st) role reasoning
  else if decide (type = jlit "message_stop") then
    mkClaudeState (cs_blocks st) (orElse (ev_message_role event) (cs_role st))
                  (cs_reasoning st)
  else st.

(** The order of the comparator [(a, b) => a[0] - b[0]]. *)
Definition byIndex : relation (nat * Block) := fun a b => (a.1 <= b.1)%nat.

#[global] Instance byIndex_dec : RelDecision byIndex.
Proof. intros a b. unfold byIndex. apply _. Defined.

(** [Array.from(blocks.entries()).sort((a, b) => a[0] - b[0])]. *)
Definition sortedBlocks (blocks : gmap nat Block) : list (nat * Block) :=
  merge_sort byIndex (map_to_list blocks).

(** [block.content ?? block.text ?? block.input]: the text of a block is
    always a string, so the input is never reached. *)
Definition contentOrText (block : Block) : json :=
  match block_content block with
  | Some value => if nullish (Some value) then JString (block_text block) else value
  | None => JString (block_text block)
  end.

(** The callback of [.map(([, block]) => ...)], without its side effect on
    [reasoning]. *)
Definition contentItem (block : Block) : ContentItem :=
  if bool_decide (block_type block = jlit "text") || negb (truthy (block_type block))
  then TextItem (block_text block)
  else if decide (block_type block = jlit "tool_use") then
    ToolUseItem (block_id block) (block_name block)
      (match block_input block with
       | Some input => Some input
       | None =>
         if truthy (block_partialJson block) && truthy (trim (block_partialJson block))
         then Some (JString (block_partialJson block)) else None
       end)
  else if decide (block_type block = jlit "tool_result") then
    ToolResultItem (block_id block) (block_name block) (contentOrText block)
  else OtherItem (block_type block) (contentOrText block).

(** The blocks that make the content: those whose type is not
    ["reasoning"], by ascending index. *)
Definition listedBlocks (blocks : gmap nat Block) : list (nat * Block) :=
  filter (fun entry => block_type entry.2 <> jlit "reasoning") (sortedBlocks blocks).

(** [aggregateClaudeStreamEvents]; [None] is [null]. *)
Definition aggregateClaudeStreamEvents (events : list Event)
    : option ClaudeMessage :=
  if decide (length events = 0%nat) then None
  else
    let st := fold_left eventStep events
                (mkClaudeState ∅ (jlit "assistant") []) in
    let listed := listedBlocks (cs_blocks st) in
    let reasoning :=
      fold_left (fun reasoning entry => reasoning ++ block_reasoning entry.2)
                listed (cs_reasoning st) in
    let content := map (fun entry => contentItem entry.2) listed in
    Some {| cm_role := cs_role st;
            cm_content := if decide (0 < length content)%nat then Some content else None;
            cm_reasoning := if truthy (trim reasoning) then Some reasoning else None |}.

End Claude.

End StreamAggregate.

(** ** The split of a logged stream (UsageLogDetailDrawer.jsx)

    [splitStreamingResponse] turns the text of a logged stream into the
    list of the values it carries; the aggregators above work on that
    list. *)

Module StreamSplit.
Import StreamAggregate.

(** [if (value)] for a parsed value: [null], [false], [0] and the empty
    string are falsy, objects and arrays are truthy. *)
Definition truthyJson (value : json) : bool :=
  match value with
  | JNull => false
  | JBool b => b
  | JNumber n => negb (n =? 0)
  | JString s => truthy s
  | JArray _ | JObject _ => true
  end.

(** A match of [/\r?\n/] at the head of a string: what follows the match. *)
Definition lineBreak (s : jsstring) : option jsstring :=
  match s with
  | 13 :: 10 :: rest => Some rest
  | 10 :: rest => Some rest
  | _ => None
  end%N.

(** A match of [/\r?\n\r?\n/] at the head of a string. *)
Definition blankLine (s : jsstring) : option jsstring :=
  lineBreak s ≫= lineBreak.

(** [s.split(re)] for a regular expression that matches no empty string:
    [separator] is the match of [re] at the head of a string, [pending]
    holds, in reverse, the code units since the last match. The fuel is the
    length of the string. *)
Fixpoint split_fuel (separator : jsstring -> option jsstring) (fuel : nat)
    (s pending : jsstring) : list jsstring :=
  match s with
  | [] => [rev pending]
  | c :: s' =>
    match fuel with
    | O => [rev pending ++ s]
    | S fuel' =>
      match separator s with
      | Some rest => rev pending :: split_fuel separator fuel' rest []
      | None => split_fuel separator fuel' s' (c :: pending)
      end
    end
  end.

Definition split (separator : jsstring -> option jsstring) (s : jsstring)
    : list jsstring :=
  split_fuel separator (length s) s [].

(** [s.startsWith(prefix)]. *)
Definition startsWith (s prefix : jsstring) : bool :=
  bool_decide (take (length prefix) s = prefix).

Section Split.

(** [JSON.parse]; [None] when it throws. *)
Variable JSON_parse : jsstring -> option json.

Abbreviation safeParseJson := (StreamAggregate.safeParseJson JSON_parse).

(** [const parsed = safeParseJson(candidate); if (parsed) objects.push(parsed)]. *)
Definition pushParsed (objects : list json) (candidate : jsstring) : list json :=
  let parsed := safeParseJson candidate in
  if truthyJson parsed then objects ++ [parsed] else objects.

(** The body of [segments.forEach((segment) => ...)]. *)
Definition segmentStep (sseObjects : list json) (segment : jsstring) : list json :=
  if negb (truthy segment) then sseObjects
  else
    let dataLines :=
      filter (fun line => startsWith line (jlit "data:") = true)
             (map trim (split lineBreak segment)) in
    if decide (length dataLines = 0%nat) then sseObjects
    else
      let candidate := concat (map (fun line => trim (drop 5 line)) dataLines) in
      if negb (truthy candidate) || bool_decide (candidate = jlit "[DONE]")
      then sseObjects
      else pushParsed sseObjects candidate.

(** [flushBuffer], on the pair of [sseObjects] and [dataBuffer]. *)
Definition flushBuffer (st : list json * jsstring) : list json * jsstring :=
  let candidate := trim st.2 in
  if negb (truthy candidate) || bool_decide (candidate = jlit "[DONE]")
  then (st.1, [])
  else (pushParsed st.1 candidate, []).

(** The body of [lines.forEach((line) => ...)] of the fallback. *)
Definition lineStep (st : list json * jsstring) (line : jsstring)
    : list json * jsstring :=
  let current := trim line in
  if negb (truthy current) then flushBuffer st
  else if negb (startsWith current (jlit "data:")) then st
  else
    let payload := trim (drop 5 current) in
    if negb (truthy payload) then st
    else if negb (truthy st.2) then
      let parsed := safeParseJson payload in
      if truthyJson parsed then (st.1 ++ [parsed], st.2) else (st.1, payload)
    else
      let dataBuffer := st.2 ++ payload in
      let parsed := safeParseJson dataBuffer in
      if truthyJson parsed then (st.1 ++ [parsed], []) else (st.1, dataBuffer).

(** The variables of the scan for objects that follow one another. *)
Record ScanState : Type := mkScanState {
  scan_objects : list json;
  scan_buffer : jsstring;
  scan_depth : Z;
  scan_inString : bool;
  scan_escapeNext : bool;
}.

(** The body of [for (let i = 0; i < trimmed.length; i += 1)]. *)
Definition scanStep (st : ScanState) (char : N) : ScanState :=
  let buffer := scan_buffer st ++ [char] in
  if scan_escapeNext st then
    mkScanState (scan_objects st) buffer (scan_depth st) (scan_inString st) false
  else if (char =? 92)%N then
    mkScanState (scan_objects st) buffer (scan_depth st) (scan_inString st) true
  else if (char =? 34)%N then
    mkScanState (scan_objects st) buffer (scan_depth st)
                (negb (scan_inString st)) false
  else if scan_inString st then
    mkScanState (scan_objects st) buffer (scan_depth st) true false
  else
    let depth :=
      if (char =? 123)%N then scan_depth st + 1
      else if (char =? 125)%N then scan_depth st - 1
      else scan_depth st in
    if (depth =? 0) && truthy (trim buffer)
    then mkScanState (pushParsed (scan_objects st) buffer) [] depth false false
    else mkScanState (scan_objects st) buffer depth false false.

(** [splitStreamingResponse] on a string. *)
Definition splitStreamingResponse (raw : jsstring) : list json :=
  if negb (truthy raw) then []
  else
    let trimmed := trim raw in
    if negb (truthy trimmed) then []
    else
      let sseObjects := fold_left segmentStep (split blankLine trimmed) [] in
      let sseObjects :=
        if decide (length sseObjects = 0%nat)
        then (flushBuffer (fold_left lineStep (split lineBreak trimmed)
                                     (sseObjects, []))).1
        else sseObjects in
      if decide (0 < length sseObjects)%nat then sseObjects
      else
        scan_objects
          (fold_left scanStep trimmed (mkScanState [] [] 0 false false)).

End Split.

End StreamSplit.

(* ===================================================================== *)
(** * Properties *)
(* ===================================================================== *)

(** ** Facts about Go strings *)

Module GoStringFacts.
Import GoString.

Local Ltac split_ifs :=
  repeat match goal with
         | |- context [if ?c then _ else _] => destruct c eqn:?
         end.

Local Ltac split_decode :=
  repeat (match goal with
          | |- context [match ?l with [] => _ | _ :: _ => _ end] => destruct l
          | |- context [if ?c then _ else _] => destruct c
          end; simpl; try lia).

Lemma decodeRune_width_pos b s : (1 <= (decodeRune (b :: s)).2)%nat.
Proof.
  unfold decodeRune. destruct (classify b) as [| |sz lo hi]; simpl; try lia.
  destruct sz as [|[|[|[|[|?]]]]]; simpl; try lia; split_decode.
Qed.


Lemma runes_fuel_irrel n : forall m s,
  (length s <= n)%nat -> (length s <= m)%nat -> runes_fuel n s = runes_fuel m s.
Proof.
  induction n as [|n IH]; intros m s Hn Hm.
  - destruct s; [by destruct m | simpl in Hn; lia].
  - destruct s as [|b s]; [by destruct m|].
    destruct m as [|m]; [simpl in Hm; lia|].
    cbn [runes_fuel].
    pose proof (decodeRune_width_pos b s) as Hw.
    destruct (decodeRune (b :: s)) as [r w]. simpl in Hw.
    f_equal. apply IH; rewrite length_drop; simpl in *; lia.
Qed.

Lemma runes_nil : runes [] = [].
Proof. reflexivity. Qed.

(** The defining equation of [[]rune(s)]. *)
Lemma runes_cons b s :
  runes (b :: s) =
  (decodeRune (b :: s)).1 :: runes (drop (decodeRune (b :: s)).2 (b :: s)).
Proof.
  unfold runes at 1. cbn [length runes_fuel].
  pose proof (decodeRune_width_pos b s) as Hw.
  destruct (decodeRune (b :: s)) as [r w]. simpl in *.
  f_equal. apply runes_fuel_irrel; rewrite ?length_drop; simpl; lia.
Qed.

(** Induction along the decoder: from a string to what is left after its
    first rune. *)
Lemma decode_ind (P : list ascii -> Prop) :
  P [] ->
  (forall b s, P (drop (decodeRune (b :: s)).2 (b :: s)) -> P (b :: s)) ->
  forall s : list ascii, P s.
Proof.
  intros H0 Hs s.
  remember (length s) as n eqn:Hn. revert s Hn.
  induction n as [n IH] using lt_wf_ind. intros [|b s] Hn; [done|].
  apply Hs. eapply IH; [|reflexivity].
  pose proof (decodeRune_width_pos b s).
  rewrite length_drop. subst n. cbn [length]. lia.
Qed.








Lemma runes_length_pos b s : (1 <= length (runes (b :: s)))%nat.
Proof. rewrite runes_cons. simpl. lia. Qed.

Lemma runes_nil_inv s : runes s = [] -> s = [].
Proof.
  destruct s as [|b s]; [done|]. intros H.
  pose proof (runes_length_pos b s) as Hp. rewrite H in Hp. simpl in Hp. lia.
Qed.




Lemma byteval_mkbyte z : 0 <= z < 256 -> byteval (mkbyte z) = z.
Proof.
  intros Hz. unfold byteval, mkbyte.
  rewrite N_ascii_embedding by lia. lia.
Qed.

Lemma byteval_range b : 0 <= byteval b < 256.
Proof. unfold byteval. pose proof (N_ascii_bounded b). lia. Qed.

Local Ltac Zify.zify_post_hook ::= Z.div_mod_to_equations.

(** [string(rune)] followed by decoding gives the rune back. *)
Lemma decodeRune_encodeRune r s :
  isScalar r = true ->
  decodeRune (encodeRune r ++ s) = (r, length (encodeRune r)).
Proof.
  intros Hr. unfold encodeRune. rewrite Hr. cbn [negb].
  unfold isScalar in Hr.
  destruct (r <? 0x80) eqn:E1;
    [|destruct (r <? 0x800) eqn:E2; [|destruct (r <? 0x10000) eqn:E3]].
  - cbn [app length decodeRune]. unfold classify.
    rewrite byteval_mkbyte by lia. by rewrite E1.
  - cbn [app length decodeRune]. unfold classify, inRange.
    rewrite !byteval_mkbyte by lia. split_ifs; try lia. f_equal. lia.
  - cbn [app length decodeRune]. unfold classify, inRange, isCont.
    rewrite !byteval_mkbyte by lia. split_ifs; try lia; f_equal; lia.
  - cbn [app length decodeRune]. unfold classify, inRange, isCont.
    rewrite !byteval_mkbyte by lia. split_ifs; try lia; f_equal; lia.
Qed.

Lemma encodeRune_nonempty r : encodeRune r <> [].
Proof. unfold encodeRune. split_ifs; done. Qed.

Lemma runes_encodeRune r s :
  isScalar r = true -> runes (encodeRune r ++ s) = r :: runes s.
Proof.
  intros Hr. pose proof (decodeRune_encodeRune r s Hr) as Hd.
  destruct (encodeRune r) as [|b t] eqn:E; [by apply encodeRune_nonempty in E|].
  rewrite <- app_comm_cons, runes_cons, app_comm_cons, Hd. cbn [fst snd].
  by rewrite drop_app_length.
Qed.

Lemma runes_encodeRunes rs s :
  Forall (fun r => isScalar r = true) rs ->
  runes (encodeRunes rs ++ s) = rs ++ runes s.
Proof.
  induction 1 as [|r rs Hr _ IH]; [done|].
  unfold encodeRunes in *. cbn [map concat].
  rewrite <- app_assoc, runes_encodeRune by done. by rewrite IH.
Qed.

(** The decoder only produces Unicode scalar values. *)
Lemma decodeRune_scalar s : isScalar (decodeRune s).1 = true.
Proof.
  destruct s as [|b0 t]; [done|].
  unfold decodeRune. pose proof (byteval_range b0) as H0.
  destruct (classify b0) as [| |sz lo hi] eqn:Hc; [|done|].
  - unfold classify in Hc. destruct (byteval b0 <? 128) eqn:E.
    + cbn [fst]. unfold isScalar. lia.
    + revert Hc. split_ifs; discriminate.
  - destruct sz as [|[|[|[|[|?]]]]]; try done.
    + destruct t as [|b1 t]; [done|].
      pose proof (byteval_range b1).
      destruct (inRange lo hi b1) eqn:E1; [|done].
      unfold classify in Hc. revert Hc.
      split_ifs; intros [= <- <-]; unfold inRange in E1;
        cbn [fst]; unfold isScalar; lia.
    + destruct t as [|b1 [|b2 t]]; [done..|].
      pose proof (byteval_range b1). pose proof (byteval_range b2).
      destruct (inRange lo hi b1 && isCont b2) eqn:E1; [|done].
      apply andb_prop in E1 as [E1 E2].
      unfold classify in Hc. revert Hc.
      split_ifs; intros [= <- <-]; unfold inRange, isCont in *;
        cbn [fst]; unfold isScalar; lia.
    + destruct t as [|b1 [|b2 [|b3 t]]]; [done..|].
      pose proof (byteval_range b1). pose proof (byteval_range b2).
      pose proof (byteval_range b3).
      destruct (inRange lo hi b1 && isCont b2 && isCont b3) eqn:E1; [|done].
      apply andb_prop in E1 as [E1 E3]. apply andb_prop in E1 as [E1 E2].
      unfold classify in Hc. revert Hc.
      split_ifs; intros [= <- <-]; unfold inRange, isCont in *;
        cbn [fst]; unfold isScalar; lia.
Qed.

Lemma runes_scalar s : Forall (fun r => isScalar r = true) (runes s).
Proof.
  induction s as [|b t IH] using decode_ind; [constructor|].
  rewrite runes_cons. constructor; [apply decodeRune_scalar | done].
Qed.

(** Re-encoding the runes of a string and decoding again changes nothing. *)
Lemma runes_encodeRunes_take n s t :
  runes (encodeRunes (take n (runes s)) ++ t) = take n (runes s) ++ runes t.
Proof. apply runes_encodeRunes, Forall_take, runes_scalar. Qed.



(** *** Byte search *)

Lemma HasPrefix_app sub b : HasPrefix (sub ++ b) sub = true.
Proof. induction sub as [|x sub IH]; [by destruct b|]. simpl. by case_decide. Qed.

Lemma Contains_app_r a s sub : Contains s sub = true -> Contains (a ++ s) sub = true.
Proof.
  intros H. induction a as [|x a IH]; [done|].
  simpl. rewrite IH. apply orb_true_r.
Qed.

Lemma Contains_HasPrefix s sub : HasPrefix s sub = true -> Contains s sub = true.
Proof. intros H. destruct s; simpl in *; by rewrite H. Qed.

Lemma Contains_here sub b : Contains (sub ++ b) sub = true.
Proof. apply Contains_HasPrefix, HasPrefix_app. Qed.

Lemma Contains_middle a sub b : Contains (a ++ sub ++ b) sub = true.
Proof. apply Contains_app_r, Contains_here. Qed.

Lemma Contains_nil_l sub : sub <> [] -> Contains [] sub = false.
Proof. by destruct sub. Qed.

Lemma HasSuffix_app s suffix : HasSuffix (s ++ suffix) suffix = true.
Proof. unfold HasSuffix. rewrite rev_app_distr. apply HasPrefix_app. Qed.


Lemma TrimSuffix_app s suffix : TrimSuffix (s ++ suffix) suffix = s.
Proof.
  unfold TrimSuffix. rewrite HasSuffix_app, length_app, Nat.add_sub.
  apply take_app_length.
Qed.

(** *** ASCII text *)








End GoStringFacts.

(** ** Payload capture: preview bound, streaming chunks, full payload *)

Module PayloadCaptureSpec.
Import GoString GoStringFacts PayloadCapture.

(** *** The store *)

Lemma fullPayloadKeyFor_ne key fk : fullPayloadKeyFor key = Some fk -> fk <> key.
Proof. destruct key; simpl; intros [= <-]; done. Qed.


Lemma GetString_insert_ne (c : Context) key k v :
  k <> key -> GetString (<[k := v]> c) key = GetString c key.
Proof. intros H. unfold GetString. by rewrite lookup_insert_ne. Qed.

Lemma GetString_setFullPayload c key segments :
  GetString (setFullPayload c key segments) key = GetString c key.
Proof.
  unfold setFullPayload. destruct (fullPayloadKeyFor key) as [fk|] eqn:E; [|done].
  apply GetString_insert_ne. by apply fullPayloadKeyFor_ne.
Qed.


(** The full payload list as [appendFullPayloadSegment] reads it: a
    [[]string] as it is, a [string] as its only segment, anything else (or
    nothing) as the empty list. *)
Definition segmentsOf (c : Context) (fullKey : ContextKey) : list gostring :=
  match c !! fullKey with
  | Some (VStrings payload) => payload
  | Some (VString payload) => [payload]
  | _ => []
  end.

Lemma segmentsOf_appendFullPayloadSegment c key fk segment :
  fullPayloadKeyFor key = Some fk -> segment <> [] ->
  segmentsOf (appendFullPayloadSegment c key segment) fk = segmentsOf c fk ++ [segment].
Proof.
  intros Hk Hs. unfold appendFullPayloadSegment, segmentsOf.
  case_decide; [done|]. rewrite Hk.
  destruct (c !! fk) as [[]|]; by rewrite lookup_insert_eq.
Qed.

Lemma segmentsOf_insert_ne (c : Context) k fk v :
  k <> fk -> segmentsOf (<[k := v]> c) fk = segmentsOf c fk.
Proof. intros H. unfold segmentsOf. by rewrite lookup_insert_ne. Qed.

Lemma GetFullPayloadString_segmentsOf c fk :
  (c !! fk = None \/ exists p, c !! fk = Some (VStrings p)) ->
  GetFullPayloadString c fk = Join (segmentsOf c fk).
Proof.
  unfold GetFullPayloadString, segmentsOf. by intros [->|[p ->]].
Qed.

(** *** The truncation suffix *)

Definition marker : gostring := lit "[truncated".

Lemma truncatedSuffix_shape n :
  exists m, truncatedSuffix n = lit "… " ++ marker ++ lit " " ++ itoa m ++ lit " chars]"
            /\ 0 <= m.
Proof.
  unfold truncatedSuffix. case_decide; [exists 0|exists n]; (split; [done|lia]).
Qed.

Lemma Contains_truncatedSuffix kept n :
  Contains (kept ++ truncatedSuffix n) marker = true.
Proof.
  destruct (truncatedSuffix_shape n) as (m & -> & _).
  rewrite (app_assoc kept). apply Contains_middle.
Qed.


Lemma truncatedSuffix_nonempty n : truncatedSuffix n <> [].
Proof. by destruct (truncatedSuffix_shape n) as (m & -> & _). Qed.

(** *** What a capture leaves in the preview slot *)

(** [preview] is the cut form of a payload whose code points are [rs]: the
    first 2048 of them, then the suffix that counts the others. *)
Definition cutPreview (preview : gostring) (rs : list Z) : Prop :=
  (maxLogPayloadRunes < length rs)%nat /\
  exists kept,
    preview = kept ++ truncatedSuffix (Z.of_nat (length rs) - Z.of_nat maxLogPayloadRunes)
    /\ runes kept = take maxLogPayloadRunes rs.


Lemma cutPreview_marker preview rs :
  cutPreview preview rs -> Contains preview marker = true /\ preview <> [].
Proof.
  intros (_ & kept & -> & _). split; [apply Contains_truncatedSuffix|].
  pose proof (truncatedSuffix_nonempty
    (Z.of_nat (length rs) - Z.of_nat maxLogPayloadRunes)).
  by destruct kept.
Qed.

Lemma applyLogLimit_fits value :
  (runeCount value <= maxLogPayloadRunes)%nat -> applyLogLimit value = value.
Proof. intros H. unfold applyLogLimit. by case_decide. Qed.

Lemma applyLogLimit_cuts value :
  (maxLogPayloadRunes < runeCount value)%nat ->
  cutPreview (applyLogLimit value) (runes value).
Proof.
  intros H. unfold applyLogLimit. case_decide; [unfold runeCount in H; lia|].
  split; [done|]. eexists. split; [done|].
  rewrite <- (app_nil_r (encodeRunes _)), runes_encodeRunes_take.
  apply app_nil_r.
Qed.

(** *** One streaming chunk *)

(** A chunk that [AppendPayloadChunkForLog] drops after trimming. *)
Definition dropped (chunk : gostring) : Prop :=
  TrimSpace chunk = [] \/ TrimSpace chunk = lit "[DONE]".

#[local] Instance dropped_dec chunk : Decision (dropped chunk).
Proof. unfold dropped. apply _. Defined.

Lemma Append_dropped c key chunk :
  dropped chunk -> AppendPayloadChunkForLog c key chunk = c.
Proof. intros H. unfold AppendPayloadChunkForLog. by case_decide. Qed.






(** The full payload: every chunk that is not dropped is one more segment. *)
Lemma appendFullPayloadSegment_slot c key fk segment :
  fullPayloadKeyFor key = Some fk -> segment <> [] ->
  appendFullPayloadSegment c key segment !! fk
  = Some (VStrings (segmentsOf c fk ++ [segment])).
Proof.
  intros Hk Hs. unfold appendFullPayloadSegment, segmentsOf.
  case_decide; [done|]. rewrite Hk.
  destruct (c !! fk) as [[]|]; by rewrite lookup_insert_eq.
Qed.

Lemma Append_slot c key fk chunk :
  fullPayloadKeyFor key = Some fk -> ~ dropped chunk ->
  AppendPayloadChunkForLog c key chunk !! fk
  = Some (VStrings (segmentsOf c fk ++ [TrimSpace chunk])).
Proof.
  intros Hk Hd. pose proof (fullPayloadKeyFor_ne _ _ Hk) as Hne.
  assert (TrimSpace chunk <> []) as Hs by (unfold dropped in Hd; tauto).
  unfold AppendPayloadChunkForLog. case_decide; [done|].
  repeat case_match;
    rewrite (appendFullPayloadSegment_slot _ _ fk) by done;
    rewrite ?segmentsOf_insert_ne by done; done.
Qed.

Lemma Append_segments c key fk chunk :
  fullPayloadKeyFor key = Some fk -> ~ dropped chunk ->
  segmentsOf (AppendPayloadChunkForLog c key chunk) fk
  = segmentsOf c fk ++ [TrimSpace chunk].
Proof.
  intros Hk Hd. unfold segmentsOf at 1. by rewrite (Append_slot _ _ fk).
Qed.



(** *** A streaming sequence *)

(** The segments a sequence of chunks contributes: trimmed, without the
    empty ones and the sentinel. *)
Definition keptSegments (chunks : list gostring) : list gostring :=
  filter (fun ch => ~ (ch = [] \/ ch = lit "[DONE]")) (map TrimSpace chunks).

Lemma keptSegments_app chunks1 chunks2 :
  keptSegments (chunks1 ++ chunks2) = keptSegments chunks1 ++ keptSegments chunks2.
Proof. unfold keptSegments. by rewrite map_app, filter_app. Qed.

Lemma keptSegments_cons_dropped chunk chunks :
  dropped chunk -> keptSegments (chunk :: chunks) = keptSegments chunks.
Proof. intros H. unfold keptSegments. simpl. by rewrite filter_cons_False by tauto. Qed.

Lemma keptSegments_cons_kept chunk chunks :
  ~ dropped chunk ->
  keptSegments (chunk :: chunks) = TrimSpace chunk :: keptSegments chunks.
Proof. intros H. unfold keptSegments. simpl. by rewrite filter_cons_True. Qed.

(** The first [j] segments of a stream were added whole: when each of them
    arrived, the preview, which held the segments before it, did not hold
    the marker ["[truncated"] and had room for it. *)
Definition addedWhole (segs : list gostring) (j : nat) : Prop :=
  forall i ch, (i < j)%nat -> segs !! i = Some ch ->
    Contains (Join (take i segs)) marker = false /\
    (runeCount (Join (take i segs)) + runeCount ch <= maxLogPayloadRunes)%nat.




Lemma addedWhole_le segs j j' :
  (j' <= j)%nat -> addedWhole segs j -> addedWhole segs j'.
Proof. intros Hle Hwhole i ch Hi. apply Hwhole. lia. Qed.











Lemma applyLogLimit_nonempty value : value <> [] -> applyLogLimit value <> [].
Proof.
  intros Hv. destruct (decide (runeCount value <= maxLogPayloadRunes)%nat).
  - by rewrite applyLogLimit_fits.
  - eapply cutPreview_marker, applyLogLimit_cuts. lia.
Qed.

(** *** Buffered captures *)




Definition binaryNotice (data : gostring) : gostring :=
  lit "[binary payload omitted: " ++ itoa (Z.of_nat (length data)) ++ lit " bytes]".

Lemma formatPayloadForLog_cases data :
  formatPayloadForLog data =
  if isBinaryPayload data then binaryNotice data else applyLogLimit data.
Proof.
  unfold formatPayloadForLog, isBinaryPayload.
  case_decide as Hl; [|done].
  apply length_zero_iff_nil in Hl as ->.
  by rewrite applyLogLimit_fits by (unfold runeCount; simpl; lia).
Qed.


Lemma setFullPayload_read c key fk segments :
  fullPayloadKeyFor key = Some fk ->
  GetFullPayloadString (setFullPayload c key segments) fk = Join segments.
Proof.
  intros Hk. unfold setFullPayload, GetFullPayloadString.
  by rewrite Hk, lookup_insert_eq.
Qed.

Lemma appendChunks_full chunks : forall c key fk,
  fullPayloadKeyFor key = Some fk ->
  (c !! fk = None \/ exists p, c !! fk = Some (VStrings p)) ->
  GetFullPayloadString (appendChunks c key chunks) fk
  = Join (segmentsOf c fk ++ keptSegments chunks).
Proof.
  induction chunks as [|chunk chunks IH]; intros c key fk Hk Hslot.
  - rewrite app_nil_r. by apply GetFullPayloadString_segmentsOf.
  - unfold appendChunks. cbn [fold_left].
    fold (appendChunks (AppendPayloadChunkForLog c key chunk) key chunks).
    destruct (decide (dropped chunk)) as [Hd|Hd].
    + rewrite Append_dropped, keptSegments_cons_dropped by done. by apply IH.
    + rewrite keptSegments_cons_kept, (IH _ _ fk) by
        (done || (right; eexists; by apply Append_slot)).
      by rewrite (Append_segments _ _ fk), <- app_assoc by done.
Qed.

(** *** The claims *)









(** The full payload of a stream as the specification words it: the event
    strings, without the sentinel, joined in arrival order. *)
Definition fullPayloadAsStated (chunks : list gostring) : gostring :=
  Join (filter (fun ch => ch <> lit "[DONE]") chunks).

(** C7, counterexample. Two events with white space around them: the full
    payload holds them trimmed, so it is not the concatenation of the event
    strings. *)
Lemma full_payload_is_trimmed :
  let chunks := [lit "event-a "; lit " event-b"] in
  let c := appendChunks ∅ ContextKeyLoggedResponseBody chunks in
  GetFullPayloadString c ContextKeyLoggedResponseBodyFull = lit "event-aevent-b"
  /\ fullPayloadAsStated chunks = lit "event-a  event-b"
  /\ GetFullPayloadString c ContextKeyLoggedResponseBodyFull
     <> fullPayloadAsStated chunks.
Proof. cbv zeta. split; [by vm_compute|]. split; by vm_compute. Qed.

(** C7 (amended). Reading the full payload slot gives back what was
    captured: after a buffered capture of a non-empty payload that is not
    binary, the payload byte for byte; after a streaming sequence into an
    empty slot, the events joined in arrival order, each trimmed of
    surrounding white space, without those that are empty or ["[DONE]"]
    after trimming. *)
Theorem full_payload_exact :
  (forall c key fk data,
     fullPayloadKeyFor key = Some fk -> data <> [] -> isBinaryPayload data = false ->
     GetFullPayloadString (CapturePayloadForLog c key data).1 fk = data) /\
  (forall c key fk value,
     fullPayloadKeyFor key = Some fk -> value <> [] ->
     GetFullPayloadString (CapturePayloadStringForLog c key value).1 fk = value) /\
  (forall c key fk chunks,
     fullPayloadKeyFor key = Some fk -> c !! fk = None ->
     GetFullPayloadString (appendChunks c key chunks) fk
     = Join (keptSegments chunks)).
Proof.
  split; [|split].
  - intros c key fk data Hk Hd Hbin. unfold CapturePayloadForLog. cbn [fst].
    rewrite Hbin, bool_decide_eq_true_2 by (destruct data; [done|simpl; lia]).
    cbn [negb andb]. rewrite (setFullPayload_read _ _ fk) by done.
    apply app_nil_r.
  - intros c key fk value Hk Hv. unfold CapturePayloadStringForLog.
    case_decide; [done|]. cbn [fst].
    rewrite (setFullPayload_read _ _ fk) by done. apply app_nil_r.
  - intros c key fk chunks Hk Hnone.
    rewrite (appendChunks_full _ _ _ fk) by (done || by left).
    unfold segmentsOf. by rewrite Hnone.
Qed.

(** An instance of C7: three events and the sentinel. *)
Lemma full_payload_exact_witness :
  GetFullPayloadString
    (appendChunks ∅ ContextKeyLoggedResponseBody
       [lit "event-a"; lit "event-b"; lit "event-c"; lit "[DONE]"])
    ContextKeyLoggedResponseBodyFull
  = lit "event-aevent-bevent-c".
Proof.
  destruct full_payload_exact as (_ & _ & H).
  by rewrite (H ∅ ContextKeyLoggedResponseBody ContextKeyLoggedResponseBodyFull).
Defined.

End PayloadCaptureSpec.

(** ** Retention sweep *)

Module LogRetentionSpec.
Import LogRetention.

Section Sweep.

Context {LogDetail LogRecord : Type}.
Variable CreatedAt : LogDetail -> Z.
Variable AddDate : Z -> Z -> Z.

Abbreviation expired := (LogRetention.expired CreatedAt).
Abbreviation older := (fun a b : LogDetail => CreatedAt a <= CreatedAt b).
Abbreviation stale := (LogRetention.stale CreatedAt).
Abbreviation fresh := (LogRetention.fresh CreatedAt).
Abbreviation cutoffOf := (LogRetention.cutoffOf AddDate).

Lemma oldestExpired_None cutoff rows :
  oldestExpired CreatedAt cutoff rows = None ->
  Forall (fun r => expired cutoff r = false) rows.
Proof.
  induction rows as [|row rows IH]; simpl; [constructor|].
  destruct (expired cutoff row) eqn:E.
  - destruct (oldestExpired CreatedAt cutoff rows); discriminate.
  - intros H. constructor; auto.
Qed.

Lemma oldestExpired_Some cutoff rows t :
  oldestExpired CreatedAt cutoff rows = Some t ->
  t < cutoff /\ (exists row, row ∈ rows /\ CreatedAt row = t) /\
  Forall (fun r => expired cutoff r = true -> t <= CreatedAt r) rows.
Proof.
  revert t. induction rows as [|row rows IH]; simpl; [done|]. intros t.
  destruct (expired cutoff row) eqn:E.
  - destruct (oldestExpired CreatedAt cutoff rows) as [t'|] eqn:Ho.
    + intros [= <-]. destruct (IH t' eq_refl) as (Hlt & (r & Hr & Hrt) & Hall).
      unfold LogRetention.expired in E. split; [lia|]. split.
      * destruct (Z.min_spec (CreatedAt row) t') as [[_ ->]|[_ ->]].
        -- exists row. split; [left|done].
        -- exists r. split; [by right|done].
      * constructor; [lia|]. eapply Forall_impl; [exact Hall|].
        simpl. intros x Hx Hex. specialize (Hx Hex). lia.
    + intros [= <-]. unfold LogRetention.expired in E. split; [lia|]. split.
      * exists row. split; [left|done].
      * constructor; [lia|]. apply oldestExpired_None in Ho.
        eapply Forall_impl; [exact Ho|]. simpl. congruence.
  - intros Ho. destruct (IH t Ho) as (Hlt & (r & Hr & Hrt) & Hall).
    split; [done|]. split; [exists r; split; [by right|done]|].
    constructor; [congruence|done].
Qed.

Lemma removeCreatedAt_Some t rows victim rest :
  removeCreatedAt CreatedAt t rows = Some (victim, rest) ->
  CreatedAt victim = t /\ rows ≡ₚ victim :: rest /\ rest `sublist_of` rows.
Proof.
  revert rest. induction rows as [|row rows IH]; simpl; [done|]. intros rest.
  destruct (CreatedAt row =? t) eqn:E.
  - intros [= <- <-]. split; [lia|]. split; [done|]. by apply sublist_cons.
  - destruct (removeCreatedAt CreatedAt t rows) as [[v r]|]; [|done].
    intros [= <- <-]. destruct (IH r eq_refl) as (Hv & Hp & Hs).
    split; [done|]. split.
    + rewrite Hp. apply Permutation_swap.
    + by apply sublist_skip.
Qed.

Lemma removeCreatedAt_is_Some t rows row :
  row ∈ rows -> CreatedAt row = t ->
  is_Some (removeCreatedAt CreatedAt t rows).
Proof.
  intros Hin Ht. induction Hin as [row rows|row r rows Hin IH]; simpl.
  - rewrite (proj2 (Z.eqb_eq _ _) Ht). eauto.
  - destruct (CreatedAt r =? t); [eauto|].
    destruct (IH Ht) as [[v rest] ->]. eauto.
Qed.

(** What one ordered batch does. *)
Lemma deleteOldest_spec limit : forall cutoff rows deleted rest,
  deleteOldest CreatedAt limit cutoff rows = (deleted, rest) ->
  (length deleted <= limit)%nat /\
  rows ≡ₚ deleted ++ rest /\
  rest `sublist_of` rows /\
  Forall (fun r => expired cutoff r = true) deleted /\
  StronglySorted older deleted /\
  Forall (fun v => Forall (fun r => expired cutoff r = true -> older v r) rest) deleted /\
  ((length deleted < limit)%nat -> Forall (fun r => expired cutoff r = false) rest).
Proof.
  induction limit as [|limit IH]; intros cutoff rows deleted rest; simpl.
  { intros [= <- <-]. repeat split; try constructor; try done. lia. }
  destruct (oldestExpired CreatedAt cutoff rows) as [t|] eqn:Ho.
  2:{ intros [= <- <-]. apply oldestExpired_None in Ho.
      repeat split; try constructor; try done. simpl; lia. }
  destruct (oldestExpired_Some _ _ _ Ho) as (Hlt & (r0 & Hr0 & Hr0t) & Hmin).
  destruct (removeCreatedAt_is_Some t rows r0 Hr0 Hr0t) as [[victim rest0] Hrm].
  rewrite Hrm. destruct (removeCreatedAt_Some _ _ _ _ Hrm) as (Hv & Hperm & Hsub).
  destruct (deleteOldest CreatedAt limit cutoff rest0) as [victims rest'] eqn:Hd.
  intros [= <- <-].
  destruct (IH _ _ _ _ Hd) as (Hlen & Hp' & Hs' & Hexp & Hsorted & Holdest & Hdone).
  assert (Forall (fun r => expired cutoff r = true -> t <= CreatedAt r) rest0) as Hmin0.
  { eapply Forall_forall. intros x Hx. rewrite Forall_forall in Hmin.
    apply Hmin. rewrite Hperm. by right. }
  assert (Forall (fun r => expired cutoff r = true -> t <= CreatedAt r)
                 (victims ++ rest')) as Hmin1.
  { rewrite Forall_forall in Hmin0 |- *. intros x Hx. apply Hmin0.
    by rewrite Hp'. }
  apply Forall_app in Hmin1 as [Hminv Hminr].
  split; [simpl; lia|]. split; [by rewrite Hperm, Hp'|].
  split; [by etrans|].
  split; [constructor; [unfold LogRetention.expired; lia|done]|].
  split.
  { constructor; [done|]. rewrite Forall_forall in Hminv, Hexp |- *.
    intros x Hx. specialize (Hminv x Hx (Hexp x Hx)). lia. }
  split.
  { constructor; [|done]. eapply Forall_impl; [exact Hminr|].
    simpl. intros x Hx Hex. specialize (Hx Hex). lia. }
  intros Hl. apply Hdone. simpl in Hl. lia.
Qed.

(** What one batch without an order does. *)
Lemma deleteAny_spec cutoff rows : forall limit deleted rest,
  deleteAny CreatedAt limit cutoff rows = (deleted, rest) ->
  (length deleted <= limit)%nat /\
  rows ≡ₚ deleted ++ rest /\
  rest `sublist_of` rows /\
  Forall (fun r => expired cutoff r = true) deleted /\
  ((length deleted < limit)%nat -> Forall (fun r => expired cutoff r = false) rest).
Proof.
  induction rows as [|row rows IH]; intros limit deleted rest; simpl.
  { intros [= <- <-]. repeat split; try constructor; simpl; lia. }
  destruct limit as [|limit].
  { intros [= <- <-]. repeat split; try constructor; simpl; try done; lia. }
  destruct (expired cutoff row) eqn:E.
  - destruct (deleteAny CreatedAt limit cutoff rows) as [vs r] eqn:Hd.
    intros [= <- <-]. destruct (IH _ _ _ Hd) as (Hl & Hp & Hs & He & Hdone).
    split; [simpl; lia|]. split; [simpl; by rewrite Hp|].
    split; [by apply sublist_cons|]. split; [by constructor|].
    intros Hlt. apply Hdone. simpl in Hlt. lia.
  - destruct (deleteAny CreatedAt (S limit) cutoff rows) as [vs r] eqn:Hd.
    intros [= <- <-]. destruct (IH _ _ _ Hd) as (Hl & Hp & Hs & He & Hdone).
    split; [done|]. split; [by rewrite Hp, Permutation_middle|].
    split; [by apply sublist_skip|]. split; [done|].
    intros Hlt. constructor; auto.
Qed.

(** *** A statement without ORDER BY and LIMIT *)

Lemma stale_expired cutoff rows :
  Forall (fun r => expired cutoff r = true) (stale cutoff rows).
Proof.
  apply Forall_forall. intros r [Hr _]%list_elem_of_filter.
  unfold LogRetention.expired. lia.
Qed.

Lemma fresh_not_expired cutoff rows :
  Forall (fun r => expired cutoff r = false) (fresh cutoff rows).
Proof.
  apply Forall_forall. intros r [Hr _]%list_elem_of_filter.
  unfold LogRetention.expired. lia.
Qed.

Lemma stale_fresh_Permutation cutoff rows :
  rows ≡ₚ stale cutoff rows ++ fresh cutoff rows.
Proof.
  unfold LogRetention.stale, LogRetention.fresh.
  rewrite <- (filter_app_complement (fun r => CreatedAt r < cutoff) rows) at 1.
  f_equiv. apply reflexive_eq, list_filter_iff. intros r. lia.
Qed.

Lemma fresh_sublist cutoff rows : fresh cutoff rows `sublist_of` rows.
Proof. apply sublist_filter. Qed.

Lemma filter_all {A} (P : A -> Prop) `{!forall x, Decision (P x)} (l : list A) :
  Forall P l -> filter P l = l.
Proof.
  induction 1 as [|x l Hx _ IH]; [done|]. by rewrite filter_cons_True, IH.
Qed.

Lemma filter_nothing {A} (P : A -> Prop) `{!forall x, Decision (P x)} (l : list A) :
  Forall (fun x => ~ P x) l -> filter P l = [].
Proof.
  induction 1 as [|x l Hx _ IH]; [done|]. by rewrite filter_cons_False.
Qed.

Lemma fresh_fresh cutoff rows : fresh cutoff (fresh cutoff rows) = fresh cutoff rows.
Proof.
  apply filter_all, Forall_forall. by intros r [Hr _]%list_elem_of_filter.
Qed.

Lemma stale_fresh cutoff rows : stale cutoff (fresh cutoff rows) = [].
Proof.
  apply filter_nothing, Forall_forall. intros r [Hr _]%list_elem_of_filter. lia.
Qed.

(** What the statement of either revision does, whatever the dialect: it
    deletes matching rows only, and when it deletes fewer than the limit no
    matching row is left. *)
Lemma orderedDelete_spec dialect limit cutoff rows deleted rest :
  orderedDelete CreatedAt dialect limit cutoff rows = (deleted, rest) ->
  rows ≡ₚ deleted ++ rest /\
  rest `sublist_of` rows /\
  Forall (fun r => expired cutoff r = true) deleted /\
  ((length deleted < limit)%nat -> Forall (fun r => expired cutoff r = false) rest).
Proof.
  destruct dialect; cbn [orderedDelete].
  - intros (_ & Hperm & Hsub & Hexp & _ & _ & Hdone)%deleteOldest_spec. done.
  - intros [= <- <-]. split; [apply stale_fresh_Permutation|].
    split; [apply fresh_sublist|]. split; [apply stale_expired|].
    intros _. apply fresh_not_expired.
  - intros [= <- <-]. split; [apply stale_fresh_Permutation|].
    split; [apply fresh_sublist|]. split; [apply stale_expired|].
    intros _. apply fresh_not_expired.
Qed.

Lemma limitedDelete_spec dialect limit cutoff rows deleted rest :
  limitedDelete CreatedAt dialect limit cutoff rows = (deleted, rest) ->
  rows ≡ₚ deleted ++ rest /\
  rest `sublist_of` rows /\
  Forall (fun r => expired cutoff r = true) deleted /\
  ((length deleted < limit)%nat -> Forall (fun r => expired cutoff r = false) rest).
Proof.
  destruct dialect; cbn [limitedDelete].
  - intros (_ & Hperm & Hsub & Hexp & Hdone)%deleteAny_spec. done.
  - intros [= <- <-]. split; [apply stale_fresh_Permutation|].
    split; [apply fresh_sublist|]. split; [apply stale_expired|].
    intros _. apply fresh_not_expired.
  - intros [= <- <-]. split; [apply stale_fresh_Permutation|].
    split; [apply fresh_sublist|]. split; [apply stale_expired|].
    intros _. apply fresh_not_expired.
Qed.

(** The rows that the statements of a trace deleted, in order. *)
Fixpoint deletedRows (trace : list (event LogDetail)) : list LogDetail :=
  match trace with
  | [] => []
  | EvDelete deleted :: trace' => deleted ++ deletedRows trace'
  | _ :: trace' => deletedRows trace'
  end.

Lemma deletedRows_app tr1 tr2 :
  deletedRows (tr1 ++ tr2) = deletedRows tr1 ++ deletedRows tr2.
Proof.
  induction tr1 as [|[] tr1 IH]; simpl; rewrite ?IH, ?app_assoc; done.
Qed.

(** *** The loop on MySQL *)

(** The statements of a sweep on MySQL: full batches, each followed by a
    pause of 100 ms, and then the end: a batch that is not full, a cancelled
    context or a failed statement. *)
Definition pacedExactly (trace : list (event LogDetail)) : Prop :=
  exists fullBatches final,
    trace = flat_map (fun d => [EvDelete d; EvSleep 100]) fullBatches ++ final /\
    Forall (fun d => length d = logDetailCleanupBatchSize) fullBatches /\
    ((exists d, final = [EvDelete d] /\ (length d < logDetailCleanupBatchSize)%nat)
     \/ final = [EvLogError]
     \/ final = [EvDeleteFailed; EvLogError]).

(** The sweep left nothing undone: no cancellation, no failed statement. *)
Definition undisturbed (env : nat -> tick) : Prop := forall i, env i = Run.

Definition orderedResult (cutoff : Z) (env : nat -> tick)
    (rows : list LogDetail) (tr : list (event LogDetail)) (rows' : list LogDetail)
    : Prop :=
  pacedExactly tr /\
  rows ≡ₚ deletedRows tr ++ rows' /\
  rows' `sublist_of` rows /\
  Forall (fun r => expired cutoff r = true) (deletedRows tr) /\
  StronglySorted older (deletedRows tr) /\
  Forall (fun v => Forall (fun r => expired cutoff r = true -> older v r) rows')
         (deletedRows tr) /\
  (undisturbed env -> Forall (fun r => expired cutoff r = false) rows').

Lemma pruneLoop_ordered env cutoff fuel : forall i rows total trace,
  (length rows < fuel)%nat ->
  exists rows' tr,
    pruneLoop CreatedAt MySQL fuel env cutoff i rows total trace
    = Some (rows', (total + length (deletedRows tr))%nat, trace ++ tr)
    /\ orderedResult cutoff env rows tr rows'.
Proof.
  induction fuel as [|fuel IH]; intros i rows total trace Hfuel; [lia|].
  cbn [pruneLoop orderedDelete]. destruct (env i) eqn:Hi.
  3:{ exists rows, [EvDeleteFailed; EvLogError]. simpl. rewrite Nat.add_0_r.
      split; [done|]. split; [exists [], [EvDeleteFailed; EvLogError]; simpl; eauto 6|].
      repeat split; try constructor; try done.
      intros Hu. rewrite Hu in Hi. done. }
  2:{ exists rows, [EvLogError]. simpl. rewrite Nat.add_0_r.
      split; [done|]. split; [exists [], [EvLogError]; simpl; eauto 6|].
      repeat split; try constructor; try done.
      intros Hu. rewrite Hu in Hi. done. }
  destruct (deleteOldest CreatedAt logDetailCleanupBatchSize cutoff rows)
    as [deleted rows1] eqn:Hd.
  destruct (deleteOldest_spec _ _ _ _ _ Hd)
    as (Hlen & Hperm & Hsub & Hexp & Hsorted & Holdest & Hdone).
  assert (deletedRows [EvDelete deleted] = deleted) as Hdr
    by (simpl; apply app_nil_r).
  assert (last_batch :
    (length deleted < logDetailCleanupBatchSize)%nat ->
    orderedResult cutoff env rows [EvDelete deleted] rows1).
  { intros Hlt. unfold orderedResult. rewrite Hdr.
    split; [exists [], [EvDelete deleted]; simpl; eauto 6|].
    repeat split; auto. }
  case_decide as Hz.
  { exists rows1, [EvDelete deleted]. rewrite Hdr, Hz, Nat.add_0_r.
    split; [done|]. apply last_batch. rewrite Hz. unfold logDetailCleanupBatchSize. lia. }
  case_decide as Hlt.
  { exists rows1, [EvDelete deleted]. rewrite Hdr.
    split; [done|]. by apply last_batch. }
  assert (length rows = (length deleted + length rows1)%nat) as Hcount
    by (by rewrite Hperm, length_app).
  destruct (IH (S i) rows1 (total + length deleted)%nat
              ((trace ++ [EvDelete deleted]) ++ [EvSleep 100]))
    as (rows' & tr & -> & Hres); [lia|].
  destruct Hres as (Hpaced & Hperm' & Hsub' & Hexp' & Hsorted' & Holdest' & Hdone').
  exists rows', ([EvDelete deleted; EvSleep 100] ++ tr).
  split.
  { f_equal. f_equal; [f_equal|].
    - cbn [app deletedRows]. rewrite length_app. lia.
    - by rewrite <- !app_assoc. }
  unfold orderedResult.
  assert (deletedRows ([EvDelete deleted; EvSleep 100] ++ tr)
          = deleted ++ deletedRows tr) as -> by done.
  split.
  { destruct Hpaced as (fulls & final & -> & Hfull & Hfinal).
    exists (deleted :: fulls), final. simpl. split; [done|].
    split; [constructor; [lia|done]|done]. }
  split; [by rewrite Hperm, Hperm', app_assoc|].
  split; [by etrans|].
  split; [by apply Forall_app|].
  split.
  { apply StronglySorted_app. split; [|done].
    intros x1 x2 Hx1 Hx2.
    rewrite Forall_forall in Holdest. specialize (Holdest x1 Hx1).
    rewrite Forall_forall in Holdest. apply Holdest.
    - rewrite Hperm'. apply elem_of_app. by left.
    - rewrite Forall_forall in Hexp'. by apply Hexp'. }
  split; [|done].
  apply Forall_app. split; [|done].
  eapply Forall_impl; [exact Holdest|]. simpl. intros v Hv.
  rewrite Forall_forall in Hv |- *. intros r Hr. apply Hv.
  by eapply elem_of_sublist.
Qed.

(** *** The sweep, whatever the dialect *)

(** The statements of a sweep: statements that deleted 5000 rows or more,
    each followed by a pause of 100 ms, and then the end: a statement that
    deleted fewer, a cancelled context or a failed statement. *)
Definition paced (trace : list (event LogDetail)) : Prop :=
  exists fullBatches final,
    trace = flat_map (fun d => [EvDelete d; EvSleep 100]) fullBatches ++ final /\
    Forall (fun d => (logDetailCleanupBatchSize <= length d)%nat) fullBatches /\
    ((exists d, final = [EvDelete d] /\ (length d < logDetailCleanupBatchSize)%nat)
     \/ final = [EvLogError]
     \/ final = [EvDeleteFailed; EvLogError]).

(** No statement deleted more than 5000 rows. *)
Definition batched (trace : list (event LogDetail)) : Prop :=
  Forall (fun e => match e with
                   | EvDelete d => (length d <= logDetailCleanupBatchSize)%nat
                   | _ => True
                   end) trace.

(** What a sweep with this cutoff leaves: the statements [tr] and the table
    [rows']. Only rows older than the cutoff are deleted, the others stay in
    their order, and a sweep that nothing disturbs leaves no row older than
    the cutoff. On MySQL a statement deletes at most 5000 rows and the rows
    go oldest first. On PostgreSQL and SQLite the first statement deletes
    every row older than the cutoff. *)
Definition sweepResult (dialect : Dialect) (cutoff : Z) (env : nat -> tick)
    (rows : list LogDetail) (tr : list (event LogDetail)) (rows' : list LogDetail)
    : Prop :=
  paced tr /\
  rows ≡ₚ deletedRows tr ++ rows' /\
  rows' `sublist_of` rows /\
  Forall (fun r => expired cutoff r = true) (deletedRows tr) /\
  (undisturbed env -> Forall (fun r => expired cutoff r = false) rows') /\
  (dialect = MySQL ->
   batched tr /\
   StronglySorted older (deletedRows tr) /\
   Forall (fun v => Forall (fun r => expired cutoff r = true -> older v r) rows')
          (deletedRows tr)) /\
  (dialect <> MySQL ->
   forall d tr', tr = EvDelete d :: tr' ->
     d = stale cutoff rows /\ rows' = fresh cutoff rows).

Lemma pacedExactly_paced tr : pacedExactly tr -> paced tr /\ batched tr.
Proof.
  intros (fulls & final & -> & Hfull & Hfinal). split.
  - exists fulls, final. split; [done|]. split; [|done].
    eapply Forall_impl; [exact Hfull|]. simpl. intros d ->. done.
  - apply Forall_app. split.
    + clear Hfinal. induction Hfull as [|d fulls Hd _ IH]; [constructor|].
      cbn [flat_map app]. constructor; [lia|]. by constructor.
    + destruct Hfinal as [(d & -> & Hd)|[ -> | -> ]].
      * apply Forall_cons_2; [lia|constructor].
      * by apply Forall_cons_2.
      * by repeat apply Forall_cons_2.
Qed.

Lemma orderedDelete_unordered dialect limit cutoff rows :
  dialect <> MySQL ->
  orderedDelete CreatedAt dialect limit cutoff rows
  = (stale cutoff rows, fresh cutoff rows).
Proof. by destruct dialect. Qed.

Lemma limitedDelete_unordered dialect limit cutoff rows :
  dialect <> MySQL ->
  limitedDelete CreatedAt dialect limit cutoff rows
  = (stale cutoff rows, fresh cutoff rows).
Proof. by destruct dialect. Qed.

(** A sweep that ends before its first statement succeeds. *)
Lemma sweepResult_stopped dialect cutoff env rows i final :
  env i <> Run -> final = [EvLogError] \/ final = [EvDeleteFailed; EvLogError] ->
  sweepResult dialect cutoff env rows final rows.
Proof.
  intros Hi Hfinal.
  assert (deletedRows final = []) as Hnone by (by destruct Hfinal as [ -> | -> ]).
  unfold sweepResult. rewrite Hnone.
  split; [exists [], final; by eauto 6|].
  split; [done|]. split; [done|]. split; [constructor|].
  split; [intros Hu; by specialize (Hu i)|].
  split.
  - intros _. split; [|split; constructor].
    destruct Hfinal as [ -> | -> ]; by repeat constructor.
  - intros _ d tr' ->. by destruct Hfinal.
Qed.

(** A sweep whose first statement has no ORDER BY and no LIMIT: what
    follows deletes nothing. *)
Lemma sweepResult_unordered dialect cutoff env rows tail :
  dialect <> MySQL -> deletedRows tail = [] ->
  paced (EvDelete (stale cutoff rows) :: tail) ->
  sweepResult dialect cutoff env rows (EvDelete (stale cutoff rows) :: tail)
              (fresh cutoff rows).
Proof.
  intros Hd Htail Hpaced. unfold sweepResult. cbn [deletedRows].
  rewrite Htail, app_nil_r.
  split; [done|]. split; [apply stale_fresh_Permutation|].
  split; [apply fresh_sublist|]. split; [apply stale_expired|].
  split; [intros _; apply fresh_not_expired|].
  split; [done|]. by intros _ d tr' [= <- <-].
Qed.

Lemma pruneLoop_unordered dialect env cutoff fuel i rows total trace :
  dialect <> MySQL -> (length rows < fuel)%nat ->
  exists rows' tr,
    pruneLoop CreatedAt dialect fuel env cutoff i rows total trace
    = Some (rows', (total + length (deletedRows tr))%nat, trace ++ tr)
    /\ sweepResult dialect cutoff env rows tr rows'.
Proof.
  intros Hd Hfuel. destruct fuel as [|fuel]; [lia|].
  cbn [pruneLoop]. destruct (env i) eqn:Hi.
  3:{ exists rows, [EvDeleteFailed; EvLogError]. cbn [deletedRows length].
      rewrite Nat.add_0_r. split; [done|].
      apply (sweepResult_stopped _ _ _ _ i); [by rewrite Hi|by right]. }
  2:{ exists rows, [EvLogError]. cbn [deletedRows length].
      rewrite Nat.add_0_r. split; [done|].
      apply (sweepResult_stopped _ _ _ _ i); [by rewrite Hi|by left]. }
  rewrite orderedDelete_unordered by done.
  set (gone := stale cutoff rows). set (kept := fresh cutoff rows).
  assert (length gone <= length rows)%nat as Hgone by apply length_filter.
  assert (forall tail, deletedRows tail = [] ->
            length (deletedRows (EvDelete gone :: tail)) = length gone) as Hcount.
  { intros tail Htail. cbn [deletedRows]. by rewrite Htail, app_nil_r. }
  case_decide as Hz.
  { exists kept, [EvDelete gone]. rewrite Hcount, Hz, Nat.add_0_r by done.
    split; [done|]. apply sweepResult_unordered; [done..|].
    exists [], [EvDelete gone]. split; [done|]. split; [constructor|].
    left. exists gone. split; [done|]. rewrite Hz. unfold logDetailCleanupBatchSize. lia. }
  case_decide as Hlt.
  { exists kept, [EvDelete gone]. rewrite Hcount by done.
    split; [done|]. apply sweepResult_unordered; [done..|].
    exists [], [EvDelete gone]. split; [done|]. split; [constructor|].
    left. by exists gone. }
  destruct fuel as [|fuel]; [unfold logDetailCleanupBatchSize in *; lia|].
  cbn [pruneLoop]. destruct (env (S i)) eqn:Hi'.
  3:{ exists kept, [EvDelete gone; EvSleep 100; EvDeleteFailed; EvLogError].
      rewrite Hcount by done. rewrite <- !app_assoc. split; [done|].
      apply sweepResult_unordered; [done..|].
      exists [gone], [EvDeleteFailed; EvLogError]. split; [done|].
      split; [constructor; [lia|constructor]|]. by eauto. }
  2:{ exists kept, [EvDelete gone; EvSleep 100; EvLogError].
      rewrite Hcount by done. rewrite <- !app_assoc. split; [done|].
      apply sweepResult_unordered; [done..|].
      exists [gone], [EvLogError]. split; [done|].
      split; [constructor; [lia|constructor]|]. by eauto. }
  rewrite orderedDelete_unordered by done. subst gone kept.
  rewrite stale_fresh, fresh_fresh. cbn [length].
  rewrite decide_True by done.
  exists (fresh cutoff rows), [EvDelete (stale cutoff rows); EvSleep 100; EvDelete []].
  rewrite Hcount by done. rewrite <- !app_assoc. split; [done|].
  apply sweepResult_unordered; [done..|].
  exists [stale cutoff rows], [EvDelete []]. split; [done|].
  split; [constructor; [lia|constructor]|].
  left. exists []. split; [done|]. unfold logDetailCleanupBatchSize. simpl. lia.
Qed.

Lemma pruneLoop_spec dialect env cutoff fuel i rows total trace :
  (length rows < fuel)%nat ->
  exists rows' tr,
    pruneLoop CreatedAt dialect fuel env cutoff i rows total trace
    = Some (rows', (total + length (deletedRows tr))%nat, trace ++ tr)
    /\ sweepResult dialect cutoff env rows tr rows'.
Proof.
  intros Hfuel. destruct (decide (dialect = MySQL)) as [->|Hd].
  2:{ by apply pruneLoop_unordered. }
  destruct (pruneLoop_ordered env cutoff fuel i rows total trace Hfuel)
    as (rows' & tr & Hrun & Hpaced & Hperm & Hsub & Hexp & Hsorted & Holdest & Hdone).
  exists rows', tr. split; [done|].
  destruct (pacedExactly_paced tr Hpaced) as [Hp Hb].
  split; [done|]. split; [done|]. split; [done|]. split; [done|].
  split; [done|]. split; [done|]. done.
Qed.

(** *** The earlier revision *)

Definition plainResult (cutoff : Z) (env : nat -> tick)
    (rows : list LogDetail) (tr : list (event LogDetail)) (rows' : list LogDetail)
    : Prop :=
  rows ≡ₚ deletedRows tr ++ rows' /\
  rows' `sublist_of` rows /\
  Forall (fun r => expired cutoff r = true) (deletedRows tr) /\
  ((forall i, env i <> DbError) -> Forall (fun r => expired cutoff r = false) rows').

Lemma pruneLoopPlain_spec dialect env cutoff fuel : forall i rows total trace,
  (length rows < fuel)%nat ->
  exists rows' tr,
    pruneLoopPlain CreatedAt dialect fuel env cutoff i rows total trace
    = Some (rows', (total + length (deletedRows tr))%nat, trace ++ tr)
    /\ plainResult cutoff env rows tr rows'.
Proof.
  induction fuel as [|fuel IH]; intros i rows total trace Hfuel; [lia|].
  cbn [pruneLoopPlain].
  destruct (limitedDelete CreatedAt dialect logDetailCleanupBatchSize cutoff rows)
    as [deleted rows1] eqn:Hd.
  destruct (limitedDelete_spec _ _ _ _ _ _ Hd) as (Hperm & Hsub & Hexp & Hdone).
  assert (deletedRows [EvDelete deleted] = deleted) as Hdr
    by (simpl; apply app_nil_r).
  assert (env i <> DbError ->
    exists rows' tr,
      (if decide (length deleted = 0%nat)
       then Some (rows1, total, trace ++ [EvDelete deleted])
       else if decide (length deleted < logDetailCleanupBatchSize)%nat
            then Some (rows1, (total + length deleted)%nat, trace ++ [EvDelete deleted])
            else pruneLoopPlain CreatedAt dialect fuel env cutoff (S i) rows1
                   (total + length deleted)%nat (trace ++ [EvDelete deleted]))
      = Some (rows', (total + length (deletedRows tr))%nat, trace ++ tr)
      /\ plainResult cutoff env rows tr rows') as Hrun.
  { intros _. case_decide as Hz; [|case_decide as Hlt].
    - exists rows1, [EvDelete deleted]. rewrite Hdr, Hz, Nat.add_0_r.
      split; [done|]. unfold plainResult. rewrite Hdr. repeat split; auto.
      intros _. apply Hdone. rewrite Hz. unfold logDetailCleanupBatchSize. lia.
    - exists rows1, [EvDelete deleted]. rewrite Hdr.
      split; [done|]. unfold plainResult. rewrite Hdr. repeat split; auto.
    - assert (length rows = (length deleted + length rows1)%nat) as Hcount
        by (by rewrite Hperm, length_app).
      destruct (IH (S i) rows1 (total + length deleted)%nat
                  (trace ++ [EvDelete deleted]))
        as (rows' & tr & -> & Hp' & Hs' & He' & Hd');
        [unfold logDetailCleanupBatchSize in *; lia|].
      exists rows', ([EvDelete deleted] ++ tr). split.
      { f_equal. f_equal; [f_equal|].
        - cbn [app deletedRows]. rewrite length_app. lia.
        - by rewrite <- !app_assoc. }
      unfold plainResult. cbn [app deletedRows].
      split; [by rewrite Hperm, Hp', app_assoc|].
      split; [by etrans|]. split; [by apply Forall_app|done]. }
  destruct (env i) eqn:Hi; try (by apply Hrun).
  exists rows, [EvDeleteFailed; EvLogError]. simpl. rewrite Nat.add_0_r.
  split; [done|]. repeat split; try constructor; try done.
  intros Hu. by specialize (Hu i).
Qed.

(** *** The claims *)



(** C10. With a retention period of zero or less the sweep returns at once:
    no statement is issued, no event happens and the store is the one it
    was given, in both forms of the sweep, whatever the database and the
    clock. *)
Theorem retention_disabled dialect days now env (db : Store LogDetail LogRecord) :
  days <= 0 ->
  pruneExpiredLogDetails CreatedAt AddDate dialect days now env db = Some (db, []) /\
  pruneExpiredLogDetailsPlain CreatedAt AddDate dialect days now env db = Some (db, []).
Proof.
  intros Hdays. unfold pruneExpiredLogDetails, pruneExpiredLogDetailsPlain.
  by case_decide.
Qed.

End Sweep.

(** Log details that are just their creation time, for examples. *)
Definition exampleStore : Store Z unit :=
  mkStore [100; 5; 86400; 7; 86399; 5; 200000] [(); ()].


(** An instance of C10: the same store with retention switched off. *)
Lemma retention_disabled_witness :
  0 <= 0 /\
  pruneExpiredLogDetails id AddDateUTC MySQL 0 172800 (fun _ => Run) exampleStore
  = Some (exampleStore, []).
Proof.
  split; [lia|].
  apply (retention_disabled id AddDateUTC MySQL 0 172800 (fun _ => Run) exampleStore).
  lia.
Defined.


End LogRetentionSpec.

(** ** Upstream transport *)

Module TransportSpec.
Import GoString GoStringFacts Transport.

(** *** Header hygiene *)

Lemma copyHeadersExcept_lookup (src : Header) deny name :
  copyHeadersExcept ∅ src deny !! name =
  if decide (ToLower name ∈ deny) then None else src !! name.
Proof.
  unfold copyHeadersExcept. rewrite lookup_union_with, lookup_empty.
  destruct (src !! name) as [vs|] eqn:Hs.
  - case_decide as Hd.
    + rewrite (proj2 (map_lookup_filter_None _ _ _)); [done|].
      right. intros vs' Hvs'. simpl. tauto.
    + rewrite (map_lookup_filter_Some_2 _ _ name vs); done.
  - rewrite (proj2 (map_lookup_filter_None _ _ _)) by (by left).
    by case_decide.
Qed.

Lemma elem_of_deny_set src extra k :
  k ∈ buildPassThroughHeaderDenySet src extra <->
  k ∈ passThroughDenied \/ k ∈ connectionTokens src
  \/ (k <> [] /\ k ∈ denyKey <$> extra).
Proof.
  unfold buildPassThroughHeaderDenySet.
  rewrite elem_of_list_to_set, !elem_of_app, list_elem_of_filter. tauto.
Qed.

(** The header names of the claim, as a client sends them. *)
Definition strippedNames : list gostring :=
  map lit ["Authorization"; "Cookie"; "api-key"; "x-api-key";
           "Connection"; "Keep-Alive"; "Proxy-Authenticate";
           "Proxy-Authorization"; "Te"; "Trailer"; "Transfer-Encoding";
           "Upgrade"; "Proxy-Connection"; "Host"; "Content-Length"]%string.

(** A comma-separated list, as the specification reads the value of a
    [Connection] header: fields without a comma, with a comma between
    them. *)
Definition commaFree (field : gostring) : Prop := ","%char ∉ field.

Fixpoint commaList (fields : list gostring) : gostring :=
  match fields with
  | [] => []
  | field :: fields' =>
    match fields' with
    | [] => field
    | _ :: _ => field ++ ","%char :: commaList fields'
    end
  end.

(** [name] is listed in [value]: one of the fields of the list, without
    the white space around it, is [name] up to the case of its letters. *)
Definition listedIn (value name : gostring) : Prop :=
  exists fields field,
    value = commaList fields /\ Forall commaFree fields /\ field ∈ fields /\
    TrimSpace field <> [] /\ ToLower (TrimSpace field) = ToLower name.

(** [name] is listed in one of the values of the inbound [Connection]
    header. *)
Definition namedByConnection (src : Header) (name : gostring) : Prop :=
  exists values value,
    src !! lit "Connection" = Some values /\ value ∈ values /\ listedIn value name.

Lemma Split_nonempty s sep : Split s sep <> [].
Proof.
  induction s as [|b s IH]; [done|]. cbn [Split]. case_decide; [done|].
  by destruct (Split s sep).
Qed.

Lemma Split_commaList fields :
  fields <> [] -> Forall commaFree fields ->
  Split (commaList fields) ","%char = fields.
Proof.
  intros Hne Hfree. induction Hfree as [|field fields Hfield Hfree IH]; [done|].
  clear Hne. cbn [commaList].
  assert (forall rest tail, Split rest ","%char = tail -> tail <> [] ->
            Split (field ++ rest) ","%char
            = match tail with
              | first :: others => (field ++ first) :: others
              | [] => [field]
              end) as Hfield_then.
  { intros rest tail <- Hne. unfold commaFree in Hfield. clear -Hfield Hne.
    induction field as [|b field IHf].
    { cbn [app]. destruct (Split rest ","%char); [done|reflexivity]. }
    apply not_elem_of_cons in Hfield as [Hb Hfield].
    cbn [app Split]. rewrite decide_False by done. rewrite IHf by done.
    destruct (Split rest ","%char); [done|reflexivity]. }
  destruct fields as [|next fields].
  - rewrite <- (app_nil_r field) at 1. rewrite (Hfield_then [] [[]]) by done.
    by rewrite app_nil_r.
  - rewrite (Hfield_then _ ([] :: next :: fields)); [by rewrite app_nil_r| |done].
    cbn [Split]. rewrite decide_True by done. f_equal. by apply IH.
Qed.

Lemma commaList_Split s :
  commaList (Split s ","%char) = s /\ Forall commaFree (Split s ","%char).
Proof.
  induction s as [|b s [IHs IHfree]].
  { split; [done|]. apply Forall_cons_2; [apply not_elem_of_nil|constructor]. }
  pose proof (Split_nonempty s ","%char) as Hne.
  cbn [Split]. case_decide as Hb.
  - subst b. destruct (Split s ","%char) as [|first others] eqn:E; [done|].
    split.
    { change (commaList ([] :: first :: others))
        with (","%char :: commaList (first :: others)). by rewrite IHs. }
    apply Forall_cons_2; [|done]. unfold commaFree. apply not_elem_of_nil.
  - destruct (Split s ","%char) as [|first others] eqn:E; [done|].
    apply Forall_cons in IHfree as [Hfirst Hothers]. split.
    + cbn [commaList] in IHs |- *. destruct others; by rewrite <- IHs.
    + apply Forall_cons_2; [|done]. unfold commaFree in *.
      apply not_elem_of_cons. by split.
Qed.

Lemma ToLower_nonempty s : s <> [] -> ToLower s <> [].
Proof. by destruct s. Qed.

Lemma CanonicalMIMEHeaderKey_Connection :
  CanonicalMIMEHeaderKey (lit "Connection") = lit "Connection".
Proof. by vm_compute. Qed.

(** The tokens of the model are the names the [Connection] header lists. *)
Lemma connectionTokens_listed (src : Header) name :
  ToLower name ∈ connectionTokens src <-> namedByConnection src name.
Proof.
  unfold connectionTokens, Header_Values.
  rewrite CanonicalMIMEHeaderKey_Connection, list_elem_of_filter, list_elem_of_fmap.
  split.
  - intros (Hne & token & Htoken & (value & Hin & Hvalue)%list_elem_of_bind).
    destruct (src !! lit "Connection") as [values|] eqn:Hsrc;
      [|by apply elem_of_nil in Hvalue].
    exists values, value. split; [done|]. split; [done|].
    exists (Split value ","%char), token.
    destruct (commaList_Split value) as [Hjoin Hfree].
    split; [done|]. split; [done|]. split; [done|].
    unfold denyKey in Htoken. split; [|done].
    intros Hempty. rewrite Hempty in Htoken. by rewrite Htoken in Hne.
  - intros (values & value & Hsrc & Hvalue & fields & field
            & -> & Hfree & Hfield & Hne & Hname).
    rewrite Hsrc. cbn [default]. split.
    + rewrite <- Hname. by apply ToLower_nonempty.
    + exists field. split; [done|]. apply list_elem_of_bind.
      exists (commaList fields). split; [|done].
      rewrite Split_commaList; [done| |done]. intros ->. by apply elem_of_nil in Hfield.
Qed.

Lemma passThroughDenied_names : passThroughDenied = ToLower <$> strippedNames.
Proof. by vm_compute. Qed.

(** C1. In the header map a pass-through request sends upstream, a header
    whose name is, up to the case of its letters, one of [Authorization],
    [Cookie], [api-key], [x-api-key], [Connection], [Keep-Alive],
    [Proxy-Authenticate], [Proxy-Authorization], [Te], [Trailer],
    [Transfer-Encoding], [Upgrade], [Proxy-Connection], [Host] and
    [Content-Length] is absent; so is a header whose name is, up to case and
    surrounding white space, one of the comma-separated fields of a value of
    the inbound [Connection] header; every other header is there with the
    values of the inbound header, in order. *)
Theorem pass_through_headers (src : Header) (name : gostring) :
  let dst := passThroughHeaders src in
  (ToLower name ∈ ToLower <$> strippedNames -> dst !! name = None) /\
  (namedByConnection src name -> dst !! name = None) /\
  (ToLower name ∉ ToLower <$> strippedNames -> ~ namedByConnection src name ->
   dst !! name = src !! name).
Proof.
  cbv zeta.
  assert (passThroughHeaders src !! name =
    if decide (ToLower name ∈ passThroughDenied \/ ToLower name ∈ connectionTokens src)
    then None else src !! name) as Hlookup.
  { unfold passThroughHeaders. rewrite copyHeadersExcept_lookup.
    repeat case_decide; try done; exfalso;
      match goal with H : _ |- _ => rewrite elem_of_deny_set in H end;
      simpl in *; rewrite ?fmap_nil, ?elem_of_nil in *; tauto. }
  rewrite Hlookup.
  case_decide as Hdeny; rewrite passThroughDenied_names, connectionTokens_listed in Hdeny;
    (split; [|split]); tauto.
Qed.

(** The inbound headers of [TestCopyHeadersExcept_...]. *)
Definition testHeaders : Header :=
  foldl (fun h kv => Header_Add h (lit kv.1) (lit kv.2)) ∅
    [("X-Trace-Id", "abc"); ("X-Multi", "a"); ("X-Multi", "b");
     ("Authorization", "Bearer user"); ("api-key", "user-key");
     ("x-api-key", "user-x-key"); ("Cookie", "session=abc");
     ("Upgrade", "websocket"); ("Transfer-Encoding", "chunked");
     ("Host", "example.com"); ("Content-Length", "123");
     ("Keep-Alive", "timeout=5"); ("Proxy-Authenticate", "Basic realm=proxy");
     ("Proxy-Authorization", "Basic abc"); ("Te", "trailers");
     ("Trailer", "Foo"); ("Proxy-Connection", "keep-alive");
     ("Connection", "X-Hop, keep-alive"); ("X-Hop", "1")]%string.

(** The two tests of the deny set and the copy, on the model. *)
Lemma pass_through_tests :
  passThroughHeaders testHeaders
  = {[ lit "X-Trace-Id" := [lit "abc"]; lit "X-Multi" := [lit "a"; lit "b"] ]}
  /\ Forall (fun k => k ∈ buildPassThroughHeaderDenySet
                          (Header_Add ∅ (lit "Connection") (lit " X-Hop , Foo "))
                          [lit "Sec-WebSocket-Key"; lit "Content-Type"])
            (map lit ["x-hop"; "foo"; "sec-websocket-key"; "content-type"]%string).
Proof.
  split.
  - apply (bool_decide_unpack _). by vm_compute.
  - repeat (apply Forall_cons_2 || apply Forall_nil_2);
      apply (bool_decide_unpack _); by vm_compute.
Qed.

(** An instance of C1 on the headers of the test: [X-Hop] is the first
    field of the [Connection] header and is dropped. *)
Lemma pass_through_headers_witness :
  namedByConnection testHeaders (lit "X-Hop")
  /\ testHeaders !! lit "X-Hop" = Some [lit "1"]
  /\ passThroughHeaders testHeaders !! lit "X-Hop" = None.
Proof.
  assert (namedByConnection testHeaders (lit "X-Hop")) as Hhop.
  { exists [lit "X-Hop, keep-alive"], (lit "X-Hop, keep-alive").
    split; [by vm_compute|]. split; [by left|].
    exists [lit "X-Hop"; lit " keep-alive"], (lit "X-Hop").
    split; [reflexivity|]. split.
    - repeat apply Forall_cons_2; try apply Forall_nil_2;
        apply (bool_decide_unpack _); by vm_compute.
    - split; [by left|]. split; by vm_compute. }
  split; [exact Hhop|]. split; [by vm_compute|].
  by apply (pass_through_headers testHeaders (lit "X-Hop")).
Defined.

(** *** Header overrides *)





(** *** Upstream URL *)

(** A base URL as the specification reads it: a scheme, [://], an authority
    and a path, which is empty or begins with a slash. The scheme holds no
    colon; the authority is not empty and holds no slash. *)
Definition baseOf (scheme authority path : gostring) : gostring :=
  scheme ++ lit "://" ++ authority ++ path.

Definition origin (scheme authority : gostring) : Prop :=
  (":"%char ∉ scheme) /\ authority <> [] /\ ("/"%char ∉ authority).

(** The shape of a Cloudflare AI gateway URL. *)
Definition cloudflareGateway : gostring := lit "https://gateway.ai.cloudflare.com".

Lemma Index_after s c sub rest :
  c ∉ s -> HasPrefix rest (c :: sub) = true ->
  Index (s ++ rest) (c :: sub) = Some (length s).
Proof.
  intros Hc Hrest. induction s as [|b s IH].
  - cbn [app length]. destruct rest; cbn [Index]; by rewrite Hrest.
  - apply not_elem_of_cons in Hc as [Hb Hc].
    cbn [app Index HasPrefix length]. rewrite decide_False by done.
    by rewrite IH.
Qed.

Lemma Index_absent s c : c ∉ s -> Index s [c] = None.
Proof.
  induction s as [|b s IH]; intros Hc; [done|].
  apply not_elem_of_cons in Hc as [Hb Hc].
  cbn [Index HasPrefix]. rewrite decide_False by done. by rewrite IH.
Qed.

(** The path of a base URL is its path. *)
Lemma urlPath_baseOf scheme authority path :
  origin scheme authority ->
  path = [] \/ HasPrefix path (lit "/") = true ->
  urlPath (baseOf scheme authority path) = path.
Proof.
  intros (Hscheme & _ & Hauthority) Hpath. unfold urlPath, baseOf.
  rewrite (Index_after scheme ":"%char (lit "//"))
    by (done || apply (HasPrefix_app (lit "://"))).
  change (drop (length scheme + 3) (scheme ++ lit "://" ++ authority ++ path))
    with (drop (length scheme + length (lit "://"))
               (scheme ++ lit "://" ++ authority ++ path)).
  rewrite <- drop_drop, drop_app_length, drop_app_length.
  destruct Hpath as [->|Hpath].
  - rewrite app_nil_r.
    change (lit "/") with ["/"%char]. by rewrite Index_absent.
  - change (lit "/") with ["/"%char] in *.
    rewrite (Index_after authority "/"%char []) by done.
    by rewrite drop_app_length.
Qed.

(** C2. The full upstream URL. A base URL of the Cloudflare AI gateway
    shape is decided first, whatever its path: an OpenAI channel gets the
    base URL as it is, followed by the request URL without its leading
    [/v1]. Otherwise, for an OpenAI channel, a base URL whose path is empty
    or [/] takes the request URL as it is after the scheme and authority,
    so that [/v1/...] is kept, and a base URL with any other path takes the
    request URL without its leading [/v1], after the base URL without its
    trailing slash. For any other channel the request URL is appended to
    the base URL as it is, whatever the base URL. The table of
    [TestGetFullRequestURL_OpenAIBaseURLPathHandling] and the three
    equations of the specification hold. *)
Theorem upstream_url :
  (forall rest requestURL,
     GetFullRequestURL (cloudflareGateway ++ rest) requestURL ChannelTypeOpenAI
     = (cloudflareGateway ++ rest) ++ TrimPrefix requestURL (lit "/v1")) /\
  (forall scheme authority path requestURL,
     origin scheme authority ->
     HasPrefix (baseOf scheme authority path) cloudflareGateway = false ->
     path = [] \/ path = lit "/" ->
     GetFullRequestURL (baseOf scheme authority path) requestURL ChannelTypeOpenAI
     = baseOf scheme authority [] ++ requestURL) /\
  (forall scheme authority segments requestURL,
     origin scheme authority ->
     HasPrefix (baseOf scheme authority (lit "/" ++ segments)) cloudflareGateway = false ->
     segments <> [] ->
     GetFullRequestURL (baseOf scheme authority (lit "/" ++ segments)) requestURL
                       ChannelTypeOpenAI
     = TrimSuffix (baseOf scheme authority (lit "/" ++ segments)) (lit "/")
       ++ TrimPrefix requestURL (lit "/v1")) /\
  (forall baseURL requestURL id,
     GetFullRequestURL baseURL requestURL (ChannelTypeOther id)
     = baseURL ++ requestURL) /\
  Forall (fun t : string * string * ChannelType * string =>
            let '(baseURL, requestURL, channelType, expected) := t in
            GetFullRequestURL (lit baseURL) (lit requestURL) channelType = lit expected)
    [("https://gateway.ai.cloudflare.com/account/gateway/openai",
      "/v1/chat/completions", ChannelTypeOpenAI,
      "https://gateway.ai.cloudflare.com/account/gateway/openai/chat/completions");
     ("https://api.openai.com", "/v1/chat/completions", ChannelTypeOpenAI,
      "https://api.openai.com/v1/chat/completions");
     ("https://api.openai.com/", "/v1/chat/completions", ChannelTypeOpenAI,
      "https://api.openai.com/v1/chat/completions");
     ("https://api.openai.com/v2", "/v1/chat/completions", ChannelTypeOpenAI,
      "https://api.openai.com/v2/chat/completions");
     ("https://api.openai.com/v2/", "/v1/chat/completions", ChannelTypeOpenAI,
      "https://api.openai.com/v2/chat/completions");
     ("https://openrouter.ai/api", "/v1/chat/completions", ChannelTypeOther 20,
      "https://openrouter.ai/api/v1/chat/completions");
     ("https://x/y", "/v1/z", ChannelTypeOpenAI, "https://x/y/z");
     ("https://x", "/v1/z", ChannelTypeOpenAI, "https://x/v1/z");
     ("https://o/api", "/v1/z", ChannelTypeOther 20, "https://o/api/v1/z")]%string.
Proof.
  split; [|split; [|split; [|split]]].
  - intros rest requestURL. unfold GetFullRequestURL, isCloudflareGateway.
    fold cloudflareGateway. by rewrite (HasPrefix_app cloudflareGateway rest).
  - intros scheme authority path requestURL Horigin Hcf Hpath.
    unfold GetFullRequestURL, isCloudflareGateway. fold cloudflareGateway.
    rewrite Hcf. unfold hasNonRootPath.
    rewrite urlPath_baseOf by (done || destruct Hpath as [ -> | -> ]; auto).
    rewrite bool_decide_eq_false_2 by tauto.
    destruct Hpath as [ -> | -> ].
    + assert (TrimSuffix (baseOf scheme authority []) (lit "/")
              = baseOf scheme authority []) as ->; [|done].
      unfold TrimSuffix, HasSuffix, baseOf. rewrite app_nil_r.
      destruct Horigin as (_ & Hne & Hauthority).
      destruct authority as [|b authority _] using rev_ind; [done|].
      rewrite !app_assoc, rev_unit.
      change (rev (lit "/")) with ["/"%char]. cbn [HasPrefix].
      rewrite decide_False; [done|]. intros <-. apply Hauthority.
      apply elem_of_app. right. by left.
    + assert (baseOf scheme authority (lit "/")
              = baseOf scheme authority [] ++ lit "/") as ->
        by (unfold baseOf; by rewrite app_nil_r, <- !app_assoc).
      by rewrite TrimSuffix_app.
  - intros scheme authority segments requestURL Horigin Hcf Hsegments.
    unfold GetFullRequestURL, isCloudflareGateway. fold cloudflareGateway.
    rewrite Hcf. unfold hasNonRootPath.
    rewrite urlPath_baseOf by (done || right; apply HasPrefix_app).
    rewrite bool_decide_eq_true_2; [done|].
    split; [done|]. intros [= Hnil]. by apply Hsegments.
  - intros baseURL requestURL id. unfold GetFullRequestURL.
    by destruct (isCloudflareGateway baseURL).
  - repeat (apply Forall_cons_2 || apply Forall_nil_2); by vm_compute.
Qed.

(** An instance of C2: an OpenAI channel behind a proxy path. *)
Lemma upstream_url_witness :
  origin (lit "https") (lit "proxy.example")
  /\ GetFullRequestURL (lit "https://proxy.example/openai") (lit "/v1/embeddings")
                       ChannelTypeOpenAI
     = lit "https://proxy.example/openai/embeddings".
Proof.
  assert (origin (lit "https") (lit "proxy.example")) as Horigin
    by (split; [|split]; (done || apply (bool_decide_unpack _); by vm_compute)).
  split; [exact Horigin|].
  destruct upstream_url as (_ & _ & H & _).
  change (lit "https://proxy.example/openai")
    with (baseOf (lit "https") (lit "proxy.example") (lit "/" ++ lit "openai")).
  rewrite (H (lit "https") (lit "proxy.example") (lit "openai") (lit "/v1/embeddings"));
    [reflexivity|exact Horigin|reflexivity|discriminate].
Defined.

End TransportSpec.

(** ** Stream aggregation *)

Module StreamAggregateSpec.
Import StreamAggregate.

(** *** Arrays with holes *)

Lemma array_get_set_eq {A} (arr : list (option A)) i x :
  array_get (array_set arr i x) i = Some x.
Proof.
  unfold array_get, array_set. case_decide as Hi.
  - by rewrite list_lookup_insert_eq.
  - rewrite lookup_app_r by lia.
    rewrite lookup_app_r by (rewrite length_replicate; lia).
    rewrite length_replicate, Nat.sub_diag. done.
Qed.

Lemma array_get_set_ne {A} (arr : list (option A)) i j x :
  i <> j -> array_get (array_set arr j x) i = array_get arr i.
Proof.
  intros Hne. unfold array_get, array_set. case_decide as Hj.
  - by rewrite list_lookup_insert_ne.
  - destruct (decide (i < length arr)%nat) as [Hi|Hi].
    + by rewrite lookup_app_l.
    + rewrite lookup_app_r, (lookup_ge_None_2 arr) by lia.
      destruct (decide (i - length arr < j - length arr)%nat).
      * rewrite lookup_app_l by (rewrite length_replicate; lia).
        by rewrite lookup_replicate_2.
      * rewrite lookup_app_r by (rewrite length_replicate; lia).
        rewrite length_replicate.
        destruct (i - length arr - (j - length arr))%nat as [|k] eqn:Hk; [lia|].
        done.
Qed.

Lemma array_set_length {A} (arr : list (option A)) i x :
  length (array_set arr i x) = max (length arr) (S i).
Proof.
  unfold array_set. case_decide.
  - rewrite length_insert. lia.
  - rewrite !length_app, length_replicate. simpl. lia.
Qed.

(** [forEach] with an index is a fold over the elements paired with their
    positions. *)
Lemma forEach_i_imap {A St} (f : St -> A -> nat -> St) arr : forall index s,
  forEach_i f arr index s
  = fold_left (fun s p => f s p.2 p.1) (imap (fun i x => (index + i, x)%nat) arr) s.
Proof.
  induction arr as [|x arr IH]; intros index s; [done|].
  cbn [forEach_i imap fold_left]. rewrite IH, Nat.add_0_r. cbn [fst snd].
  f_equal. apply imap_ext. intros i y _. simpl. f_equal. lia.
Qed.

(** *** The claim's words *)

(** The deltas that count: [choices[0].delta] of every stream object that
    has one. *)
Definition firstDelta (chunk : Chunk) : option Delta :=
  head (chunk_choices chunk) ≫= choice_delta.

Definition firstDeltas (chunks : list Chunk) : list Delta :=
  omap firstDelta chunks.

(** The content: every defined, non-null [choices[0].delta.content],
    concatenated in list order. *)
Definition contentOf (chunks : list Chunk) : jsstring :=
  concat (omap delta_content (firstDeltas chunks)).

(** The last property of a list that is present, or a default. *)
Definition lastPresent (values : list (option jsstring)) (dflt : option jsstring)
    : option jsstring :=
  default dflt (last (filter (fun v => present v = true) values)).

(** The role: that of the last delta that carries one. *)
Definition roleOf (chunks : list Chunk) : jsstring :=
  default [] (lastPresent (delta_role <$> firstDeltas chunks)
                          (Some (jlit "assistant"))).

(** The tool-call deltas in arrival order, each with the index that keys
    it: its own [index], or else its position in [delta.tool_calls]. *)
Definition keyedToolDeltas (chunks : list Chunk) : list (nat * ToolCallDelta) :=
  firstDeltas chunks ≫= fun delta =>
    imap (fun position toolDelta =>
            (default position (tc_index toolDelta), toolDelta))
         (default [] (delta_tool_calls delta)).

Definition deltasAt (index : nat) (keyed : list (nat * ToolCallDelta))
    : list ToolCallDelta :=
  snd <$> filter (fun p => p.1 = index) keyed.

(** The tool call that the deltas of one index accumulate to: the last id,
    type and function name that are present (or what the first delta
    had), and the argument fragments concatenated in arrival order. *)
Definition accumulated (deltas : list ToolCallDelta) : option ToolCall :=
  match deltas with
  | [] => None
  | first :: _ =>
    Some {| call_id := lastPresent (tc_id <$> deltas) (tc_id first);
            call_type := lastPresent (tc_type <$> deltas) (tc_type first);
            call_name :=
              default [] (lastPresent ((fun d => tc_function d ≫= fn_name) <$> deltas)
                                      (Some []));
            call_arguments :=
              concat (omap (fun d => tc_function d ≫= fn_arguments) deltas) |}
  end.

(** The usage a stream object carries: its own, or else its response's. *)
Definition carriedUsage (chunk : Chunk) : option Usage :=
  match chunk_usage chunk with
  | Some usage => Some usage
  | None => chunk_response_usage chunk
  end.

(** *** The fields of the state evolve independently *)

Lemma firstDeltas_cons chunk chunks :
  firstDeltas (chunk :: chunks)
  = match firstDelta chunk with
    | Some delta => delta :: firstDeltas chunks
    | None => firstDeltas chunks
    end.
Proof. done. Qed.

Lemma chunkStep_no_delta st chunk : firstDelta chunk = None -> chunkStep st chunk = st.
Proof.
  unfold firstDelta, chunkStep. destruct (chunk_choices chunk) as [|choice ?]; [done|].
  simpl. by intros ->.
Qed.

Lemma chunkStep_delta st chunk delta :
  firstDelta chunk = Some delta ->
  chunkStep st chunk =
  {| st_role := orElse (delta_role delta) (st_role st);
     st_fullContent := st_fullContent st ++ default [] (delta_content delta);
     st_reasoningBuffer :=
       if present (delta_reasoning_content delta)
       then st_reasoningBuffer st
            ++ normaliseContent (default [] (delta_reasoning_content delta))
       else st_reasoningBuffer st;
     st_toolCalls :=
       forEach_i toolDeltaStep (default [] (delta_tool_calls delta)) 0
                 (st_toolCalls st) |}.
Proof.
  unfold firstDelta, chunkStep. destruct (chunk_choices chunk) as [|choice ?]; [done|].
  simpl. intros ->. f_equal.
  - destruct (delta_reasoning_content delta) as [r|]; [|done]. simpl.
    by destruct (truthy r).
  - destruct (delta_content delta); simpl; [done|by rewrite app_nil_r].
  - by destruct (delta_tool_calls delta).
Qed.

Lemma lastPresent_cons v values dflt :
  lastPresent (v :: values) dflt
  = lastPresent values (if present v then v else dflt).
Proof.
  unfold lastPresent. destruct (present v) eqn:Hv.
  - rewrite filter_cons_True by done.
    destruct (filter _ values) as [|w ws] eqn:Hf; [done|].
    rewrite last_cons_cons.
    destruct (last (w :: ws)) eqn:Hl; [done|]. by apply last_None in Hl.
  - by rewrite filter_cons_False by (rewrite Hv; done).
Qed.

Lemma lastPresent_nil dflt : lastPresent [] dflt = dflt.
Proof. done. Qed.

Lemma orElse_lastPresent v current :
  Some (orElse v current) = if present v then v else Some current.
Proof. destruct v as [s|]; simpl; [by destruct (truthy s)|done]. Qed.

Lemma fold_content chunks : forall st,
  st_fullContent (fold_left chunkStep chunks st)
  = st_fullContent st ++ contentOf chunks.
Proof.
  induction chunks as [|chunk chunks IH]; intros st; cbn [fold_left].
  { unfold contentOf. simpl. by rewrite app_nil_r. }
  rewrite IH. unfold contentOf. rewrite firstDeltas_cons.
  destruct (firstDelta chunk) as [delta|] eqn:Hd.
  - rewrite (chunkStep_delta _ _ _ Hd). cbn [st_fullContent omap list_omap].
    destruct (delta_content delta); simpl; by rewrite <- ?app_assoc, ?app_nil_r.
  - by rewrite chunkStep_no_delta.
Qed.

Lemma fold_role chunks : forall st,
  Some (st_role (fold_left chunkStep chunks st))
  = lastPresent (delta_role <$> firstDeltas chunks) (Some (st_role st)).
Proof.
  induction chunks as [|chunk chunks IH]; intros st; cbn [fold_left]; [done|].
  rewrite IH, firstDeltas_cons.
  destruct (firstDelta chunk) as [delta|] eqn:Hd.
  - rewrite (chunkStep_delta _ _ _ Hd). cbn [st_role fmap list_fmap].
    by rewrite lastPresent_cons, orElse_lastPresent.
  - by rewrite chunkStep_no_delta.
Qed.

(** One keyed tool-call delta against the array. *)
Definition freshCall (toolDelta : ToolCallDelta) : ToolCall :=
  {| call_id := tc_id toolDelta; call_type := tc_type toolDelta;
     call_name := orElse (tc_function toolDelta ≫= fn_name) [];
     call_arguments := [] |}.

Definition keyedStep (arr : list (option ToolCall)) (p : nat * ToolCallDelta)
    : list (option ToolCall) :=
  array_set arr p.1 (mergeToolDelta p.2 (default (freshCall p.2) (array_get arr p.1))).

Lemma toolDeltaStep_keyed arr toolDelta index :
  toolDeltaStep arr toolDelta index
  = keyedStep arr (default index (tc_index toolDelta), toolDelta).
Proof.
  unfold toolDeltaStep, keyedStep. cbn [fst snd].
  by destruct (array_get arr _).
Qed.

Lemma forEach_toolDeltas_from toolDeltas : forall k arr,
  forEach_i toolDeltaStep toolDeltas k arr
  = fold_left keyedStep
      (imap (fun position toolDelta =>
               (default (k + position)%nat (tc_index toolDelta), toolDelta))
            toolDeltas) arr.
Proof.
  induction toolDeltas as [|td l IH]; intros k arr; [done|].
  cbn [forEach_i imap fold_left]. rewrite toolDeltaStep_keyed, IH, Nat.add_0_r.
  f_equal. apply imap_ext. intros i x _. simpl. do 2 f_equal. lia.
Qed.

Lemma forEach_toolDeltas toolDeltas arr :
  forEach_i toolDeltaStep toolDeltas 0 arr
  = fold_left keyedStep
      (imap (fun position toolDelta =>
               (default position (tc_index toolDelta), toolDelta)) toolDeltas) arr.
Proof. apply forEach_toolDeltas_from. Qed.

Lemma keyedToolDeltas_cons chunk chunks :
  keyedToolDeltas (chunk :: chunks)
  = match firstDelta chunk with
    | Some delta =>
      imap (fun position toolDelta =>
              (default position (tc_index toolDelta), toolDelta))
           (default [] (delta_tool_calls delta))
    | None => []
    end ++ keyedToolDeltas chunks.
Proof.
  unfold keyedToolDeltas. rewrite firstDeltas_cons.
  by destruct (firstDelta chunk).
Qed.

Lemma fold_toolCalls chunks : forall st,
  st_toolCalls (fold_left chunkStep chunks st)
  = fold_left keyedStep (keyedToolDeltas chunks) (st_toolCalls st).
Proof.
  induction chunks as [|chunk chunks IH]; intros st; cbn [fold_left]; [done|].
  rewrite IH, keyedToolDeltas_cons, fold_left_app. f_equal.
  destruct (firstDelta chunk) as [delta|] eqn:Hd.
  - rewrite (chunkStep_delta _ _ _ Hd). cbn [st_toolCalls].
    apply forEach_toolDeltas.
  - by rewrite chunkStep_no_delta.
Qed.

(** *** Accumulation is per index *)

Definition accumulateFrom (acc : option ToolCall) (deltas : list ToolCallDelta)
    : option ToolCall :=
  fold_left (fun acc td => Some (mergeToolDelta td (default (freshCall td) acc)))
            deltas acc.

Lemma fold_keyed_get keyed : forall arr i,
  array_get (fold_left keyedStep keyed arr) i
  = accumulateFrom (array_get arr i) (deltasAt i keyed).
Proof.
  induction keyed as [|[j td] keyed IH]; intros arr i; [done|].
  cbn [fold_left]. rewrite IH. unfold deltasAt, keyedStep. cbn [fst snd].
  destruct (decide (j = i)) as [->|Hne].
  - rewrite filter_cons_True by done. by rewrite array_get_set_eq.
  - rewrite filter_cons_False by done. by rewrite array_get_set_ne.
Qed.

Lemma accumulateFrom_Some deltas : forall call,
  accumulateFrom (Some call) deltas
  = Some {| call_id := lastPresent (tc_id <$> deltas) (call_id call);
            call_type := lastPresent (tc_type <$> deltas) (call_type call);
            call_name :=
              default [] (lastPresent ((fun d => tc_function d ≫= fn_name) <$> deltas)
                                      (Some (call_name call)));
            call_arguments :=
              call_arguments call
              ++ concat (omap (fun d => tc_function d ≫= fn_arguments) deltas) |}.
Proof.
  induction deltas as [|td deltas IH]; intros call.
  { destruct call. simpl. by rewrite app_nil_r. }
  unfold accumulateFrom in *. cbn [fold_left default]. rewrite IH.
  cbn [fmap list_fmap omap list_omap]. rewrite !lastPresent_cons.
  unfold mergeToolDelta.
  destruct (tc_function td ≫= fn_arguments) as [args|] eqn:Ha;
    destruct (tc_function td ≫= fn_name) as [name|] eqn:Hn;
    cbn [present default];
    repeat match goal with
           | |- context [truthy ?x] => destruct (truthy x) eqn:?
           | |- context [present ?x] => destruct (present x) eqn:?
           end;
    cbn; rewrite ?app_assoc; try done.
  all: repeat match goal with
       | H : truthy ?x = false |- _ =>
         apply negb_false_iff, bool_decide_eq_true in H; subst x
       end; cbn; rewrite ?app_nil_r; try done.
Qed.

Lemma accumulateFrom_None deltas : accumulateFrom None deltas = accumulated deltas.
Proof.
  destruct deltas as [|first rest]; [done|].
  unfold accumulateFrom, accumulated. cbn [fold_left default].
  fold (accumulateFrom (Some (mergeToolDelta first (freshCall first))) rest).
  rewrite accumulateFrom_Some. cbn [fmap list_fmap omap list_omap].
  rewrite !lastPresent_cons. unfold mergeToolDelta, freshCall.
  destruct (tc_function first ≫= fn_arguments) as [args|] eqn:Ha;
    destruct (tc_function first ≫= fn_name) as [name|] eqn:Hn;
    cbn [present default orElse];
    repeat match goal with
           | |- context [truthy ?x] => destruct (truthy x) eqn:?
           | |- context [present ?x] => destruct (present x) eqn:?
           end;
    cbn; try done.
  all: repeat match goal with
       | H : truthy ?x = false |- _ =>
         apply negb_false_iff, bool_decide_eq_true in H; subst x
       end; cbn; try done.
Qed.

(** The tool call at an index is what the deltas of that index accumulate
    to. *)
Lemma toolCalls_per_index chunks i :
  array_get (fold_left keyedStep (keyedToolDeltas chunks) []) i
  = accumulated (deltasAt i (keyedToolDeltas chunks)).
Proof. by rewrite fold_keyed_get, <- accumulateFrom_None. Qed.

(** *** Usage *)

Lemma collectResponseUsage_last chunks :
  collectResponseUsage None chunks = last (omap carriedUsage chunks).
Proof.
  unfold collectResponseUsage.
  induction chunks as [|chunk chunks IH] using rev_ind; [done|].
  rewrite rev_unit, omap_app. cbn [omap list_omap list_find].
  destruct (carriedUsage chunk) as [u|] eqn:Hc.
  - rewrite last_snoc. unfold carriedUsage in Hc.
    rewrite decide_True.
    2:{ destruct (chunk_usage chunk); [left|right]; eauto. }
    cbn. by destruct (chunk_usage chunk).
  - unfold carriedUsage in Hc. rewrite decide_False.
    2:{ destruct (chunk_usage chunk); [done|]. rewrite Hc.
        intros [[]|[]]; discriminate. }
    rewrite app_nil_r, <- IH.
    by destruct (list_find _ (rev chunks)) as [[]|].
Qed.

(** *** The claim *)

(** C3. For a list of stream objects that is not empty, the aggregator
    returns a message whose content (read as the empty string when the
    property is not set) is the concatenation, in list order, of every
    defined, non-null [choices[0].delta.content]; whose role is that of the
    last delta that carries one, ["assistant"] if none does; and whose tool
    calls form an array that holds, at every index, what the tool-call
    deltas keyed by that index (their [index], or else their position)
    accumulate to: the last id, type and function name that are present and
    the argument fragments concatenated in arrival order. The usage of the
    stream is that of the last stream object that carries one. *)
Theorem openai_aggregation (chunks : list Chunk) :
  chunks <> [] ->
  exists message,
    aggregateOpenAIStreamChunks chunks = Some message /\
    default [] (msg_content message) = contentOf chunks /\
    msg_content message <> Some [] /\
    msg_role message = roleOf chunks /\
    (forall i, array_get (default [] (msg_tool_calls message)) i
               = accumulated (deltasAt i (keyedToolDeltas chunks))) /\
    collectResponseUsage None chunks = last (omap carriedUsage chunks) /\
    (Forall (fun chunk => chunk_response_usage chunk = None) chunks ->
     collectResponseUsage None chunks = last (omap chunk_usage chunks)).
Proof.
  intros Hne. unfold aggregateOpenAIStreamChunks.
  case_decide as Hlen; [by destruct chunks|].
  eexists. split; [reflexivity|]. cbn [msg_content msg_role msg_tool_calls].
  rewrite fold_content, fold_toolCalls. cbn [st_fullContent st_toolCalls app].
  split; [|split; [|split; [|split; [|split]]]].
  - destruct (truthy (contentOf chunks)) eqn:Ht; [done|].
    by apply negb_false_iff, bool_decide_eq_true in Ht.
  - destruct (truthy (contentOf chunks)) eqn:Ht; [|done].
    intros [= Hc]. by rewrite Hc in Ht.
  - match goal with
    | |- st_role (fold_left _ _ ?st0) = _ => pose proof (fold_role chunks st0) as Hr
    end.
    cbn [st_role] in Hr. unfold roleOf. by rewrite <- Hr.
  - intros i. rewrite <- toolCalls_per_index. case_decide as Hl; [done|].
    destruct (fold_left keyedStep _ []); [done|simpl in Hl; lia].
  - apply collectResponseUsage_last.
  - intros Hchat. rewrite collectResponseUsage_last. f_equal.
    clear Hne Hlen. induction Hchat as [|chunk chunks' Hc _ IH]; [done|].
    cbn [omap list_omap]. rewrite IH. unfold carriedUsage. rewrite Hc.
    by destruct (chunk_usage chunk).
Qed.

(** The stream of scenario S2: three content events and a usage event. *)
Definition contentChunk (text : string) : Chunk :=
  mkChunk [mkChoice (Some (mkDelta None (Some (jlit text)) None None))] None None.

Definition scenarioS2 : list Chunk :=
  [contentChunk "A"; contentChunk "B"; contentChunk "C";
   mkChunk [] (Some (mkUsage 1 3 4)) None].

(** An instance of C3: scenario S2. *)
Lemma openai_aggregation_witness :
  scenarioS2 <> [] /\
  exists message,
    aggregateOpenAIStreamChunks scenarioS2 = Some message /\
    msg_content message = Some (jlit "ABC") /\
    msg_role message = jlit "assistant" /\
    collectResponseUsage None scenarioS2 = Some (mkUsage 1 3 4).
Proof.
  split; [done|].
  destruct (openai_aggregation scenarioS2)
    as (message & Hrun & Hcontent & _ & Hrole & _ & Husage & _); [done|].
  exists message. split; [exact Hrun|].
  split; [|split; [exact Hrole|exact Husage]].
  destruct (msg_content message) as [content|] eqn:Hc.
  - simpl in Hcontent. by rewrite Hcontent.
  - discriminate Hcontent.
Defined.

(** *** The listing of the blocks *)

#[local] Instance byIndex_trans : Transitive byIndex.
Proof. intros a b c. unfold byIndex. lia. Qed.

#[local] Instance byIndex_total : Total byIndex.
Proof. intros a b. unfold byIndex. lia. Qed.

Lemma StronglySorted_filter {A} (R : relation A) (P : A -> Prop)
    `{!forall x, Decision (P x)} l :
  StronglySorted R l -> StronglySorted R (filter P l).
Proof.
  induction 1 as [|x l Hs IH Hall]; [constructor|].
  destruct (decide (P x)).
  - rewrite filter_cons_True by done. constructor; [done|].
    apply Forall_forall. intros y Hy%list_elem_of_filter.
    rewrite Forall_forall in Hall. apply Hall, Hy.
  - by rewrite filter_cons_False.
Qed.

Lemma sortedBlocks_elem_of blocks i b :
  (i, b) ∈ sortedBlocks blocks <-> blocks !! i = Some b.
Proof.
  unfold sortedBlocks. rewrite merge_sort_Permutation.
  apply elem_of_map_to_list.
Qed.

Lemma sortedBlocks_ascending blocks :
  StronglySorted (fun a b => a.1 < b.1)%nat (sortedBlocks blocks).
Proof.
  assert (NoDup (sortedBlocks blocks).*1) as Hnd.
  { unfold sortedBlocks. rewrite merge_sort_Permutation.
    apply NoDup_fst_map_to_list. }
  assert (StronglySorted byIndex (sortedBlocks blocks)) as Hs
    by apply (StronglySorted_merge_sort _).
  induction Hs as [|x l Hs IH Hall]; [constructor|].
  rewrite fmap_cons in Hnd. apply NoDup_cons in Hnd as [Hx Hnd].
  constructor; [by apply IH|].
  apply Forall_forall. intros y Hy. rewrite Forall_forall in Hall.
  specialize (Hall y Hy). unfold byIndex in Hall.
  destruct (decide (x.1 = y.1)) as [Heq|]; [|lia].
  exfalso. apply Hx. rewrite Heq. apply list_elem_of_fmap. eauto.
Qed.

Lemma listedBlocks_elem_of blocks i b :
  (i, b) ∈ listedBlocks blocks
  <-> blocks !! i = Some b /\ block_type b <> jlit "reasoning".
Proof.
  unfold listedBlocks. rewrite list_elem_of_filter, sortedBlocks_elem_of.
  simpl. tauto.
Qed.

Lemma listedBlocks_ascending blocks :
  StronglySorted (fun a b => a.1 < b.1)%nat (listedBlocks blocks).
Proof. apply StronglySorted_filter, sortedBlocks_ascending. Qed.

(** *** The blocks *)

Lemma blockDeltaStep_text block delta :
  ed_type delta = Some (jlit "text_delta") ->
  blockDeltaStep block delta
  = withText (block_text block ++ orElse (ed_text delta) [])
      (withType (if truthy (block_type block) then block_type block
                 else jlit "text") block).
Proof. intros Ht. unfold blockDeltaStep. rewrite Ht. by rewrite decide_True. Qed.

Lemma blockDeltaStep_thinking block delta :
  ed_type delta = Some (jlit "thinking_delta") ->
  blockDeltaStep block delta
  = withReasoning (block_reasoning block ++ orElse (ed_thinking delta) []) block.
Proof.
  intros Ht. unfold blockDeltaStep. rewrite Ht. cbn [default].
  rewrite decide_False by done. by rewrite decide_True.
Qed.

Lemma blockDeltaStep_input_json block delta :
  ed_type delta = Some (jlit "input_json_delta") ->
  blockDeltaStep block delta
  = withPartialJson
      (block_partialJson block
       ++ match ed_partial_json delta with
          | Some fragment => fragment
          | None => default [] (ed_partialJson delta)
          end) block.
Proof.
  intros Ht. unfold blockDeltaStep. rewrite Ht. cbn [default].
  do 2 rewrite decide_False by done. by rewrite decide_True.
Qed.

(** What [content_block_stop] assigns, in terms of [JSON.parse]: the parsed
    value, or the raw buffer when the buffer does not parse (or parses to
    [null], which [safeParseJson] does not tell from a failure). *)
Lemma blockStop_input JSON_parse block :
  block_partialJson block <> [] ->
  StreamAggregate.blockStop JSON_parse block
  = withInput
      (Some match JSON_parse (block_partialJson block) with
            | Some JNull | None => JString (block_partialJson block)
            | Some value => value
            end) block.
Proof.
  intros Hpj. unfold StreamAggregate.blockStop, StreamAggregate.safeParseJson.
  assert (truthy (block_partialJson block) = true) as ->.
  { unfold truthy. by rewrite bool_decide_eq_false_2. }
  cbn [negb]. by destruct (JSON_parse (block_partialJson block)) as [[]|].
Qed.

Lemma blockStop_empty JSON_parse block :
  block_partialJson block = [] -> StreamAggregate.blockStop JSON_parse block = block.
Proof. intros Hpj. unfold StreamAggregate.blockStop. by rewrite Hpj. Qed.

(** *** Anthropic message stream *)

Section Claude.

Variable JSON_parse : jsstring -> option json.

Abbreviation eventStep := (StreamAggregate.eventStep JSON_parse).
Abbreviation blockStop := (StreamAggregate.blockStop JSON_parse).
Abbreviation safeParseJson := (StreamAggregate.safeParseJson JSON_parse).

(** The block [getBlock(index)] returns. *)
Definition currentBlock (st : ClaudeState) (index : nat) : Block :=
  default newBlock (cs_blocks st !! index).

Lemma getBlock_insert blocks index (update : Block -> Block) :
  (let '(blocks', block) := getBlock blocks index in
   <[index := update block]> blocks')
  = <[index := update (default newBlock (blocks !! index))]> blocks.
Proof.
  unfold getBlock. destruct (blocks !! index); [done|].
  simpl. apply insert_insert_eq.
Qed.

Lemma eventStep_block_start st event :
  ev_type event = Some (jlit "content_block_start") ->
  let index := default (size (cs_blocks st)) (ev_index event) in
  eventStep st event
  = mkClaudeState
      (<[index := blockStart (currentBlock st index) (ev_content_block event)]>
         (cs_blocks st))
      (cs_role st) (cs_reasoning st).
Proof.
  intros Ht. unfold StreamAggregate.eventStep. rewrite Ht. cbn [default].
  rewrite decide_False by done. rewrite decide_True by done. cbv zeta.
  set (index := default (size (cs_blocks st)) (ev_index event)).
  pose proof (getBlock_insert (cs_blocks st) index
                (fun b => blockStart b (ev_content_block event))) as H.
  destruct (getBlock (cs_blocks st) index) as [blocks block]. by rewrite H.
Qed.

Lemma eventStep_block_delta st event :
  ev_type event = Some (jlit "content_block_delta") ->
  let index := default 0%nat (ev_index event) in
  eventStep st event
  = mkClaudeState
      (<[index := blockDeltaStep (currentBlock st index)
                                 (default noDelta (ev_delta event))]>
         (cs_blocks st))
      (cs_role st) (cs_reasoning st).
Proof.
  intros Ht. unfold StreamAggregate.eventStep. rewrite Ht. cbn [default].
  do 2 rewrite decide_False by done. rewrite decide_True by done. cbv zeta.
  set (index := default 0%nat (ev_index event)).
  pose proof (getBlock_insert (cs_blocks st) index
                (fun b => blockDeltaStep b (default noDelta (ev_delta event)))) as H.
  destruct (getBlock (cs_blocks st) index) as [blocks block]. by rewrite H.
Qed.

Lemma eventStep_block_stop st event :
  ev_type event = Some (jlit "content_block_stop") ->
  let index := default 0%nat (ev_index event) in
  eventStep st event
  = mkClaudeState (<[index := blockStop (currentBlock st index)]> (cs_blocks st))
                  (cs_role st) (cs_reasoning st).
Proof.
  intros Ht. unfold StreamAggregate.eventStep. rewrite Ht. cbn [default].
  do 3 rewrite decide_False by done. rewrite decide_True by done. cbv zeta.
  set (index := default 0%nat (ev_index event)).
  pose proof (getBlock_insert (cs_blocks st) index blockStop) as H.
  destruct (getBlock (cs_blocks st) index) as [blocks block]. by rewrite H.
Qed.

Lemma eventStep_message_delta st event :
  ev_type event = Some (jlit "message_delta") ->
  eventStep st event
  = mkClaudeState (cs_blocks st)
      (orElse (ev_delta event ≫= ed_role) (cs_role st))
      (if present (ev_delta event ≫= ed_reasoning)
       then cs_reasoning st
            ++ normaliseContent (default [] (ev_delta event ≫= ed_reasoning))
       else cs_reasoning st).
Proof.
  intros Ht. unfold StreamAggregate.eventStep. rewrite Ht. cbn [default].
  do 4 rewrite decide_False by done. by rewrite decide_True by done.
Qed.

Lemma eventStep_frame st event i j :
  ev_index event = Some i -> j <> i ->
  cs_blocks (eventStep st event) !! j = cs_blocks st !! j.
Proof.
  intros Hi Hne. unfold StreamAggregate.eventStep.
  repeat case_decide; try done; rewrite Hi; cbn [default id]; cbv zeta;
    unfold getBlock; destruct (cs_blocks st !! i); cbn [cs_blocks];
    by rewrite !lookup_insert_ne by done.
Qed.

(** The final state of the aggregator. *)
Definition finalState (events : list Event) : ClaudeState :=
  fold_left eventStep events (mkClaudeState ∅ (jlit "assistant") []).

(** C4 (amended). The aggregator keeps a map of content blocks keyed by
    the index of the events: an event with an index leaves the blocks of
    all other indices as they are. [content_block_start] sets the block's
    type (kept when the content block has none), text (empty when the
    content block has none), name, id, input and content from the event's
    content block. A [content_block_delta] appends [delta.text] to the
    block's text for a [text_delta], [delta.thinking] to its reasoning for a
    [thinking_delta] and [delta.partial_json] to its partial-JSON buffer for
    an [input_json_delta]. [content_block_stop] parses a buffer that is not
    empty and assigns the parsed value, or the raw buffer string when the
    buffer does not parse or parses to [null], to the block's input; with an
    empty buffer it leaves the block as it is. [message_delta] updates the
    role and appends the top-level reasoning. The content of the final
    message lists, by ascending index, the blocks whose type is not
    ["reasoning"], and only those. *)
Theorem claude_aggregation :
  (forall st event i j,
     ev_index event = Some i -> j <> i ->
     cs_blocks (eventStep st event) !! j = cs_blocks st !! j) /\
  (forall st event i cb,
     ev_type event = Some (jlit "content_block_start") ->
     ev_index event = Some i -> ev_content_block event = Some cb ->
     exists block,
       cs_blocks (eventStep st event) !! i = Some block /\
       block_type block = orElse (cb_type cb) (block_type (currentBlock st i)) /\
       block_text block = orElse (cb_text cb) [] /\
       block_name block = cb_name cb /\ block_id block = cb_id cb /\
       block_input block = cb_input cb /\ block_content block = cb_content cb) /\
  (forall st event i delta,
     ev_type event = Some (jlit "content_block_delta") ->
     ev_index event = Some i -> ev_delta event = Some delta ->
     exists block,
       cs_blocks (eventStep st event) !! i = Some block /\
       (ed_type delta = Some (jlit "text_delta") ->
        block_text block
        = block_text (currentBlock st i) ++ orElse (ed_text delta) []) /\
       (ed_type delta = Some (jlit "thinking_delta") ->
        block_reasoning block
        = block_reasoning (currentBlock st i) ++ orElse (ed_thinking delta) []) /\
       (forall fragment,
          ed_type delta = Some (jlit "input_json_delta") ->
          ed_partial_json delta = Some fragment ->
          block_partialJson block
          = block_partialJson (currentBlock st i) ++ fragment)) /\
  (forall st event i,
     ev_type event = Some (jlit "content_block_stop") ->
     ev_index event = Some i ->
     let buffer := block_partialJson (currentBlock st i) in
     exists block,
       cs_blocks (eventStep st event) !! i = Some block /\
       (buffer <> [] ->
        block_input block
        = Some match JSON_parse buffer with
               | Some JNull | None => JString buffer
               | Some value => value
               end) /\
       (buffer = [] -> block = currentBlock st i)) /\
  (forall st event delta,
     ev_type event = Some (jlit "message_delta") -> ev_delta event = Some delta ->
     cs_role (eventStep st event) = orElse (ed_role delta) (cs_role st) /\
     cs_reasoning (eventStep st event)
     = cs_reasoning st
       ++ (if present (ed_reasoning delta)
           then normaliseContent (default [] (ed_reasoning delta)) else []) /\
     cs_blocks (eventStep st event) = cs_blocks st) /\
  (forall events,
     events <> [] ->
     let blocks := cs_blocks (finalState events) in
     exists message,
       aggregateClaudeStreamEvents JSON_parse events = Some message /\
       cm_role message = cs_role (finalState events) /\
       default [] (cm_content message)
       = (fun entry => contentItem entry.2) <$> listedBlocks blocks /\
       StronglySorted (fun a b => a.1 < b.1)%nat (listedBlocks blocks) /\
       (forall i block,
          (i, block) ∈ listedBlocks blocks
          <-> blocks !! i = Some block /\ block_type block <> jlit "reasoning")).
Proof.
  split; [exact eventStep_frame|].
  split; [|split; [|split; [|split]]].
  - intros st event i cb Ht Hi Hcb.
    rewrite (eventStep_block_start _ _ Ht), Hi, Hcb. cbn [default cs_blocks].
    eexists. split; [apply lookup_insert_eq|]. by repeat split.
  - intros st event i delta Ht Hi Hd.
    rewrite (eventStep_block_delta _ _ Ht), Hi, Hd. cbn [default cs_blocks].
    eexists. split; [apply lookup_insert_eq|]. split; [|split].
    + intros Hdt. by rewrite (blockDeltaStep_text _ _ Hdt).
    + intros Hdt. by rewrite (blockDeltaStep_thinking _ _ Hdt).
    + intros fragment Hdt Hf. by rewrite (blockDeltaStep_input_json _ _ Hdt), Hf.
  - intros st event i Ht Hi. cbv zeta.
    rewrite (eventStep_block_stop _ _ Ht), Hi. cbn [default cs_blocks].
    eexists. split; [apply lookup_insert_eq|]. split.
    + intros Hb. by rewrite blockStop_input.
    + intros Hb. by apply blockStop_empty.
  - intros st event delta Ht Hd.
    rewrite (eventStep_message_delta _ _ Ht), Hd.
    cbn [cs_role cs_reasoning cs_blocks mbind option_bind].
    split; [done|]. split; [|done].
    destruct (present (ed_reasoning delta)); [done|by rewrite app_nil_r].
  - intros events Hne. cbv zeta. unfold aggregateClaudeStreamEvents.
    case_decide as Hlen; [by destruct events|].
    eexists. split; [reflexivity|]. cbn [cm_role cm_content].
    fold (finalState events).
    split; [done|]. split; [|split].
    + case_decide as Hl; [done|].
      rewrite length_map in Hl.
      destruct (listedBlocks _); [done|simpl in Hl; lia].
    + apply listedBlocks_ascending.
    + intros i block. apply listedBlocks_elem_of.
Qed.

End Claude.

(** The events of the examples. *)
Definition blockStartEvent (index : nat) (cb : ContentBlock) : Event :=
  mkEvent (Some (jlit "content_block_start")) (Some index) None (Some cb) None.
Definition blockDeltaEvent (index : nat) (delta : EventDelta) : Event :=
  mkEvent (Some (jlit "content_block_delta")) (Some index) None None (Some delta).
Definition blockStopEvent (index : nat) : Event :=
  mkEvent (Some (jlit "content_block_stop")) (Some index) None None None.
Definition textDelta (text : string) : EventDelta :=
  mkEventDelta (Some (jlit "text_delta")) (Some (jlit text))
               None None None None None None.
Definition inputJsonDelta (fragment : string) : EventDelta :=
  mkEventDelta (Some (jlit "input_json_delta")) None None (Some (jlit fragment))
               None None None None.
Definition startOf (type : string) (id name thinking : option string)
    : ContentBlock :=
  mkContentBlock (Some (jlit type)) None (jlit <$> name) (jlit <$> id)
                 None None (jlit <$> thinking).

(** A [JSON.parse] that knows the empty object. *)
Definition parseEmptyObject (text : jsstring) : option json :=
  if decide (text = jlit "{}") then Some (JObject []) else None.

(** A tool call whose block starts before the text block of index 0. *)
Definition toolStream : list Event :=
  [blockStartEvent 1 (startOf "tool_use" (Some "call-1") (Some "lookup") None);
   blockStartEvent 0 (startOf "text" None None None);
   blockDeltaEvent 0 (textDelta "Hel");
   blockDeltaEvent 1 (inputJsonDelta "{");
   blockDeltaEvent 0 (textDelta "lo");
   blockDeltaEvent 1 (inputJsonDelta "}");
   blockStopEvent 0;
   blockStopEvent 1]%string.

(** An instance of C4: the text block comes first, the tool call has the
    parsed input. *)
Lemma claude_aggregation_witness :
  toolStream <> [] /\
  exists message,
    aggregateClaudeStreamEvents parseEmptyObject toolStream = Some message /\
    cm_role message = jlit "assistant" /\
    cm_content message
    = Some [TextItem (jlit "Hello");
            ToolUseItem (Some (jlit "call-1")) (Some (jlit "lookup"))
                        (Some (JObject []))].
Proof.
  assert (toolStream <> []) as Hne by done.
  split; [exact Hne|].
  destruct (claude_aggregation parseEmptyObject) as (_ & _ & _ & _ & _ & Hfinal).
  destruct (Hfinal toolStream Hne) as (message & Hm & _).
  exists message. split; [exact Hm|].
  vm_compute in Hm. injection Hm as <-. split; reflexivity.
Defined.

(** The final listing as the specification words it: the content of the
    message lists the blocks of the map by ascending index. *)
Definition listsTheBlocks (JSON_parse : jsstring -> option json)
    (events : list Event) : Prop :=
  exists message,
    aggregateClaudeStreamEvents JSON_parse events = Some message /\
    default [] (cm_content message)
    = (fun entry => contentItem entry.2)
        <$> sortedBlocks (cs_blocks (finalState JSON_parse events)).

(** A stream with a block of type ["reasoning"] before its text block. *)
Definition reasoningStream : list Event :=
  [blockStartEvent 0 (startOf "reasoning" None None (Some "plan"));
   blockStartEvent 1 (startOf "text" None None None);
   blockDeltaEvent 1 (textDelta "Hi")]%string.

(** C4, counterexample. The map holds a block of type ["reasoning"] at
    index 0 and a text block at index 1; the final message lists the text
    block only, and has no reasoning. *)
Lemma reasoning_block_is_dropped :
  (block_type <$> cs_blocks (finalState parseEmptyObject reasoningStream))
  = {[ 0%nat := jlit "reasoning"; 1%nat := jlit "text" ]}
  /\ aggregateClaudeStreamEvents parseEmptyObject reasoningStream
     = Some {| cm_role := jlit "assistant";
               cm_content := Some [TextItem (jlit "Hi")];
               cm_reasoning := None |}
  /\ ~ listsTheBlocks parseEmptyObject reasoningStream.
Proof.
  split; [|split].
  - apply (bool_decide_unpack _). by vm_compute.
  - by vm_compute.
  - intros (message & Hm & Hc). vm_compute in Hm. injection Hm as <-.
    vm_compute in Hc. discriminate Hc.
Qed.

End StreamAggregateSpec.

(** ** Payload capture: slots, binary payloads, the earlier revision *)

Module PayloadCaptureExtra.
Import GoString GoStringFacts PayloadCapture PayloadCaptureSpec.

Local Ltac Zify.zify_post_hook ::= Z.div_mod_to_equations.

Local Ltac split_ifs :=
  repeat match goal with
         | |- context [if ?c then _ else _] => destruct c eqn:?
         end.

(** *** Valid UTF-8 *)

Lemma valid_fuel_irrel n : forall m s,
  (length s <= n)%nat -> (length s <= m)%nat -> valid_fuel n s = valid_fuel m s.
Proof.
  induction n as [|n IH]; intros m s Hn Hm.
  - destruct s; [by destruct m | simpl in Hn; lia].
  - destruct s as [|b s]; [by destruct m|].
    destruct m as [|m]; [simpl in Hm; lia|].
    cbn [valid_fuel].
    pose proof (decodeRune_width_pos b s) as Hw.
    destruct (decodeRune (b :: s)) as [r w]. simpl in Hw.
    destruct (_ && _); [done|].
    apply IH; rewrite length_drop; simpl in *; lia.
Qed.

(** The defining equation of [utf8.ValidString]. *)
Lemma utf8_Valid_cons b s :
  utf8_Valid (b :: s) =
  if ((decodeRune (b :: s)).2 =? 1)%nat && ((decodeRune (b :: s)).1 =? RuneError)
  then false else utf8_Valid (drop (decodeRune (b :: s)).2 (b :: s)).
Proof.
  unfold utf8_Valid at 1. cbn [length valid_fuel].
  pose proof (decodeRune_width_pos b s) as Hw.
  destruct (decodeRune (b :: s)) as [r w]. simpl in *.
  destruct (_ && _); [done|].
  apply valid_fuel_irrel; rewrite ?length_drop; simpl; lia.
Qed.

Lemma mkbyte_byteval b : mkbyte (byteval b) = b.
Proof. unfold mkbyte, byteval. by rewrite N2Z.id, ascii_N_embedding. Qed.

Lemma mkbyte_eq z b : z = byteval b -> mkbyte z = b.
Proof. intros ->. apply mkbyte_byteval. Qed.

(** A rune that was decoded from a well-formed encoding is encoded as the
    bytes it was decoded from. *)
Lemma encodeRune_decodeRune b s :
  ((decodeRune (b :: s)).2 =? 1)%nat && ((decodeRune (b :: s)).1 =? RuneError) = false ->
  encodeRune (decodeRune (b :: s)).1 = take (decodeRune (b :: s)).2 (b :: s).
Proof.
  pose proof (decodeRune_scalar (b :: s)) as Hsc.
  unfold encodeRune. rewrite Hsc. cbn [negb]. clear Hsc.
  unfold decodeRune. pose proof (byteval_range b) as H0.
  destruct (classify b) as [| |sz lo hi] eqn:Hc.
  - cbn [fst snd]. intros _. unfold classify in Hc.
    destruct (byteval b <? 128) eqn:E; [|revert Hc; split_ifs; discriminate].
    by rewrite mkbyte_byteval.
  - done.
  - destruct sz as [|[|[|[|[|?]]]]]; try done.
    + destruct s as [|b1 t]; [done|].
      pose proof (byteval_range b1).
      destruct (inRange lo hi b1) eqn:E1; [|done]. intros _.
      cbn [fst snd take].
      unfold classify in Hc. revert Hc.
      split_ifs; intros [= <- <-]; unfold inRange in E1; try lia;
        repeat f_equal; apply mkbyte_eq; lia.
    + destruct s as [|b1 [|b2 t]]; [done..|].
      pose proof (byteval_range b1). pose proof (byteval_range b2).
      destruct (inRange lo hi b1 && isCont b2) eqn:E1; [|done]. intros _.
      apply andb_prop in E1 as [E1 E2].
      cbn [fst snd take].
      unfold classify in Hc. revert Hc.
      split_ifs; intros [= <- <-]; unfold inRange, isCont in *; try lia;
        repeat f_equal; apply mkbyte_eq; lia.
    + destruct s as [|b1 [|b2 [|b3 t]]]; [done..|].
      pose proof (byteval_range b1). pose proof (byteval_range b2).
      pose proof (byteval_range b3).
      destruct (inRange lo hi b1 && isCont b2 && isCont b3) eqn:E1; [|done].
      intros _.
      apply andb_prop in E1 as [E1 E3]. apply andb_prop in E1 as [E1 E2].
      cbn [fst snd take].
      unfold classify in Hc. revert Hc.
      split_ifs; intros [= <- <-]; unfold inRange, isCont in *; try lia;
        repeat f_equal; apply mkbyte_eq; lia.
Qed.


Lemma encodeRunes_runes s : utf8_Valid s = true -> encodeRunes (runes s) = s.
Proof.
  induction s as [|b s IH] using decode_ind; [done|].
  rewrite utf8_Valid_cons, runes_cons.
  destruct (_ && _) eqn:Hbad; [done|]. intros Hvalid.
  unfold encodeRunes in *. cbn [map concat].
  rewrite IH by done. rewrite encodeRune_decodeRune by done.
  apply take_drop.
Qed.

Lemma encodeRunes_take_prefix n rs : encodeRunes (take n rs) `prefix_of` encodeRunes rs.
Proof.
  exists (encodeRunes (drop n rs)). unfold encodeRunes.
  by rewrite <- concat_app, <- map_app, take_drop.
Qed.

(** X1. [applyLogLimit] cuts between two characters: for a payload of
    valid UTF-8 with more than 2048 code points, what is kept before the
    truncation suffix is a prefix of the payload, byte for byte, and holds
    exactly 2048 code points; the suffix counts the code points that were
    left out. *)
Theorem limit_cuts_between_characters value :
  utf8_Valid value = true ->
  (maxLogPayloadRunes < runeCount value)%nat ->
  exists kept,
    applyLogLimit value
    = kept ++ truncatedSuffix (Z.of_nat (runeCount value) - Z.of_nat maxLogPayloadRunes)
    /\ kept `prefix_of` value
    /\ runeCount kept = maxLogPayloadRunes.
Proof.
  intros Hvalid Hlong. unfold applyLogLimit.
  case_decide; [unfold runeCount in Hlong; lia|].
  eexists. split; [reflexivity|]. split.
  - rewrite <- (encodeRunes_runes value) at 2 by done.
    apply encodeRunes_take_prefix.
  - unfold runeCount in *.
    rewrite <- (app_nil_r (encodeRunes _)), runes_encodeRunes_take, app_nil_r.
    rewrite length_take. lia.
Qed.

(** *** Binary payloads *)

Lemma decodeRune_low b s :
  (decodeRune (b :: s)).1 < 0x80 -> (decodeRune (b :: s)).1 = byteval b.
Proof.
  unfold decodeRune. pose proof (byteval_range b) as H0.
  destruct (classify b) as [| |sz lo hi] eqn:Hc; [done|cbn; unfold RuneError; lia|].
  destruct sz as [|[|[|[|[|?]]]]]; try (cbn; unfold RuneError; lia).
  - destruct s as [|b1 t]; [cbn; unfold RuneError; lia|].
    pose proof (byteval_range b1).
    destruct (inRange lo hi b1) eqn:E1; [|cbn; unfold RuneError; lia].
    unfold classify in Hc. revert Hc.
    split_ifs; intros [= <- <-]; unfold inRange in E1; cbn [fst]; lia.
  - destruct s as [|b1 [|b2 t]]; try (cbn; unfold RuneError; lia).
    pose proof (byteval_range b1). pose proof (byteval_range b2).
    destruct (inRange lo hi b1 && isCont b2) eqn:E1; [|cbn; unfold RuneError; lia].
    apply andb_prop in E1 as [E1 E2].
    unfold classify in Hc. revert Hc.
    split_ifs; intros [= <- <-]; unfold inRange, isCont in *; cbn [fst]; lia.
  - destruct s as [|b1 [|b2 [|b3 t]]]; try (cbn; unfold RuneError; lia).
    pose proof (byteval_range b1). pose proof (byteval_range b2).
    pose proof (byteval_range b3).
    destruct (inRange lo hi b1 && isCont b2 && isCont b3) eqn:E1;
      [|cbn; unfold RuneError; lia].
    apply andb_prop in E1 as [E1 E3]. apply andb_prop in E1 as [E1 E2].
    unfold classify in Hc. revert Hc.
    split_ifs; intros [= <- <-]; unfold inRange, isCont in *; cbn [fst]; lia.
Qed.

(** A code point below [0x80] in [[]rune(s)] is a byte of [s]. *)
Lemma runes_low s :
  Forall (fun r => r < 0x80 -> exists b, b ∈ s /\ byteval b = r) (runes s).
Proof.
  induction s as [|b s IH] using decode_ind; [constructor|].
  rewrite runes_cons. constructor.
  - intros Hlow. exists b. split; [left|]. symmetry. by apply decodeRune_low.
  - eapply Forall_impl; [exact IH|]. cbn beta. intros r Hr Hlow.
    destruct (Hr Hlow) as (b' & Hin & Hb'). exists b'. split; [|done].
    eapply subseteq_drop. exact Hin.
Qed.

(** The bytes of ordinary text: no control character other than tab, line
    feed and carriage return. *)
Definition plainByte (b : ascii) : Prop :=
  0x20 <= byteval b \/ byteval b = 0x09 \/ byteval b = 0x0A \/ byteval b = 0x0D.

Lemma controlCount_plain sample :
  Forall plainByte sample -> controlCount sample = 0%nat.
Proof.
  intros Hplain. unfold controlCount.
  pose proof (runes_low sample) as Hlow.
  induction Hlow as [|r rs Hr _ IH]; [done|].
  rewrite filter_cons_False; [done|].
  intros (Hn & Hc & Ht & Hctl).
  destruct Hr as (b & Hin & Hb); [lia|].
  rewrite Forall_forall in Hplain. specialize (Hplain b Hin).
  unfold plainByte in Hplain. lia.
Qed.

(** X2. What [isBinaryPayload] takes for binary. A payload that is not
    empty and not valid UTF-8 is binary. A payload of valid UTF-8 whose
    bytes below [0x20] are only tabs, line feeds and carriage returns is
    not, whatever its length. *)
Theorem plain_text_is_not_binary data :
  (data <> [] -> utf8_Valid data = false -> isBinaryPayload data = true) /\
  (utf8_Valid data = true -> Forall plainByte data -> isBinaryPayload data = false).
Proof.
  unfold isBinaryPayload. split.
  - intros Hne Hbad. case_decide as Hl; [by apply length_zero_iff_nil in Hl|].
    by rewrite Hbad.
  - intros Hvalid Hplain. case_decide; [done|]. rewrite Hvalid. cbn [negb].
    apply bool_decide_eq_false.
    rewrite controlCount_plain; [lia|].
    case_decide; [by apply Forall_take|done].
Qed.

(** *** The slots a capture writes *)

Lemma setPayloadIfEmpty_frame c key value k :
  k <> key -> setPayloadIfEmpty c key value !! k = c !! k.
Proof.
  intros Hk. unfold setPayloadIfEmpty. repeat case_decide; try done.
  by rewrite lookup_insert_ne.
Qed.

Lemma setFullPayload_frame c key segments k :
  fullPayloadKeyFor key <> Some k -> setFullPayload c key segments !! k = c !! k.
Proof.
  intros Hk. unfold setFullPayload.
  destruct (fullPayloadKeyFor key) as [fk|]; [|done].
  rewrite lookup_insert_ne; [done|congruence].
Qed.

Lemma appendFullPayloadSegment_frame c key segment k :
  fullPayloadKeyFor key <> Some k -> appendFullPayloadSegment c key segment !! k = c !! k.
Proof.
  intros Hk. unfold appendFullPayloadSegment. case_decide; [done|].
  destruct (fullPayloadKeyFor key) as [fk|]; [|done].
  destruct (c !! fk) as [[]|]; (rewrite lookup_insert_ne; [done|congruence]).
Qed.

(** X3. The three entry points write the preview slot of their key and the
    full payload slot that belongs to it, and no other entry of the
    context. *)
Theorem capture_writes_two_slots c key k :
  k <> key -> fullPayloadKeyFor key <> Some k ->
  (forall data, (CapturePayloadForLog c key data).1 !! k = c !! k) /\
  (forall value, (CapturePayloadStringForLog c key value).1 !! k = c !! k) /\
  (forall chunk, AppendPayloadChunkForLog c key chunk !! k = c !! k).
Proof.
  intros Hk Hfk. split; [|split].
  - intros data. unfold CapturePayloadForLog. cbn [fst].
    destruct (_ && _); rewrite ?setFullPayload_frame by done;
      by apply setPayloadIfEmpty_frame.
  - intros value. unfold CapturePayloadStringForLog. case_decide; [done|].
    cbn [fst]. rewrite setFullPayload_frame by done.
    by apply setPayloadIfEmpty_frame.
  - intros chunk. unfold AppendPayloadChunkForLog. cbv zeta.
    repeat case_match; try done;
      rewrite appendFullPayloadSegment_frame by done;
      by rewrite ?lookup_insert_ne by done.
Qed.

(** X4. A binary payload is never kept: [CapturePayloadForLog] returns
    the notice with the number of bytes, leaves every entry of the context
    other than the preview slot as it was (the full payload slot too), and
    leaves the whole context as it was when the preview slot is taken. *)
Theorem binary_payload_is_not_kept c key data :
  isBinaryPayload data = true ->
  (CapturePayloadForLog c key data).2 = binaryNotice data /\
  (forall k, k <> key -> (CapturePayloadForLog c key data).1 !! k = c !! k) /\
  (GetString c key <> [] -> (CapturePayloadForLog c key data).1 = c).
Proof.
  intros Hbin. unfold CapturePayloadForLog. cbn [fst snd].
  rewrite Hbin, andb_false_r, formatPayloadForLog_cases, Hbin.
  split; [done|]. split.
  - intros k Hk. by apply setPayloadIfEmpty_frame.
  - intros He. unfold setPayloadIfEmpty. case_decide; [done|]. by case_decide.
Qed.

(** X5. A second buffered capture under a key whose preview slot is taken
    returns the preview of the new payload and leaves the stored preview as
    it was, but replaces the full payload: after it, the preview and the
    full payload stem from different payloads. *)
Theorem first_preview_stays c key fk :
  GetString c key <> [] -> fullPayloadKeyFor key = Some fk ->
  (forall value,
     value <> [] ->
     let r := CapturePayloadStringForLog c key value in
     r.2 = applyLogLimit value /\
     GetString r.1 key = GetString c key /\
     GetFullPayloadString r.1 fk = value) /\
  (forall data,
     data <> [] -> isBinaryPayload data = false ->
     let r := CapturePayloadForLog c key data in
     r.2 = applyLogLimit data /\
     GetString r.1 key = GetString c key /\
     GetFullPayloadString r.1 fk = data).
Proof.
  intros He Hk.
  assert (forall value, setPayloadIfEmpty c key value = c) as Hkeep.
  { intros value. unfold setPayloadIfEmpty. case_decide; [done|]. by case_decide. }
  split.
  - intros value Hv. cbv zeta. unfold CapturePayloadStringForLog.
    case_decide; [done|]. cbn [fst snd]. rewrite Hkeep.
    split; [done|]. split; [apply GetString_setFullPayload|].
    rewrite (setFullPayload_read _ _ fk) by done. apply app_nil_r.
  - intros data Hd Hbin. cbv zeta. unfold CapturePayloadForLog. cbn [fst snd].
    rewrite Hbin, bool_decide_eq_true_2 by (destruct data; [done|simpl; lia]).
    cbn [negb andb]. rewrite Hkeep, formatPayloadForLog_cases, Hbin.
    split; [done|]. split; [apply GetString_setFullPayload|].
    rewrite (setFullPayload_read _ _ fk) by done. apply app_nil_r.
Qed.

(** X6. How [appendFullPayloadSegment] and [GetFullPayloadString]
    compose. On a slot that is empty or holds a list of strings or a
    string, a new segment extends what is read by that segment; on a slot
    that holds anything else, what was there is dropped and the segment is
    all that is read. *)
Theorem segment_extends_or_replaces c key fk segment :
  fullPayloadKeyFor key = Some fk -> segment <> [] ->
  let c' := appendFullPayloadSegment c key segment in
  match c !! fk with
  | None | Some (VStrings _) | Some (VString _) =>
    GetFullPayloadString c' fk = GetFullPayloadString c fk ++ segment
  | Some (VBytes _) | Some (VOther _) =>
    GetFullPayloadString c' fk = segment
  end.
Proof.
  intros Hk Hs. cbv zeta. unfold appendFullPayloadSegment, GetFullPayloadString.
  case_decide; [done|]. rewrite Hk.
  destruct (c !! fk) as [[]|]; rewrite lookup_insert_eq; unfold Join;
    rewrite ?concat_app; simpl; by rewrite ?app_nil_r.
Qed.


(** *** The earlier revision *)

(** The keys of the full payload slots. *)
Definition isFullKey (k : ContextKey) : bool :=
  match k with
  | ContextKeyLoggedRequestBodyFull | ContextKeyLoggedResponseBodyFull => true
  | _ => false
  end.

(** Two contexts hold the same entries outside the full payload slots. *)
Definition samePreviews (c c0 : Context) : Prop :=
  forall k, isFullKey k = false -> c !! k = c0 !! k.

(** A call of one of the three entry points. *)
Inductive captureCall : Type :=
  | CallCapture (key : ContextKey) (data : gostring)
  | CallCaptureString (key : ContextKey) (value : gostring)
  | CallAppend (key : ContextKey) (chunk : gostring).

Definition callKey (call : captureCall) : ContextKey :=
  match call with
  | CallCapture key _ | CallCaptureString key _ | CallAppend key _ => key
  end.

(** The context after a call and the preview it returns, if it returns
    one. *)
Definition perform (c : Context) (call : captureCall) : Context * option gostring :=
  match call with
  | CallCapture key data =>
    let r := CapturePayloadForLog c key data in (r.1, Some r.2)
  | CallCaptureString key value =>
    let r := CapturePayloadStringForLog c key value in (r.1, Some r.2)
  | CallAppend key chunk => (AppendPayloadChunkForLog c key chunk, None)
  end.

Definition performLegacy (c : Context) (call : captureCall)
    : Context * option gostring :=
  match call with
  | CallCapture key data =>
    let r := PayloadCaptureLegacy.CapturePayloadForLog c key data in (r.1, Some r.2)
  | CallCaptureString key value =>
    let r := PayloadCaptureLegacy.CapturePayloadStringForLog c key value in
    (r.1, Some r.2)
  | CallAppend key chunk =>
    (PayloadCaptureLegacy.AppendPayloadChunkForLog c key chunk, None)
  end.

(** A sequence of calls: the final context and what the calls returned. *)
Fixpoint performAll (step : Context -> captureCall -> Context * option gostring)
    (c : Context) (calls : list captureCall) : Context * list (option gostring) :=
  match calls with
  | [] => (c, [])
  | call :: calls' =>
    let '(c', returned) := step c call in
    let '(c'', rest) := performAll step c' calls' in
    (c'', returned :: rest)
  end.

Lemma fullPayloadKeyFor_full key fk :
  fullPayloadKeyFor key = Some fk -> isFullKey fk = true.
Proof. destruct key; simpl; intros [= <-]; done. Qed.

Lemma samePreviews_GetString c c0 key :
  samePreviews c c0 -> isFullKey key = false -> GetString c key = GetString c0 key.
Proof. intros H Hk. unfold GetString. by rewrite (H key Hk). Qed.

Lemma samePreviews_insert c c0 key v :
  samePreviews c c0 -> samePreviews (<[key := v]> c) (<[key := v]> c0).
Proof.
  intros H k Hk. destruct (decide (k = key)) as [->|Hne].
  - by rewrite !lookup_insert_eq.
  - rewrite !lookup_insert_ne by done. by apply H.
Qed.

Lemma samePreviews_setPayloadIfEmpty c c0 key value :
  samePreviews c c0 -> isFullKey key = false ->
  samePreviews (setPayloadIfEmpty c key value) (setPayloadIfEmpty c0 key value).
Proof.
  intros H Hk. unfold setPayloadIfEmpty.
  rewrite (samePreviews_GetString c c0) by done.
  repeat case_decide; try done. by apply samePreviews_insert.
Qed.

Lemma samePreviews_setFullPayload c c0 key segments :
  samePreviews c c0 -> samePreviews (setFullPayload c key segments) c0.
Proof.
  intros H k Hk. rewrite setFullPayload_frame; [by apply H|].
  intros Hfk. apply fullPayloadKeyFor_full in Hfk. congruence.
Qed.

Lemma samePreviews_appendFullPayloadSegment c c0 key segment :
  samePreviews c c0 -> samePreviews (appendFullPayloadSegment c key segment) c0.
Proof.
  intros H k Hk. rewrite appendFullPayloadSegment_frame; [by apply H|].
  intros Hfk. apply fullPayloadKeyFor_full in Hfk. congruence.
Qed.

Lemma perform_legacy c c0 call :
  samePreviews c c0 -> isFullKey (callKey call) = false ->
  samePreviews (perform c call).1 (performLegacy c0 call).1 /\
  (perform c call).2 = (performLegacy c0 call).2.
Proof.
  intros H Hk. destruct call as [key data|key value|key chunk]; cbn in Hk.
  - unfold perform, performLegacy, CapturePayloadForLog,
      PayloadCaptureLegacy.CapturePayloadForLog. cbn [fst snd].
    split; [|done].
    destruct (_ && _); [apply samePreviews_setFullPayload|];
      by apply samePreviews_setPayloadIfEmpty.
  - unfold perform, performLegacy, CapturePayloadStringForLog,
      PayloadCaptureLegacy.CapturePayloadStringForLog.
    case_decide; [done|]. cbn [fst snd]. split; [|done].
    apply samePreviews_setFullPayload. by apply samePreviews_setPayloadIfEmpty.
  - unfold perform, performLegacy, AppendPayloadChunkForLog,
      PayloadCaptureLegacy.AppendPayloadChunkForLog. cbn [fst snd]. cbv zeta.
    split; [|done]. rewrite (samePreviews_GetString c c0) by done.
    repeat case_match; try done;
      apply samePreviews_appendFullPayloadSegment; try done;
      by apply samePreviews_insert.
Qed.

(** X7. The full payload slots left the previews as they were. For every
    sequence of calls of the three entry points under keys that are not
    full payload keys, the later revision and the earlier one return the
    same previews and end with contexts that differ at most in the two
    full payload slots. *)
Theorem previews_as_before calls : forall c c0,
  samePreviews c c0 ->
  Forall (fun call => isFullKey (callKey call) = false) calls ->
  samePreviews (performAll perform c calls).1 (performAll performLegacy c0 calls).1 /\
  (performAll perform c calls).2 = (performAll performLegacy c0 calls).2.
Proof.
  induction calls as [|call calls IH]; intros c c0 H Hkeys; [done|].
  apply Forall_cons in Hkeys as [Hk Hkeys].
  destruct (perform_legacy c c0 call H Hk) as [Hc Hr].
  cbn [performAll].
  destruct (perform c call) as [c1 r1], (performLegacy c0 call) as [c2 r2].
  cbn [fst snd] in Hc, Hr. subst r2.
  destruct (IH c1 c2 Hc Hkeys) as [Hc' Hr'].
  destruct (performAll perform c1 calls) as [c1' rs1],
           (performAll performLegacy c2 calls) as [c2' rs2].
  cbn [fst snd] in *. split; [done|by f_equal].
Qed.


(** *** Instances *)

(** 2049 two-byte characters. *)
Definition longText : gostring := concat (replicate 2049 (lit "é")).

Lemma limit_cuts_between_characters_witness :
  exists kept,
    applyLogLimit longText = kept ++ truncatedSuffix 1
    /\ kept `prefix_of` longText
    /\ runeCount kept = 2048%nat.
Proof.
  assert (utf8_Valid longText = true) as Hvalid by (vm_compute; reflexivity).
  assert (runeCount longText = 2049%nat) as Hcount by (vm_compute; reflexivity).
  assert (maxLogPayloadRunes < runeCount longText)%nat as Hlong
    by (rewrite Hcount; apply (bool_decide_unpack _); vm_compute; exact I).
  destruct (limit_cuts_between_characters longText Hvalid Hlong)
    as (kept & Hcut & Hprefix & Hkept).
  rewrite Hcount in Hcut.
  exists kept. split; [exact Hcut|]. split; [exact Hprefix|exact Hkept].
Defined.

#[local] Instance plainByte_dec b : Decision (plainByte b).
Proof. unfold plainByte. apply _. Defined.

Lemma plain_text_is_not_binary_witness :
  isBinaryPayload (lit "{'a': 1}") = false.
Proof.
  destruct (plain_text_is_not_binary (lit "{'a': 1}")) as [_ H].
  apply H; [vm_compute; reflexivity|].
  apply (bool_decide_unpack _). vm_compute. exact I.
Defined.


(** A payload of two zero bytes. *)
Definition zeroBytes : gostring := [zero; zero].

(** A context that holds the request preview and an entry of another
    component. *)
Definition busyContext : Context :=
  <[ContextKeyLoggedRequestBody := VString (lit "first")]>
    (<[ContextKeyOther "request_id" := VString (lit "req-1")]> ∅).

Lemma capture_writes_two_slots_witness :
  AppendPayloadChunkForLog busyContext ContextKeyLoggedResponseBody (lit "event")
    !! ContextKeyOther "request_id"
  = Some (VString (lit "req-1")).
Proof.
  assert (ContextKeyOther "request_id" <> ContextKeyLoggedResponseBody) as Hk by done.
  assert (fullPayloadKeyFor ContextKeyLoggedResponseBody
          <> Some (ContextKeyOther "request_id")) as Hfk by done.
  destruct (capture_writes_two_slots busyContext ContextKeyLoggedResponseBody
              (ContextKeyOther "request_id") Hk Hfk) as (_ & _ & Happend).
  rewrite Happend. reflexivity.
Defined.

Lemma binary_payload_is_not_kept_witness :
  (CapturePayloadForLog busyContext ContextKeyLoggedRequestBody zeroBytes).1
  = busyContext.
Proof.
  assert (isBinaryPayload zeroBytes = true) as Hbin by (vm_compute; reflexivity).
  destruct (binary_payload_is_not_kept busyContext ContextKeyLoggedRequestBody
              zeroBytes Hbin) as (_ & _ & Hsame).
  apply Hsame. vm_compute. discriminate.
Defined.

Lemma first_preview_stays_witness :
  let r := CapturePayloadStringForLog busyContext ContextKeyLoggedRequestBody
             (lit "second") in
  r.2 = lit "second"
  /\ GetString r.1 ContextKeyLoggedRequestBody = lit "first"
  /\ GetFullPayloadString r.1 ContextKeyLoggedRequestBodyFull = lit "second".
Proof.
  assert (GetString busyContext ContextKeyLoggedRequestBody <> []) as He
    by (vm_compute; discriminate).
  destruct (first_preview_stays busyContext ContextKeyLoggedRequestBody
              ContextKeyLoggedRequestBodyFull He eq_refl) as [Hstring _].
  assert (lit "second" <> []) as Hv by discriminate.
  destruct (Hstring (lit "second") Hv) as (Hr & Hp & Hf).
  cbv zeta. split; [|split].
  - rewrite Hr. vm_compute. reflexivity.
  - rewrite Hp. vm_compute. reflexivity.
  - exact Hf.
Defined.

Lemma segment_extends_or_replaces_witness :
  GetFullPayloadString
    (appendFullPayloadSegment
       (<[ContextKeyLoggedResponseBodyFull := VBytes (lit "raw")]> ∅)
       ContextKeyLoggedResponseBody (lit "event"))
    ContextKeyLoggedResponseBodyFull
  = lit "event".
Proof.
  assert (lit "event" <> []) as Hs by discriminate.
  exact (segment_extends_or_replaces
           (<[ContextKeyLoggedResponseBodyFull := VBytes (lit "raw")]> ∅)
           ContextKeyLoggedResponseBody ContextKeyLoggedResponseBodyFull
           (lit "event") eq_refl Hs).
Defined.

(** A buffered request body, then a streamed response. *)
Definition exampleCalls : list captureCall :=
  [CallCaptureString ContextKeyLoggedRequestBody (lit "{'model': 'm'}");
   CallAppend ContextKeyLoggedResponseBody (lit "data-1 ");
   CallAppend ContextKeyLoggedResponseBody (lit "[DONE]");
   CallCapture ContextKeyLoggedResponseBody (lit "late")].

Lemma previews_as_before_witness :
  (performAll perform ∅ exampleCalls).2 = (performAll performLegacy ∅ exampleCalls).2
  /\ GetString (performAll perform ∅ exampleCalls).1 ContextKeyLoggedResponseBody
     = GetString (performAll performLegacy ∅ exampleCalls).1 ContextKeyLoggedResponseBody.
Proof.
  assert (samePreviews ∅ ∅) as Hsame by (intros k _; reflexivity).
  assert (Forall (fun call => isFullKey (callKey call) = false) exampleCalls) as Hkeys
    by (repeat constructor).
  destruct (previews_as_before exampleCalls ∅ ∅ Hsame Hkeys) as [Hc Hr].
  split; [exact Hr|]. apply samePreviews_GetString; [exact Hc|reflexivity].
Defined.

End PayloadCaptureExtra.

(** ** Retention: sweeps that run to their end, the summary line, the cleaner *)

Module LogRetentionExtra.
Import LogRetention LogRetentionSpec LogRetentionCleaner.

(** *** Lists *)

Lemma sublist_filter_length {A} (P : A -> Prop) `{!forall x, Decision (P x)}
    (l1 l2 : list A) :
  l1 `sublist_of` l2 -> Forall P l1 -> (length l1 <= length (filter P l2))%nat.
Proof.
  induction 1 as [|x l1 l2 _ IH|x l1 l2 _ IH]; intros HP.
  - simpl. lia.
  - apply Forall_cons in HP as [Hx HP]. rewrite filter_cons_True by done.
    simpl. specialize (IH HP). lia.
  - specialize (IH HP). rewrite filter_cons. case_decide; simpl; lia.
Qed.

(** A sublist of [l] that satisfies [P] throughout and is as long as
    [filter P l] is [filter P l]. *)
Lemma sublist_filter_eq {A} (P : A -> Prop) `{!forall x, Decision (P x)}
    (l1 l2 : list A) :
  l1 `sublist_of` l2 -> Forall P l1 -> length l1 = length (filter P l2) ->
  l1 = filter P l2.
Proof.
  induction 1 as [|x l1 l2 Hs IH|x l1 l2 Hs IH]; intros HP Hlen.
  - done.
  - apply Forall_cons in HP as [Hx HP]. rewrite filter_cons_True in Hlen |- * by done.
    f_equal. apply IH; [done|]. simpl in Hlen. lia.
  - rewrite filter_cons in Hlen |- *. case_decide.
    + pose proof (sublist_filter_length P l1 l2 Hs HP). simpl in Hlen. lia.
    + by apply IH.
Qed.

Section Sweep.

Context {LogDetail LogRecord : Type}.
Variable CreatedAt : LogDetail -> Z.
Variable AddDate : Z -> Z -> Z.

Abbreviation expired := (LogRetention.expired CreatedAt).
Abbreviation stale := (LogRetention.stale CreatedAt).
Abbreviation fresh := (LogRetention.fresh CreatedAt).
Abbreviation cutoffOf := (LogRetention.cutoffOf AddDate).

Lemma survivors_are_fresh cutoff (rows deleted rows' : list LogDetail) :
  rows ≡ₚ deleted ++ rows' -> rows' `sublist_of` rows ->
  Forall (fun r => expired cutoff r = true) deleted ->
  Forall (fun r => expired cutoff r = false) rows' ->
  rows' = fresh cutoff rows /\ length deleted = length (stale cutoff rows).
Proof.
  intros Hperm Hsub Hdel Hkeep.
  assert (Forall (fun r => cutoff <= CreatedAt r) rows') as Hkeep'.
  { eapply Forall_impl; [exact Hkeep|]. unfold LogRetention.expired. intros r. lia. }
  assert (Forall (fun r => CreatedAt r < cutoff) deleted) as Hdel'.
  { eapply Forall_impl; [exact Hdel|]. unfold LogRetention.expired. intros r. lia. }
  assert (fresh cutoff deleted = []) as Hfd.
  { apply filter_nothing. eapply Forall_impl; [exact Hdel'|]. intros r. simpl. lia. }
  assert (stale cutoff rows' = []) as Hsr.
  { apply filter_nothing. eapply Forall_impl; [exact Hkeep'|]. intros r. simpl. lia. }
  split.
  - apply sublist_filter_eq; [done..|].
    unfold LogRetention.fresh in Hfd. rewrite Hperm, filter_app, Hfd. simpl.
    by rewrite filter_all.
  - unfold LogRetention.stale in *. rewrite Hperm, filter_app, Hsr, app_nil_r.
    by rewrite filter_all.
Qed.

(** *** A sweep that nothing disturbs, on MySQL *)

(** An event of a sweep that runs to its end: a statement that succeeded or
    a pause. *)
Definition quiet (e : event LogDetail) : Prop :=
  match e with
  | EvDelete _ | EvSleep _ => True
  | _ => False
  end.

Lemma pruneLoop_quiet env cutoff fuel :
  undisturbed env ->
  forall i rows total trace rows' total' trace',
    pruneLoop CreatedAt MySQL fuel env cutoff i rows total trace
    = Some (rows', total', trace') ->
    exists tr, trace' = trace ++ tr /\ Forall quiet tr.
Proof.
  intros Hu. induction fuel as [|fuel IH];
    intros i rows total trace rows' total' trace'; [done|].
  cbn [pruneLoop orderedDelete]. rewrite Hu.
  destruct (deleteOldest CreatedAt logDetailCleanupBatchSize cutoff rows)
    as [deleted rows1].
  repeat case_decide.
  - intros [= <- <- <-]. exists ([EvDelete deleted]). by repeat constructor.
  - intros [= <- <- <-]. exists ([EvDelete deleted]). by repeat constructor.
  - intros Hloop. destruct (IH _ _ _ _ _ _ _ Hloop) as (tr & -> & Hq).
    exists ([EvDelete deleted; EvSleep 100] ++ tr).
    split; [by rewrite <- !app_assoc|].
    apply Forall_app. split; [by repeat constructor|done].
Qed.

(** The trace of a sweep that runs to its end: full batches with their
    pauses, then the batch that is not full. *)
Lemma paced_quiet (tr : list (event LogDetail)) :
  pacedExactly tr -> Forall quiet tr ->
  exists fullBatches final,
    tr = flat_map (fun d => [EvDelete d; EvSleep 100]) fullBatches ++ [EvDelete final]
    /\ Forall (fun d => length d = logDetailCleanupBatchSize) fullBatches
    /\ (length final < logDetailCleanupBatchSize)%nat.
Proof.
  intros (fulls & final & -> & Hfull & Hfinal) Hq.
  apply Forall_app in Hq as [_ Hq].
  destruct Hfinal as [(d & -> & Hd)|[ -> | -> ]].
  - by exists fulls, d.
  - by apply Forall_cons in Hq as [[] _].
  - by apply Forall_cons in Hq as [[] _].
Qed.

Lemma pruneLoop_undisturbed env cutoff rows :
  undisturbed env ->
  exists fullBatches final,
    pruneLoop CreatedAt MySQL (S (length rows)) env cutoff 0 rows 0 []
    = Some (fresh cutoff rows, length (stale cutoff rows),
            flat_map (fun d => [EvDelete d; EvSleep 100]) fullBatches
            ++ [EvDelete final])
    /\ Forall (fun d => length d = logDetailCleanupBatchSize) fullBatches
    /\ (length final < logDetailCleanupBatchSize)%nat
    /\ concat fullBatches ++ final ≡ₚ stale cutoff rows
    /\ StronglySorted (fun a b => CreatedAt a <= CreatedAt b) (concat fullBatches ++ final).
Proof.
  intros Hu.
  destruct (pruneLoop_ordered CreatedAt env cutoff (S (length rows)) 0%nat rows 0%nat [])
    as (rows' & tr & Hrun & Hpaced & Hperm & Hsub & Hexp & Hsorted & _ & Hdone); [lia|].
  destruct (pruneLoop_quiet env cutoff _ Hu _ _ _ _ _ _ _ Hrun) as (tr0 & Htr & Hq).
  cbn [app] in Htr. subst tr0.
  destruct (paced_quiet tr Hpaced Hq) as (fulls & final & -> & Hfull & Hfinal).
  destruct (survivors_are_fresh cutoff rows _ rows' Hperm Hsub Hexp (Hdone Hu))
    as [-> Hcount].
  assert (deletedRows (flat_map (fun d => [EvDelete d; EvSleep 100]) fulls
                       ++ [EvDelete final]) = concat fulls ++ final) as Hrows.
  { rewrite deletedRows_app. cbn [deletedRows]. rewrite app_nil_r. f_equal.
    clear. induction fulls as [|d fulls IH]; [done|].
    cbn [flat_map app deletedRows concat]. by rewrite IH. }
  exists fulls, final. rewrite Hrun, Hcount. cbn [app]. split; [done|].
  split; [done|]. split; [done|]. rewrite Hrows in *. split; [|done].
  symmetry. assert (Forall (fun r => CreatedAt r < cutoff) (concat fulls ++ final)) as Hst.
  { eapply Forall_impl; [exact Hexp|]. unfold LogRetention.expired. intros r. lia. }
  unfold LogRetention.stale. rewrite Hperm, filter_app.
  fold (stale cutoff (fresh cutoff rows)). rewrite stale_fresh, app_nil_r.
  by rewrite filter_all.
Qed.

(** *** A sweep that nothing disturbs, on PostgreSQL and SQLite *)

Lemma pruneLoop_unordered_undisturbed dialect env cutoff rows :
  dialect <> MySQL -> undisturbed env ->
  pruneLoop CreatedAt dialect (S (length rows)) env cutoff 0 rows 0 []
  = Some (fresh cutoff rows, length (stale cutoff rows),
          EvDelete (stale cutoff rows)
          :: (if decide (logDetailCleanupBatchSize <= length (stale cutoff rows))%nat
              then [EvSleep 100; EvDelete []] else [])).
Proof.
  intros Hd Hu. cbn [pruneLoop]. rewrite Hu, orderedDelete_unordered by done.
  assert (length (stale cutoff rows) <= length rows)%nat as Hgone
    by apply length_filter.
  cbn [app plus].
  destruct (decide (length (stale cutoff rows) = 0%nat)) as [Hz|Hz].
  { rewrite Hz. by rewrite decide_False by (unfold logDetailCleanupBatchSize; lia). }
  destruct (decide (length (stale cutoff rows) < logDetailCleanupBatchSize)%nat)
    as [Hlt|Hge].
  { by rewrite decide_False by lia. }
  rewrite decide_True by lia.
  destruct (length rows) as [|n] eqn:Hn;
    [unfold logDetailCleanupBatchSize in *; lia|].
  cbn [pruneLoop]. rewrite Hu, orderedDelete_unordered by done.
  rewrite stale_fresh, fresh_fresh. cbn [length app].
  by rewrite decide_True by done.
Qed.

(** X8. A sweep that nothing disturbs, statement by statement, with [k]
    rows older than the cutoff. On MySQL it issues [k / 5000] full batches,
    each followed by a pause of 100 ms, and one last batch of [k mod 5000]
    rows (an empty one when [k] is a multiple of 5000); the batches together
    are the rows older than the cutoff, oldest first. On PostgreSQL and
    SQLite one statement deletes the [k] rows; when [k] is 5000 or more the
    sweep pauses and issues a second statement, which deletes nothing. On
    every database the summary line is written, with the count [k], exactly
    when [k] is positive, and the table is left with the other rows in their
    order. *)
Theorem sweep_runs_to_the_end dialect days now env (db : Store LogDetail LogRecord) :
  0 < days -> undisturbed env ->
  let rows := log_details db in
  let cutoff := cutoffOf now days in
  let k := length (stale cutoff rows) in
  exists statements,
    pruneExpiredLogDetails CreatedAt AddDate dialect days now env db
    = Some (mkStore (fresh cutoff rows) (log_records db),
            statements ++ (if decide (0 < k)%nat then [EvLogInfo k days] else []))
    /\ match dialect with
       | MySQL =>
         exists fullBatches final,
           statements
           = flat_map (fun d => [EvDelete d; EvSleep 100]) fullBatches
             ++ [EvDelete final]
           /\ Forall (fun d => length d = logDetailCleanupBatchSize) fullBatches
           /\ length fullBatches = (k / logDetailCleanupBatchSize)%nat
           /\ length final = (k mod logDetailCleanupBatchSize)%nat
           /\ concat fullBatches ++ final ≡ₚ stale cutoff rows
           /\ StronglySorted (fun a b => CreatedAt a <= CreatedAt b)
                             (concat fullBatches ++ final)
       | PostgreSQL | SQLite =>
         statements
         = EvDelete (stale cutoff rows)
           :: (if decide (logDetailCleanupBatchSize <= k)%nat
               then [EvSleep 100; EvDelete []] else [])
       end.
Proof.
  intros Hdays Hu. cbv zeta.
  assert (forall statements,
    pruneLoop CreatedAt dialect (S (length (log_details db))) env
              (cutoffOf now days) 0 (log_details db) 0 []
    = Some (fresh (cutoffOf now days) (log_details db),
            length (stale (cutoffOf now days) (log_details db)), statements) ->
    pruneExpiredLogDetails CreatedAt AddDate dialect days now env db
    = Some (mkStore (fresh (cutoffOf now days) (log_details db)) (log_records db),
            statements
            ++ (if decide (0 < length (stale (cutoffOf now days) (log_details db)))%nat
                then [EvLogInfo (length (stale (cutoffOf now days) (log_details db))) days]
                else []))) as Hsweep.
  { intros statements Hrun. unfold pruneExpiredLogDetails.
    case_decide; [lia|]. rewrite Hrun.
    f_equal. f_equal. case_decide; [done|by rewrite app_nil_r]. }
  destruct dialect.
  - destruct (pruneLoop_undisturbed env (cutoffOf now days) (log_details db) Hu)
      as (fulls & final & Hrun & Hfull & Hfinal & Hperm & Hsorted).
    eexists. split; [by apply Hsweep|]. exists fulls, final.
    assert (length (stale (cutoffOf now days) (log_details db))
            = (logDetailCleanupBatchSize * length fulls + length final)%nat) as Hk.
    { rewrite <- Hperm, length_app. f_equal.
      clear -Hfull. induction Hfull as [|d fulls Hd _ IH]; [simpl; lia|].
      cbn [concat length]. rewrite length_app, IH, Hd. lia. }
    split; [done|]. split; [done|]. rewrite Hk.
    unfold logDetailCleanupBatchSize in *.
    split; [|split; [|done]].
    + rewrite Nat.mul_comm, Nat.div_add_l by lia.
      rewrite Nat.div_small by lia. lia.
    + rewrite Nat.add_comm, Nat.mul_comm, Nat.Div0.mod_add.
      by rewrite Nat.mod_small by lia.
  - eexists. split; [|reflexivity].
    apply Hsweep. by apply pruneLoop_unordered_undisturbed.
  - eexists. split; [|reflexivity].
    apply Hsweep. by apply pruneLoop_unordered_undisturbed.
Qed.

(** X9. Both revisions of the sweep, when no cancellation and no failure
    disturbs them, end with the same table on every database: the rows
    created at the cutoff or later, in table order, and the log records
    untouched. *)
Theorem sweep_forms_agree dialect days now env (db : Store LogDetail LogRecord) :
  0 < days -> undisturbed env ->
  let kept := mkStore (fresh (cutoffOf now days) (log_details db)) (log_records db) in
  exists trace tracePlain,
    pruneExpiredLogDetails CreatedAt AddDate dialect days now env db
    = Some (kept, trace) /\
    pruneExpiredLogDetailsPlain CreatedAt AddDate dialect days now env db
    = Some (kept, tracePlain).
Proof.
  intros Hdays Hu. cbv zeta.
  destruct (pruneLoop_spec CreatedAt dialect env (cutoffOf now days)
              (S (length (log_details db))) 0%nat (log_details db) 0%nat [])
    as (rows1 & tr1 & Hrun & _ & Hperm1 & Hsub1 & Hexp1 & Hdone1 & _); [lia|].
  destruct (survivors_are_fresh (cutoffOf now days) (log_details db) _ rows1
              Hperm1 Hsub1 Hexp1 (Hdone1 Hu)) as [-> _].
  destruct (pruneLoopPlain_spec CreatedAt dialect env (cutoffOf now days)
              (S (length (log_details db))) 0%nat (log_details db) 0%nat [])
    as (rows' & tr & Hplain & Hperm & Hsub & Hexp & Hdone); [lia|].
  destruct (survivors_are_fresh (cutoffOf now days) (log_details db) _ rows'
              Hperm Hsub Hexp) as [-> _].
  { apply Hdone. intros i. by rewrite Hu. }
  unfold pruneExpiredLogDetails, pruneExpiredLogDetailsPlain.
  case_decide; [lia|]. rewrite Hrun, Hplain. eauto.
Qed.

(** An event other than the summary line. *)
Definition notSummary (e : event LogDetail) : Prop :=
  match e with
  | EvLogInfo _ _ => False
  | _ => True
  end.

Lemma pruneLoop_notSummary dialect env cutoff fuel :
  forall i rows total trace rows' total' trace',
    pruneLoop CreatedAt dialect fuel env cutoff i rows total trace
    = Some (rows', total', trace') ->
    Forall notSummary trace -> Forall notSummary trace'.
Proof.
  induction fuel as [|fuel IH];
    intros i rows total trace rows' total' trace'; [done|].
  cbn [pruneLoop]. destruct (env i).
  - destruct (orderedDelete CreatedAt dialect logDetailCleanupBatchSize cutoff rows)
      as [deleted rows1].
    repeat case_decide.
    + intros [= <- <- <-] Ht. apply Forall_app. by repeat constructor.
    + intros [= <- <- <-] Ht. apply Forall_app. by repeat constructor.
    + intros Hloop Ht. eapply IH; [exact Hloop|].
      rewrite !Forall_app. by repeat constructor.
  - intros [= <- <- <-] Ht. apply Forall_app. by repeat constructor.
  - intros [= <- <- <-] Ht. apply Forall_app. by repeat constructor.
Qed.

Lemma pruneLoopPlain_notSummary dialect env cutoff fuel :
  forall i rows total trace rows' total' trace',
    pruneLoopPlain CreatedAt dialect fuel env cutoff i rows total trace
    = Some (rows', total', trace') ->
    Forall notSummary trace -> Forall notSummary trace'.
Proof.
  induction fuel as [|fuel IH];
    intros i rows total trace rows' total' trace'; [done|].
  cbn [pruneLoopPlain].
  destruct (limitedDelete CreatedAt dialect logDetailCleanupBatchSize cutoff rows)
    as [deleted rows1].
  destruct (env i); repeat case_decide;
    try (intros [= <- <- <-] Ht; apply Forall_app; by repeat constructor);
    (intros Hloop Ht; eapply IH; [exact Hloop|];
     rewrite !Forall_app; by repeat constructor).
Qed.

(** X10. The summary line. Whatever happens to a sweep, in either
    revision and on every database, it returns, the table does not grow, and
    the summary line is written last and exactly when rows were deleted,
    with their number; nothing before it is a summary line. *)
Theorem sweep_summary_line dialect days now env (db : Store LogDetail LogRecord) :
  0 < days ->
  (exists db' tr,
     let n := (length (log_details db) - length (log_details db'))%nat in
     pruneExpiredLogDetails CreatedAt AddDate dialect days now env db
     = Some (db', tr ++ if decide (0 < n)%nat then [EvLogInfo n days] else [])
     /\ Forall notSummary tr
     /\ (length (log_details db') <= length (log_details db))%nat) /\
  (exists db' tr,
     let n := (length (log_details db) - length (log_details db'))%nat in
     pruneExpiredLogDetailsPlain CreatedAt AddDate dialect days now env db
     = Some (db', tr ++ if decide (0 < n)%nat then [EvLogInfo n days] else [])
     /\ Forall notSummary tr
     /\ (length (log_details db') <= length (log_details db))%nat).
Proof.
  intros Hdays. split.
  - destruct (pruneLoop_spec CreatedAt dialect env (cutoffOf now days)
                (S (length (log_details db))) 0%nat (log_details db) 0%nat [])
      as (rows' & tr & Hrun & _ & Hperm & _); [lia|].
    pose proof (pruneLoop_notSummary _ _ _ _ _ _ _ _ _ _ _ Hrun (Forall_nil_2 _)) as Hns.
    exists (mkStore rows' (log_records db)), tr. cbv zeta. cbn [log_details].
    assert (length (log_details db) = (length (deletedRows tr) + length rows')%nat)
      as Hlen by (by rewrite Hperm, length_app).
    unfold pruneExpiredLogDetails. case_decide; [lia|]. rewrite Hrun.
    cbn [app plus] in *.
    replace (length (log_details db) - length rows')%nat
      with (length (deletedRows tr)) by lia.
    split; [|split; [done|lia]].
    f_equal. f_equal. case_decide; [done|by rewrite app_nil_r].
  - destruct (pruneLoopPlain_spec CreatedAt dialect env (cutoffOf now days)
                (S (length (log_details db))) 0%nat (log_details db) 0%nat [])
      as (rows' & tr & Hrun & Hperm & _); [lia|].
    pose proof (pruneLoopPlain_notSummary _ _ _ _ _ _ _ _ _ _ _ Hrun (Forall_nil_2 _)) as Hns.
    exists (mkStore rows' (log_records db)), tr. cbv zeta. cbn [log_details].
    assert (length (log_details db) = (length (deletedRows tr) + length rows')%nat)
      as Hlen by (by rewrite Hperm, length_app).
    unfold pruneExpiredLogDetailsPlain. case_decide; [lia|]. rewrite Hrun.
    cbn [app plus] in *.
    replace (length (log_details db) - length rows')%nat
      with (length (deletedRows tr)) by lia.
    split; [|split; [done|lia]].
    f_equal. f_equal. case_decide; [done|by rewrite app_nil_r].
Qed.

(** A row outlives a sweep: retention is off, or the row is not older than
    the cutoff of that sweep, [AddDate(0, 0, -days)] of its clock reading. *)
Definition outlives (r : LogDetail) (m : moment) : Prop :=
  moment_days m <= 0 \/ cutoffOf (moment_now m) (moment_days m) <= CreatedAt r.

#[local] Instance outlives_dec r m : Decision (outlives r m).
Proof. unfold outlives. apply _. Defined.

(** No statement of these sweeps fails. *)
Definition noFailure (moments : list moment) : Prop :=
  Forall (fun m => forall i, moment_fails m i = false) moments.

Lemma sweeps_without_failure dialect moments :
  noFailure moments ->
  forall (db : Store LogDetail LogRecord) log,
  exists log',
    sweeps CreatedAt AddDate dialect moments db log
    = Some (mkStore (filter (fun r => Forall (outlives r) moments) (log_details db))
                    (log_records db), log').
Proof.
  induction 1 as [|m moments Hm _ IH]; intros db log.
  - exists log. cbn [sweeps]. f_equal. f_equal. destruct db as [details records].
    cbn [log_details log_records]. f_equal.
    induction details as [|r details IHd]; [done|].
    rewrite filter_cons_True by constructor. by f_equal.
  - cbn [sweeps].
    assert (exists trace,
      pruneExpiredLogDetails CreatedAt AddDate dialect (moment_days m) (moment_now m)
        (background (moment_fails m)) db
      = Some (mkStore (filter (fun r => outlives r m) (log_details db))
                      (log_records db), trace)) as [trace ->].
    { destruct (decide (moment_days m <= 0)) as [Hoff|Hon].
      - exists []. unfold pruneExpiredLogDetails. rewrite decide_True by done.
        f_equal. f_equal. destruct db as [details records].
        cbn [log_details log_records]. f_equal.
        induction details as [|r details IHd]; [done|].
        rewrite filter_cons_True by (by left). by f_equal.
      - destruct (sweep_forms_agree dialect (moment_days m) (moment_now m)
                    (background (moment_fails m)) db) as (trace & _ & -> & _);
          [lia|intros i; unfold background; by rewrite Hm|].
        exists trace. f_equal. f_equal. f_equal. unfold LogRetention.fresh.
        apply list_filter_iff. intros r. unfold outlives. lia. }
    destruct (IH (mkStore (filter (fun r => outlives r m) (log_details db))
                          (log_records db)) (log ++ trace)) as [log' ->].
    exists log'. cbn [log_details log_records]. f_equal. f_equal. f_equal.
    rewrite list_filter_filter. apply list_filter_iff. intros r.
    rewrite Forall_cons. tauto.
Qed.

(** X11. The cleaner. After the first sweep and any number of ticks, if no
    statement failed, the table holds exactly the rows that outlived every
    sweep (retention was off, or the row was not older than the cutoff of
    that sweep), in table order, and the log records are untouched, on every
    database. *)
Theorem cleaner_keeps_what_outlives_every_sweep dialect start ticks
    (db : Store LogDetail LogRecord) :
  noFailure (start :: ticks) ->
  exists log,
    runLogDetailCleanupLoop CreatedAt AddDate dialect start ticks db
    = Some (mkStore (filter (fun r => Forall (outlives r) (start :: ticks))
                            (log_details db))
                    (log_records db), log).
Proof. intros H. by apply sweeps_without_failure. Qed.

End Sweep.

(** *** Instances *)

(** Log details that are just their creation time; two log records. *)
Definition sampleStore : Store Z unit :=
  mkStore [100; 5; 86400; 7; 86399; 5; 200000] [(); ()].

(** One log detail more than a batch holds, all of the first second, and
    one of the third day. *)
Definition crowdedStore : Store Z unit :=
  mkStore (replicate (S logDetailCleanupBatchSize) 0 ++ [200000]) [()].

(** One day of retention at time 172800 in UTC, on SQLite: one statement
    deletes the 5001 old rows, and the statement after the pause deletes
    nothing. *)
Lemma sweep_runs_to_the_end_witness :
  pruneExpiredLogDetails id AddDateUTC SQLite 1 172800 (fun _ => Run) crowdedStore
  = Some (mkStore [200000] [()],
          [EvDelete (replicate (S logDetailCleanupBatchSize) 0); EvSleep 100;
           EvDelete []; EvLogInfo (S logDetailCleanupBatchSize) 1]).
Proof.
  assert (undisturbed (fun _ : nat => Run)) as Hu by (intros i; reflexivity).
  destruct (sweep_runs_to_the_end id AddDateUTC SQLite 1 172800 (fun _ => Run)
              crowdedStore) as (statements & Hrun & ->); [lia|exact Hu|].
  rewrite Hrun. vm_compute. reflexivity.
Defined.

Lemma sweep_forms_agree_witness :
  exists trace tracePlain,
    pruneExpiredLogDetails id AddDateUTC MySQL 1 172800 (fun _ => Run) sampleStore
    = Some (mkStore [86400; 200000] [(); ()], trace) /\
    pruneExpiredLogDetailsPlain id AddDateUTC MySQL 1 172800 (fun _ => Run) sampleStore
    = Some (mkStore [86400; 200000] [(); ()], tracePlain).
Proof.
  assert (undisturbed (fun _ : nat => Run)) as Hu by (intros i; reflexivity).
  apply (sweep_forms_agree id AddDateUTC MySQL 1 172800 (fun _ => Run) sampleStore);
    [lia|exact Hu].
Defined.

Lemma sweep_summary_line_witness :
  exists db' tr,
    pruneExpiredLogDetails id AddDateUTC MySQL 1 172800
      (fun i => if i is 0%nat then DbError else Run) sampleStore
    = Some (db', tr ++ if decide (0 < 7 - length (log_details db'))%nat
                       then [EvLogInfo (7 - length (log_details db')) 1] else []).
Proof.
  destruct (sweep_summary_line id AddDateUTC MySQL 1 172800
              (fun i => if i is 0%nat then DbError else Run) sampleStore)
    as [(db' & tr & Hrun & _) _]; [lia|].
  exists db', tr. exact Hrun.
Defined.

Lemma cleaner_keeps_what_outlives_every_sweep_witness :
  exists log,
    runLogDetailCleanupLoop id AddDateUTC PostgreSQL (mkMoment 2 172800 (fun _ => false))
      [mkMoment 0 194400 (fun _ => false); mkMoment 1 216000 (fun _ => false)]
      sampleStore
    = Some (mkStore [200000] [(); ()], log).
Proof.
  destruct (cleaner_keeps_what_outlives_every_sweep id AddDateUTC PostgreSQL
              (mkMoment 2 172800 (fun _ => false))
              [mkMoment 0 194400 (fun _ => false); mkMoment 1 216000 (fun _ => false)]
              sampleStore) as [log Hrun].
  - repeat constructor.
  - exists log. rewrite Hrun. vm_compute. reflexivity.
Defined.

End LogRetentionExtra.

(** ** Stream aggregation: reasoning, skipped objects, independent blocks *)

Module StreamAggregateExtra.
Import StreamAggregate StreamAggregateSpec.

(** *** OpenAI chunks: only the first deltas count *)

(** What [chunkStep] does with the delta of a stream object. *)
Definition deltaStep (st : OpenAIState) (delta : Delta) : OpenAIState :=
  {| st_role := orElse (delta_role delta) (st_role st);
     st_fullContent := st_fullContent st ++ default [] (delta_content delta);
     st_reasoningBuffer :=
       if present (delta_reasoning_content delta)
       then st_reasoningBuffer st
            ++ normaliseContent (default [] (delta_reasoning_content delta))
       else st_reasoningBuffer st;
     st_toolCalls :=
       forEach_i toolDeltaStep (default [] (delta_tool_calls delta)) 0
                 (st_toolCalls st) |}.

Lemma fold_firstDeltas chunks : forall st,
  fold_left chunkStep chunks st = fold_left deltaStep (firstDeltas chunks) st.
Proof.
  induction chunks as [|chunk chunks IH]; intros st; [done|].
  cbn [fold_left]. rewrite IH, firstDeltas_cons.
  destruct (firstDelta chunk) as [delta|] eqn:Hd.
  - by rewrite (chunkStep_delta _ _ _ Hd).
  - by rewrite chunkStep_no_delta.
Qed.

(** The reasoning of a stream: the reasoning fragments of the deltas,
    each normalised, in list order. *)
Definition reasoningOf (chunks : list Chunk) : jsstring :=
  concat (normaliseContent <$> omap delta_reasoning_content (firstDeltas chunks)).

Lemma normaliseContent_nil : normaliseContent [] = [].
Proof. done. Qed.

Lemma fold_reasoning deltas : forall st,
  st_reasoningBuffer (fold_left deltaStep deltas st)
  = st_reasoningBuffer st
    ++ concat (normaliseContent <$> omap delta_reasoning_content deltas).
Proof.
  induction deltas as [|delta deltas IH]; intros st; cbn [fold_left].
  { simpl. by rewrite app_nil_r. }
  rewrite IH. cbn [deltaStep st_reasoningBuffer omap list_omap].
  destruct (delta_reasoning_content delta) as [r|]; [|done].
  cbn [present default fmap list_fmap concat].
  destruct (truthy r) eqn:Hr; [by rewrite <- app_assoc|].
  apply negb_false_iff, bool_decide_eq_true in Hr. subst r.
  by rewrite normaliseContent_nil.
Qed.

(** X12. The reasoning of an OpenAI stream: the message carries the
    reasoning fragments of the first deltas, each with its escapes decoded,
    concatenated in list order, and carries no reasoning when that text is
    blank. *)
Theorem openai_reasoning (chunks : list Chunk) :
  chunks <> [] ->
  exists message,
    aggregateOpenAIStreamChunks chunks = Some message /\
    msg_reasoning message
    = if truthy (trim (reasoningOf chunks)) then Some (reasoningOf chunks) else None.
Proof.
  intros Hne. unfold aggregateOpenAIStreamChunks.
  case_decide as Hlen; [by destruct chunks|].
  eexists. split; [reflexivity|]. cbn [msg_reasoning].
  by rewrite fold_firstDeltas, fold_reasoning.
Qed.

(** X13. Only the first deltas count: two lists of stream objects (not
    empty) with the same sequence of [choices[0].delta] objects aggregate
    to the same message. Stream objects without choices or without a delta
    in the first choice, choices after the first, and usage fields never
    change the message. *)
Theorem only_first_deltas_count (chunks chunks' : list Chunk) :
  chunks <> [] -> chunks' <> [] ->
  firstDeltas chunks = firstDeltas chunks' ->
  aggregateOpenAIStreamChunks chunks = aggregateOpenAIStreamChunks chunks'.
Proof.
  intros Hne Hne' Hd. unfold aggregateOpenAIStreamChunks.
  rewrite (decide_False (P := length chunks = 0%nat))
    by (intros Hl; by apply nil_length_inv in Hl).
  rewrite (decide_False (P := length chunks' = 0%nat))
    by (intros Hl; by apply nil_length_inv in Hl).
  by rewrite !fold_firstDeltas, Hd.
Qed.


(** The stream objects of the examples. *)
Definition usageChunk : Chunk := mkChunk [] (Some (mkUsage 1 2 3)) None.
Definition reasoningChunk (text : string) : Chunk :=
  mkChunk [mkChoice (Some (mkDelta None None (Some (jlit text)) None)); mkChoice None]
          None None.

Lemma openai_reasoning_witness :
  exists message,
    aggregateOpenAIStreamChunks
      [reasoningChunk "Let me"; usageChunk; reasoningChunk " think\u002e"]
    = Some message /\
    msg_reasoning message = Some (jlit "Let me think.").
Proof.
  destruct (openai_reasoning
              [reasoningChunk "Let me"; usageChunk; reasoningChunk " think\u002e"])
    as (message & Hm & Hr); [done|].
  exists message. split; [exact Hm|]. rewrite Hr. vm_compute. reflexivity.
Defined.

Lemma only_first_deltas_count_witness :
  aggregateOpenAIStreamChunks [reasoningChunk "a"; usageChunk; usageChunk]
  = aggregateOpenAIStreamChunks
      [mkChunk [mkChoice (Some (mkDelta None None (Some (jlit "a")) None))] None None].
Proof.
  apply only_first_deltas_count; [done|done|reflexivity].
Defined.


(** *** Anthropic events *)

Section Claude.

Variable JSON_parse : jsstring -> option json.

Abbreviation eventStep := (StreamAggregate.eventStep JSON_parse).
Abbreviation blockStop := (StreamAggregate.blockStop JSON_parse).
Abbreviation finalState := (StreamAggregateSpec.finalState JSON_parse).
Abbreviation aggregateClaudeStreamEvents :=
  (StreamAggregate.aggregateClaudeStreamEvents JSON_parse).

(** The event types that [aggregateClaudeStreamEvents] has a case for. *)
Definition knownTypes : list jsstring :=
  [jlit "message_start"; jlit "content_block_start"; jlit "content_block_delta";
   jlit "content_block_stop"; jlit "message_delta"; jlit "message_stop"].

Definition known (event : Event) : Prop := default [] (ev_type event) ∈ knownTypes.

#[local] Instance known_dec event : Decision (known event).
Proof. unfold known. apply _. Defined.

Lemma eventStep_unknown st event : ~ known event -> eventStep st event = st.
Proof.
  unfold known, knownTypes. rewrite !elem_of_cons, elem_of_nil.
  intros Hk. unfold StreamAggregate.eventStep.
  repeat case_decide; try done; tauto.
Qed.

Lemma fold_known events : forall st,
  fold_left eventStep events st = fold_left eventStep (filter known events) st.
Proof.
  induction events as [|event events IH]; intros st; [done|].
  cbn [fold_left]. rewrite filter_cons. case_decide as Hk.
  - cbn [fold_left]. apply IH.
  - rewrite eventStep_unknown by done. apply IH.
Qed.

(** X14. Events of a type the aggregator has no case for (keep-alive
    events, events without a type) are skipped: the message is that of the
    other events, and a list of nothing but such events gives the message
    with the role ["assistant"] and no content. *)
Theorem unknown_events_are_skipped (events : list Event) :
  events <> [] ->
  aggregateClaudeStreamEvents events
  = if decide (filter known events = [])
    then Some {| cm_role := jlit "assistant"; cm_content := None; cm_reasoning := None |}
    else aggregateClaudeStreamEvents (filter known events).
Proof.
  intros Hne. unfold StreamAggregate.aggregateClaudeStreamEvents.
  rewrite (decide_False (P := length events = 0%nat))
    by (intros Hl; by apply nil_length_inv in Hl).
  rewrite fold_known. destruct (decide (filter known events = [])) as [Hf|Hf].
  - rewrite Hf. reflexivity.
  - rewrite (decide_False (P := length (filter known events) = 0%nat))
      by (intros Hl; by apply nil_length_inv in Hl).
    by rewrite <- fold_known.
Qed.

(** The top-level reasoning of a stream: what the [message_delta] events
    carry, normalised, in list order. *)
Definition messageReasoning (event : Event) : option jsstring :=
  if decide (default [] (ev_type event) = jlit "message_delta")
  then ev_delta event ≫= ed_reasoning else None.

Definition topReasoning (events : list Event) : jsstring :=
  concat (normaliseContent <$> omap messageReasoning events).

Lemma eventStep_reasoning st event :
  cs_reasoning (eventStep st event)
  = cs_reasoning st ++ default [] (normaliseContent <$> messageReasoning event).
Proof.
  unfold StreamAggregate.eventStep, messageReasoning.
  repeat case_decide;
    try (exfalso;
         match goal with
         | H1 : ?x = jlit _, H2 : ?x = jlit _ |- _ =>
           rewrite H1 in H2; vm_compute in H2; discriminate H2
         end);
    try (destruct (getBlock _ _)); cbn [cs_reasoning fmap option_fmap option_map default];
    rewrite ?app_nil_r; try done.
  destruct (ev_delta event ≫= ed_reasoning) as [r|]; cbn; [|by rewrite app_nil_r].
  destruct (truthy r) eqn:Hr; [done|].
  apply negb_false_iff, bool_decide_eq_true in Hr. subst r.
  by rewrite app_nil_r.
Qed.

Lemma fold_topReasoning events : forall st,
  cs_reasoning (fold_left eventStep events st) = cs_reasoning st ++ topReasoning events.
Proof.
  induction events as [|event events IH]; intros st; cbn [fold_left].
  { unfold topReasoning. simpl. by rewrite app_nil_r. }
  rewrite IH, eventStep_reasoning, <- app_assoc. f_equal.
  unfold topReasoning. cbn [omap list_omap].
  by destruct (messageReasoning event).
Qed.

Lemma fold_append {A} (f : A -> jsstring) (l : list A) : forall init,
  fold_left (fun acc x => acc ++ f x) l init = init ++ concat (f <$> l).
Proof.
  induction l as [|x l IH]; intros init; simpl; [by rewrite app_nil_r|].
  by rewrite IH, <- app_assoc.
Qed.

(** X15. The reasoning of an Anthropic stream: the top-level reasoning of
    the [message_delta] events, in list order, followed by the reasoning of
    the listed blocks by ascending index; the message carries no reasoning
    when that text is blank. *)
Theorem claude_reasoning (events : list Event) :
  events <> [] ->
  let reasoning :=
    topReasoning events
    ++ concat ((fun entry => block_reasoning entry.2)
                 <$> listedBlocks (cs_blocks (finalState events))) in
  exists message,
    aggregateClaudeStreamEvents events = Some message /\
    cm_reasoning message = if truthy (trim reasoning) then Some reasoning else None.
Proof.
  intros Hne. cbv zeta. unfold StreamAggregate.aggregateClaudeStreamEvents.
  rewrite (decide_False (P := length events = 0%nat))
    by (intros Hl; by apply nil_length_inv in Hl).
  eexists. split; [reflexivity|]. cbn [cm_reasoning].
  fold (finalState events).
  rewrite fold_append. unfold StreamAggregateSpec.finalState at 1 3.
  by rewrite fold_topReasoning.
Qed.


(** *** The blocks evolve independently *)

(** The three event types that address a block. *)
Definition blockTypes : list jsstring :=
  [jlit "content_block_start"; jlit "content_block_delta"; jlit "content_block_stop"].

Definition addresses (i : nat) (event : Event) : Prop :=
  default [] (ev_type event) ∈ blockTypes /\ ev_index event = Some i.

#[local] Instance addresses_dec i event : Decision (addresses i event).
Proof. unfold addresses. apply _. Defined.

(** Every event that addresses a block says which one. *)
Definition indexed (events : list Event) : Prop :=
  Forall (fun event => default [] (ev_type event) ∈ blockTypes ->
                       is_Some (ev_index event)) events.

(** What an event that addresses a block does to that block. *)
Definition blockEvent (block : Block) (event : Event) : Block :=
  let type := default [] (ev_type event) in
  if decide (type = jlit "content_block_start")
  then blockStart block (ev_content_block event)
  else if decide (type = jlit "content_block_delta")
  then blockDeltaStep block (default noDelta (ev_delta event))
  else if decide (type = jlit "content_block_stop")
  then blockStop block
  else block.

Lemma eventStep_other_types st event :
  default [] (ev_type event) ∉ blockTypes ->
  cs_blocks (eventStep st event) = cs_blocks st.
Proof.
  unfold blockTypes. rewrite !elem_of_cons, elem_of_nil. intros Ht.
  unfold StreamAggregate.eventStep. repeat case_decide; try done; tauto.
Qed.

Lemma eventStep_addressed st event i :
  addresses i event ->
  cs_blocks (eventStep st event)
  = <[i := blockEvent (currentBlock st i) event]> (cs_blocks st).
Proof.
  unfold addresses, blockTypes. rewrite !elem_of_cons, elem_of_nil.
  intros [[Ht|[Ht|[Ht|[]]]] Hi].
  - assert (ev_type event = Some (jlit "content_block_start")) as Ht'.
    { destruct (ev_type event); [by f_equal|]. by vm_compute in Ht. }
    rewrite (eventStep_block_start _ _ _ Ht'), Hi. cbn [cs_blocks default].
    unfold blockEvent. by rewrite decide_True.
  - assert (ev_type event = Some (jlit "content_block_delta")) as Ht'.
    { destruct (ev_type event); [by f_equal|]. by vm_compute in Ht. }
    rewrite (eventStep_block_delta _ _ _ Ht'), Hi. cbn [cs_blocks default].
    unfold blockEvent. rewrite decide_False by (rewrite Ht; by vm_compute).
    by rewrite decide_True.
  - assert (ev_type event = Some (jlit "content_block_stop")) as Ht'.
    { destruct (ev_type event); [by f_equal|]. by vm_compute in Ht. }
    rewrite (eventStep_block_stop _ _ _ Ht'), Hi. cbn [cs_blocks default].
    unfold blockEvent. rewrite !decide_False by (rewrite Ht; by vm_compute).
    by rewrite decide_True.
Qed.

Lemma fold_block i events : forall st,
  indexed events ->
  cs_blocks (fold_left eventStep events st) !! i
  = match filter (addresses i) events with
    | [] => cs_blocks st !! i
    | addressed => Some (fold_left blockEvent addressed (currentBlock st i))
    end.
Proof.
  induction events as [|event events IH]; intros st Hidx; [done|].
  apply Forall_cons in Hidx as [Hev Hidx]. cbn [fold_left].
  rewrite IH by done. rewrite filter_cons.
  destruct (decide (addresses i event)) as [Ha|Hn].
  - pose proof (eventStep_addressed st event i Ha) as Hstep.
    assert (currentBlock (eventStep st event) i = blockEvent (currentBlock st i) event)
      as Hcur by (unfold currentBlock; by rewrite Hstep, lookup_insert_eq).
    destruct (filter (addresses i) events) as [|e es].
    + rewrite Hstep, lookup_insert_eq. done.
    + cbn [fold_left]. by rewrite Hcur.
  - assert (cs_blocks (eventStep st event) !! i = cs_blocks st !! i) as Hsame.
    { destruct (decide (default [] (ev_type event) ∈ blockTypes)) as [Ht|Ht].
      - destruct (Hev Ht) as [j Hj].
        apply (eventStep_frame JSON_parse st event j i Hj).
        intros ->. apply Hn. by split.
      - by rewrite eventStep_other_types. }
    assert (currentBlock (eventStep st event) i = currentBlock st i) as Hcur
      by (unfold currentBlock; by rewrite Hsame).
    destruct (filter (addresses i) events) as [|e es]; [done|].
    by rewrite Hcur.
Qed.

(** X16. The blocks evolve independently. When every event that
    addresses a block carries its index, the block of an index is made by
    the events of that index alone, in their order, from a new block; the
    events of other blocks and the message events may interleave with them
    in any way. An index that no event addresses has no block. *)
Theorem blocks_evolve_independently (events : list Event) (i : nat) :
  indexed events ->
  cs_blocks (finalState events) !! i
  = match filter (addresses i) events with
    | [] => None
    | addressed => Some (fold_left blockEvent addressed newBlock)
    end.
Proof.
  intros Hidx. unfold StreamAggregateSpec.finalState.
  rewrite (fold_block i) by done. cbn [cs_blocks].
  destruct (filter (addresses i) events); [apply lookup_empty|done].
Qed.

End Claude.

(** *** Instances *)

(** A [JSON.parse] that rejects everything. *)
Definition rejectAll (text : jsstring) : option json := None.

Definition typedEvent (type : string) : Event :=
  mkEvent (Some (jlit type)) None None None None.

Definition startAt (index : nat) (type : string) (thinking : option string) : Event :=
  mkEvent (Some (jlit "content_block_start")) (Some index) None
          (Some (mkContentBlock (Some (jlit type)) None None None None None
                                (jlit <$> thinking))) None.

Definition deltaAt (index : nat) (type : string) (text thinking : option string)
    : Event :=
  mkEvent (Some (jlit "content_block_delta")) (Some index) None None
          (Some (mkEventDelta (Some (jlit type)) (jlit <$> text) (jlit <$> thinking)
                              None None None None None)).

Definition messageDelta (reasoning : string) : Event :=
  mkEvent (Some (jlit "message_delta")) None None None
          (Some (mkEventDelta None None None None None None None (Some (jlit reasoning)))).

(** A thinking block and a text block whose events interleave, between
    keep-alive events. *)
Definition thinkingStream : list Event :=
  [typedEvent "ping";
   startAt 0 "thinking" None;
   startAt 1 "text" None;
   deltaAt 0 "thinking_delta" None (Some "Let me ");
   deltaAt 1 "text_delta" (Some "Hel") None;
   typedEvent "ping";
   deltaAt 0 "thinking_delta" None (Some "think.");
   deltaAt 1 "text_delta" (Some "lo") None;
   messageDelta "Top. "]%string.

Lemma unknown_events_are_skipped_witness :
  aggregateClaudeStreamEvents rejectAll thinkingStream
  = aggregateClaudeStreamEvents rejectAll (filter known thinkingStream)
  /\ length (filter known thinkingStream) = 7%nat.
Proof.
  assert (thinkingStream <> []) as Hne by discriminate.
  pose proof (unknown_events_are_skipped rejectAll thinkingStream Hne) as H.
  rewrite decide_False in H by (vm_compute; discriminate).
  split; [exact H|]. vm_compute. reflexivity.
Defined.

Lemma claude_reasoning_witness :
  exists message,
    aggregateClaudeStreamEvents rejectAll thinkingStream = Some message /\
    cm_reasoning message = Some (jlit "Top. Let me think.").
Proof.
  assert (thinkingStream <> []) as Hne by discriminate.
  destruct (claude_reasoning rejectAll thinkingStream Hne) as (message & Hm & Hr).
  exists message. split; [exact Hm|]. rewrite Hr. vm_compute. reflexivity.
Defined.

Lemma blocks_evolve_independently_witness :
  block_text <$> cs_blocks (finalState rejectAll thinkingStream) !! 1%nat
  = Some (jlit "Hello").
Proof.
  assert (indexed thinkingStream) as Hidx.
  { unfold indexed. apply (bool_decide_unpack _). vm_compute. exact I. }
  rewrite (blocks_evolve_independently rejectAll thinkingStream 1 Hidx).
  vm_compute. reflexivity.
Defined.

End StreamAggregateExtra.

(** ** [decodeUnicodeEscapes] *)

Module UnicodeEscapesExtra.
Import StreamAggregate.

Local Ltac Zify.zify_post_hook ::= Z.to_euclidean_division_equations.

Lemma unicodeEscape_Some s code rest :
  unicodeEscape s = Some (code, rest) ->
  exists a b c d,
    s = 92%N :: 117%N :: a :: b :: c :: d :: rest /\
    isHexDigit a && isHexDigit b && isHexDigit c && isHexDigit d = true /\
    code = (hexValue a * 4096 + hexValue b * 256 + hexValue c * 16 + hexValue d)%N.
Proof.
  unfold unicodeEscape. intros H.
  repeat case_match; try discriminate. injection H as <- <-.
  eauto 10.
Qed.

Lemma unicodeEscape_head c s :
  c <> 92%N -> unicodeEscape (c :: s) = None.
Proof.
  intros Hc. destruct (unicodeEscape (c :: s)) as [[code rest]|] eqn:E; [|done].
  apply unicodeEscape_Some in E as (? & ? & ? & ? & [= -> _] & _). done.
Qed.

Lemma replaceUnicodeEscapes_length fuel : forall s,
  (length (replaceUnicodeEscapes fuel s) <= length s)%nat.
Proof.
  induction fuel as [|fuel IH]; intros s; [done|]. cbn [replaceUnicodeEscapes].
  destruct (unicodeEscape s) as [[code rest]|] eqn:E.
  - apply unicodeEscape_Some in E as (a & b & c & d & -> & _).
    cbn [length]. specialize (IH rest). lia.
  - destruct s as [|c s]; [done|]. cbn [length]. specialize (IH s). lia.
Qed.

Lemma replaceEscape_cons x r c1 c2 rest :
  replaceEscape x r (c1 :: c2 :: rest)
  = if ((c1 =? 92) && (c2 =? x))%N then r :: replaceEscape x r rest
    else c1 :: replaceEscape x r (c2 :: rest).
Proof. reflexivity. Qed.

Lemma replaceEscape_length x r s :
  (length (replaceEscape x r s) <= length s)%nat.
Proof.
  remember (length s) as n eqn:Hn. revert s Hn.
  induction n as [n IH] using lt_wf_ind. intros s ->.
  destruct s as [|c1 [|c2 rest]]; [done..|].
  rewrite replaceEscape_cons. destruct (_ && _); cbn [length].
  - pose proof (IH (length rest) ltac:(simpl; lia) rest eq_refl). lia.
  - pose proof (IH (length (c2 :: rest)) ltac:(simpl; lia) (c2 :: rest) eq_refl) as H.
    cbn [length] in H. lia.
Qed.

Lemma hasEscape_plain s : 92%N ∉ s -> hasEscape s = false.
Proof.
  induction s as [|c s IH]; [done|]. intros Hs.
  apply not_elem_of_cons in Hs as [Hc Hs]. cbn [hasEscape].
  assert ((c =? 92)%N = false) as Hc' by (apply N.eqb_neq; congruence).
  rewrite unicodeEscape_head by congruence. rewrite IH by done.
  destruct s; [|rewrite Hc']; done.
Qed.

Lemma replaceEscape_plain x r s : 92%N ∉ s -> replaceEscape x r s = s.
Proof.
  induction s as [|c s IH]; [done|]. intros Hs.
  apply not_elem_of_cons in Hs as [Hc Hs].
  assert ((c =? 92)%N = false) as Hc' by (apply N.eqb_neq; congruence).
  destruct s as [|c2 rest]; [done|].
  rewrite replaceEscape_cons, Hc'. cbn [andb]. by rewrite IH.
Qed.

(** X17. [decodeUnicodeEscapes] never makes a string longer, and leaves a
    string without a backslash as it is. *)
Theorem decoding_shortens (raw : jsstring) :
  (length (decodeUnicodeEscapes raw) <= length raw)%nat /\
  (92%N ∉ raw -> decodeUnicodeEscapes raw = raw).
Proof.
  unfold decodeUnicodeEscapes. split.
  - destruct (negb (hasEscape raw)); [done|].
    etrans; [apply replaceEscape_length|]. etrans; [apply replaceEscape_length|].
    etrans; [apply replaceEscape_length|]. apply replaceUnicodeEscapes_length.
  - intros Hplain. by rewrite hasEscape_plain.
Qed.


(** *** Escaped text *)

(** A hexadecimal digit, in lower case. *)
Definition hexDigit (k : N) : N := (if k <? 10 then 48 + k else 87 + k)%N.

(** A code unit written as a backslash, [u] and four hexadecimal digits. *)
Definition escapeUnit (c : N) : jsstring :=
  [92; 117; hexDigit (c / 4096); hexDigit (c / 256 mod 16);
   hexDigit (c / 16 mod 16); hexDigit (c mod 16)]%N.

(** Text as an ASCII-only serializer writes it: printable ASCII as it is,
    every other code unit (and the backslash) escaped. *)
Definition plainUnit (c : N) : bool := ((32 <=? c) && (c <? 127) && negb (c =? 92))%N.

Definition escapeText (s : jsstring) : jsstring :=
  s ≫= fun c => if plainUnit c then [c] else escapeUnit c.

Lemma hexDigit_ok k :
  (k < 16)%N -> isHexDigit (hexDigit k) = true /\ hexValue (hexDigit k) = k.
Proof.
  intros Hk.
  assert (k = 0 \/ k = 1 \/ k = 2 \/ k = 3 \/ k = 4 \/ k = 5 \/ k = 6 \/ k = 7 \/
          k = 8 \/ k = 9 \/ k = 10 \/ k = 11 \/ k = 12 \/ k = 13 \/ k = 14 \/
          k = 15)%N as Hcases by lia.
  repeat destruct Hcases as [->|Hcases]; try subst k; by vm_compute.
Qed.

Lemma unicodeEscape_escapeUnit c rest :
  (c < 65536)%N -> unicodeEscape (escapeUnit c ++ rest) = Some (c, rest).
Proof.
  intros Hc. unfold escapeUnit. cbn [app unicodeEscape].
  assert (c / 4096 < 16)%N as H1 by lia.
  assert (c / 256 mod 16 < 16)%N as H2 by lia.
  assert (c / 16 mod 16 < 16)%N as H3 by lia.
  assert (c mod 16 < 16)%N as H4 by lia.
  destruct (hexDigit_ok _ H1) as [-> ->], (hexDigit_ok _ H2) as [-> ->],
           (hexDigit_ok _ H3) as [-> ->], (hexDigit_ok _ H4) as [-> ->].
  cbn [andb]. do 2 f_equal.
  clear. lia.
Qed.

Lemma plainUnit_not_backslash c : plainUnit c = true -> c <> 92%N.
Proof. unfold plainUnit. intros H ->. by vm_compute in H. Qed.

Lemma replaceUnicodeEscapes_escapeText s : forall fuel,
  Forall (fun c => (c < 65536)%N) s ->
  (length (escapeText s) <= fuel)%nat ->
  replaceUnicodeEscapes fuel (escapeText s) = s.
Proof.
  induction s as [|c s IH]; intros fuel Hs Hfuel.
  - by destruct fuel.
  - apply Forall_cons in Hs as [Hc Hs].
    change (escapeText (c :: s))
      with ((if plainUnit c then [c] else escapeUnit c) ++ escapeText s) in *.
    destruct (plainUnit c) eqn:Hp.
    + cbn [app length] in *. destruct fuel as [|fuel]; [lia|].
      cbn [replaceUnicodeEscapes].
      rewrite unicodeEscape_head by (by apply plainUnit_not_backslash).
      f_equal. apply IH; [done|lia].
    + rewrite length_app in Hfuel. cbn [escapeUnit length] in Hfuel.
      destruct fuel as [|fuel]; [lia|]. cbn [replaceUnicodeEscapes].
      rewrite unicodeEscape_escapeUnit by done.
      f_equal. apply IH; [done|lia].
Qed.

Lemma hasEscape_escapeText s :
  Forall (fun c => (c < 65536)%N) s ->
  hasEscape (escapeText s) = false -> escapeText s = s.
Proof.
  induction s as [|c s IH]; [done|]. intros Hs.
  apply Forall_cons in Hs as [Hc Hs].
  change (escapeText (c :: s))
    with ((if plainUnit c then [c] else escapeUnit c) ++ escapeText s).
  destruct (plainUnit c) eqn:Hp.
  - cbn [app hasEscape]. intros H.
    apply orb_false_elim in H as [_ H]. f_equal. by apply IH.
  - pose proof (unicodeEscape_escapeUnit c (escapeText s) Hc) as He.
    unfold escapeUnit in *. cbn [app] in *. cbn [hasEscape]. by rewrite He.
Qed.

(** X18. Escaped text is decoded: text without a backslash, written with
    every code unit outside printable ASCII as a backslash, [u] and four
    hexadecimal digits, decodes to the text. *)
Theorem escaped_text_is_decoded (s : jsstring) :
  Forall (fun c => (c < 65536)%N) s -> 92%N ∉ s ->
  decodeUnicodeEscapes (escapeText s) = s.
Proof.
  intros Hs Hplain. unfold decodeUnicodeEscapes.
  destruct (hasEscape (escapeText s)) eqn:He; cbn [negb].
  - rewrite replaceUnicodeEscapes_escapeText by done.
    by rewrite (replaceEscape_plain 110), (replaceEscape_plain 114),
      (replaceEscape_plain 116) by done.
  - by apply hasEscape_escapeText.
Qed.

Lemma decoding_shortens_witness :
  decodeUnicodeEscapes (jlit "plain text") = jlit "plain text".
Proof.
  destruct (decoding_shortens (jlit "plain text")) as [_ H].
  apply H. apply (bool_decide_unpack _). vm_compute. exact I.
Defined.

Lemma escaped_text_is_decoded_witness :
  escapeText [72; 233; 0x4F60; 10]%N = jlit "H\u00e9\u4f60\u000a"
  /\ decodeUnicodeEscapes (jlit "H\u00e9\u4f60\u000a") = [72; 233; 0x4F60; 10]%N.
Proof.
  assert (escapeText [72; 233; 0x4F60; 10]%N = jlit "H\u00e9\u4f60\u000a") as He
    by (vm_compute; reflexivity).
  split; [exact He|]. rewrite <- He.
  apply escaped_text_is_decoded.
  - repeat constructor.
  - apply (bool_decide_unpack _). vm_compute. exact I.
Defined.

End UnicodeEscapesExtra.

(** ** The split of a logged stream *)

Module StreamSplitExtra.
Import StreamAggregate StreamSplit.

(** *** White space *)

Definition blank (c : N) : Prop := isWhiteSpace c = true.
Definition inked (c : N) : Prop := isWhiteSpace c = false.

(** A string with ink at both ends. *)
Definition tight (s : jsstring) : Prop :=
  (exists c s', s = c :: s' /\ inked c) /\ (exists s' c, s = s' ++ [c] /\ inked c).

Lemma trimStart_inked c s : inked c -> trimStart (c :: s) = c :: s.
Proof. intros Hc. cbn [trimStart]. by rewrite Hc. Qed.

Lemma trimStart_blank w s : Forall blank w -> trimStart (w ++ s) = trimStart s.
Proof.
  induction 1 as [|c w Hc _ IH]; [done|]. cbn [app trimStart]. by rewrite Hc.
Qed.

Lemma trim_tight s : tight s -> trim s = s.
Proof.
  intros [(c & s' & -> & Hc) (s'' & d & Hs & Hd)]. unfold trim.
  rewrite trimStart_inked by done. rewrite Hs, rev_app_distr. cbn [rev app].
  rewrite trimStart_inked by done.
  cbn [rev]. by rewrite rev_involutive.
Qed.

Lemma trim_blank_l w s : Forall blank w -> tight s -> trim (w ++ s) = s.
Proof.
  intros Hw Hs. rewrite <- (trim_tight s) at 2 by done.
  unfold trim. by rewrite trimStart_blank.
Qed.

Lemma trim_blank_r w s : Forall blank w -> tight s -> trim (s ++ w) = s.
Proof.
  intros Hw [(c & s' & -> & Hc) (s'' & d & Hs & Hd)]. unfold trim.
  rewrite <- app_comm_cons, trimStart_inked by done.
  rewrite app_comm_cons, rev_app_distr, trimStart_blank by (by apply Forall_rev).
  rewrite Hs, rev_app_distr. cbn [rev app]. rewrite trimStart_inked by done.
  cbn [rev]. by rewrite rev_involutive.
Qed.

Lemma tight_app a b : tight a -> tight b -> tight (a ++ b).
Proof.
  intros [(c & a' & -> & Hc) _] [_ (b' & d & -> & Hd)]. split.
  - exists c, (a' ++ b' ++ [d]). by split.
  - exists ((c :: a') ++ b'), d. split; [by rewrite <- app_assoc|done].
Qed.

Lemma tight_app_l a b : (exists c a', a = c :: a' /\ inked c) -> tight b -> tight (a ++ b).
Proof.
  intros (c & a' & -> & Hc) [_ (b' & d & -> & Hd)]. split.
  - exists c, (a' ++ b' ++ [d]). by split.
  - exists ((c :: a') ++ b'), d. split; [by rewrite <- app_assoc|done].
Qed.


Lemma trim_head c s : inked c -> exists s', trim (c :: s) = c :: s'.
Proof.
  intros Hc. unfold trim. rewrite trimStart_inked by done.
  cbn [rev].
  assert (forall l, exists l', trimStart (l ++ [c]) = l' ++ [c]) as Hsuffix.
  { intros l. induction l as [|x l [l' IH]].
    - exists []. by apply trimStart_inked.
    - cbn [app trimStart]. destruct (isWhiteSpace x); [by exists l'|].
      by exists (x :: l). }
  destruct (Hsuffix (rev s)) as [l' ->].
  exists (rev l'). by rewrite rev_unit.
Qed.

(** *** Splitting *)

(** No line terminator among these code units. *)
Definition plain (l : jsstring) : Prop := Forall (fun c => c <> 10%N /\ c <> 13%N) l.

(** A separator in the sense of [split]: it consumes something, and a match
    begins with a line terminator. *)
Definition separates (separator : jsstring -> option jsstring) : Prop :=
  (forall s rest, separator s = Some rest -> (length rest < length s)%nat) /\
  (forall c s, c <> 10%N -> c <> 13%N -> separator (c :: s) = None).

Lemma lineBreak_Some s rest :
  lineBreak s = Some rest -> s = 10%N :: rest \/ s = 13%N :: 10%N :: rest.
Proof.
  unfold lineBreak. intros H. repeat case_match; try discriminate;
    injection H as <-; subst; auto.
Qed.

Lemma separates_lineBreak : separates lineBreak.
Proof.
  split.
  - intros s rest [->| ->]%lineBreak_Some; simpl; lia.
  - intros c s H10 H13.
    destruct (lineBreak (c :: s)) as [rest|] eqn:E; [|done].
    apply lineBreak_Some in E as [[= -> _]|[= -> _]]; done.
Qed.

Lemma separates_blankLine : separates blankLine.
Proof.
  destruct separates_lineBreak as [Hshrink Hhead]. split.
  - intros s rest. unfold blankLine.
    destruct (lineBreak s) as [mid|] eqn:E1; [|done]. cbn.
    intros E2. apply Hshrink in E1, E2. lia.
  - intros c s H10 H13. unfold blankLine. by rewrite Hhead.
Qed.

Section Separator.

Variable separator : jsstring -> option jsstring.
Hypothesis Hsep : separates separator.

Lemma split_fuel_enough s : forall fuel fuel' pending,
  (length s <= fuel)%nat -> (length s <= fuel')%nat ->
  split_fuel separator fuel s pending = split_fuel separator fuel' s pending.
Proof.
  remember (length s) as n eqn:Hn. revert s Hn.
  induction n as [n IH] using lt_wf_ind. intros s -> fuel fuel' pending Hf Hf'.
  destruct s as [|c s]; [by destruct fuel, fuel'|].
  cbn [length] in *. destruct fuel as [|fuel]; [lia|].
  destruct fuel' as [|fuel']; [lia|]. cbn [split_fuel].
  destruct (separator (c :: s)) as [rest|] eqn:E.
  - pose proof (proj1 Hsep _ _ E) as Hlt. cbn [length] in Hlt. f_equal.
    apply (IH (length rest)); (done || lia).
  - apply (IH (length s)); (done || lia).
Qed.

(** The pieces of [s] when [pending] is what came since the last match. *)
Definition splitFrom (s pending : jsstring) : list jsstring :=
  split_fuel separator (length s) s pending.

Lemma splitFrom_nil pending : splitFrom [] pending = [rev pending].
Proof. done. Qed.

Lemma splitFrom_match s rest pending :
  separator s = Some rest ->
  splitFrom s pending = rev pending :: splitFrom rest [].
Proof.
  intros E. pose proof (proj1 Hsep _ _ E) as Hlt. unfold splitFrom.
  destruct s as [|c s]; [simpl in Hlt; lia|].
  cbn [length split_fuel]. rewrite E. f_equal.
  apply split_fuel_enough; cbn [length] in Hlt; lia.
Qed.

Lemma splitFrom_step c s pending :
  separator (c :: s) = None ->
  splitFrom (c :: s) pending = splitFrom s (c :: pending).
Proof. intros E. unfold splitFrom. cbn [length split_fuel]. by rewrite E. Qed.

Lemma splitFrom_plain l : forall rest pending,
  plain l -> splitFrom (l ++ rest) pending = splitFrom rest (rev l ++ pending).
Proof.
  induction l as [|c l IH]; intros rest pending Hl; [done|].
  apply Forall_cons in Hl as [[H10 H13] Hl].
  rewrite <- app_comm_cons, splitFrom_step by (by apply (proj2 Hsep)).
  rewrite IH by done. cbn [rev]. by rewrite <- app_assoc.
Qed.

End Separator.


(** *** Server-sent events *)

(** One event of a stream as it is logged: an optional [event:] line and a
    [data:] line. *)
Record frame : Type := mkFrame {
  frame_event : option jsstring;
  frame_data : jsstring;
}.

(** The line end of the log: line feed, or carriage return and line feed. *)
Definition newline (crlf : bool) : jsstring := (if crlf then [13; 10] else [10])%N.

Definition frameText (crlf : bool) (f : frame) : jsstring :=
  match frame_event f with
  | Some name => jlit "event: " ++ name ++ newline crlf
  | None => []
  end ++ jlit "data: " ++ frame_data f.

(** The events of a log, each followed by an empty line. *)
Definition framesText (crlf : bool) (segments : list jsstring) : jsstring :=
  concat ((fun segment => segment ++ newline crlf ++ newline crlf) <$> segments).

(** The log of a stream: its events, then the sentinel if the stream has
    one. *)
Definition sseText (crlf : bool) (frames : list frame) (terminated : bool)
    : jsstring :=
  framesText crlf (map (frameText crlf) frames
                   ++ if terminated then [jlit "data: [DONE]"] else []).

Section Split.

Variable JSON_parse : jsstring -> option json.

Abbreviation safeParseJson := (StreamAggregate.safeParseJson JSON_parse).
Abbreviation segmentStep := (StreamSplit.segmentStep JSON_parse).
Abbreviation splitStreamingResponse := (StreamSplit.splitStreamingResponse JSON_parse).

(** An event the viewer can show: the name of the event and the payload
    are on one line each, the payload has no white space around it, is not
    the sentinel, and parses to a value that is not falsy. *)
Definition wellFormed (f : frame) : Prop :=
  plain (default [] (frame_event f)) /\
  plain (frame_data f) /\ tight (frame_data f) /\
  frame_data f <> jlit "[DONE]" /\
  truthyJson (safeParseJson (frame_data f)) = true.

Lemma plain_jlit_event : plain (jlit "event: ").
Proof. unfold plain. apply (bool_decide_unpack _). by vm_compute. Qed.

Lemma plain_jlit_data : plain (jlit "data: ").
Proof. unfold plain. apply (bool_decide_unpack _). by vm_compute. Qed.

Lemma lineBreak_newline crlf rest : lineBreak (newline crlf ++ rest) = Some rest.
Proof. by destruct crlf. Qed.

Lemma blankLine_newline crlf rest :
  blankLine (newline crlf ++ newline crlf ++ rest) = Some rest.
Proof. unfold blankLine. rewrite lineBreak_newline. cbn. apply lineBreak_newline. Qed.

(** A single line end before a line that is not empty is no separator of
    events. *)
Lemma splitFrom_single_newline crlf c rest pending :
  c <> 10%N -> c <> 13%N ->
  splitFrom blankLine (newline crlf ++ c :: rest) pending
  = splitFrom blankLine (c :: rest) (rev (newline crlf) ++ pending).
Proof.
  intros H10 H13.
  assert (lineBreak (c :: rest) = None) as Hc
    by (by apply (proj2 separates_lineBreak)).
  assert (blankLine (10%N :: c :: rest) = None) as Hlf by exact Hc.
  assert (blankLine (13%N :: 10%N :: c :: rest) = None) as Hcrlf by exact Hc.
  destruct crlf; cbn [newline app].
  - by rewrite (splitFrom_step _ _ _ _ Hcrlf), (splitFrom_step _ _ _ _ Hlf).
  - by rewrite (splitFrom_step _ _ _ _ Hlf).
Qed.

(** The scan for empty lines runs through the text of an event. *)
Lemma splitFrom_frameText crlf f rest pending :
  wellFormed f ->
  splitFrom blankLine (frameText crlf f ++ rest) pending
  = splitFrom blankLine rest (rev (frameText crlf f) ++ pending).
Proof.
  intros (Hname & Hdata & _). unfold frameText.
  assert (plain (jlit "data: " ++ frame_data f)) as Hline
    by (apply Forall_app; split; [apply plain_jlit_data|done]).
  destruct (frame_event f) as [name|]; cbn [default] in Hname.
  - rewrite <- !app_assoc.
    rewrite (splitFrom_plain _ separates_blankLine (jlit "event: ")) by apply plain_jlit_event.
    rewrite (splitFrom_plain _ separates_blankLine name) by done.
    change (jlit "data: " ++ frame_data f ++ rest)
      with (100%N :: (jlit "ata: " ++ frame_data f ++ rest)).
    rewrite splitFrom_single_newline by done.
    change (100%N :: jlit "ata: " ++ frame_data f ++ rest)
      with ((jlit "data: " ++ frame_data f) ++ rest).
    rewrite (splitFrom_plain _ separates_blankLine) by done.
    f_equal. rewrite !rev_app_distr, <- !app_assoc. done.
  - change ([] ++ jlit "data: " ++ frame_data f) with (jlit "data: " ++ frame_data f).
    by rewrite (splitFrom_plain _ separates_blankLine) by done.
Qed.


(** The events without the empty line after the last one: what [trim]
    leaves of the log. *)
Definition joinedText (crlf : bool) (segments : list jsstring) : jsstring :=
  match segments with
  | [] => []
  | segment :: segments' =>
    segment ++ concat ((fun s => newline crlf ++ newline crlf ++ s) <$> segments')
  end.

Lemma framesText_joined crlf segments :
  segments <> [] ->
  framesText crlf segments = joinedText crlf segments ++ newline crlf ++ newline crlf.
Proof.
  destruct segments as [|b bs]; [done|]. intros _. revert b.
  induction bs as [|b' bs IH]; intros b.
  - unfold framesText. simpl. by rewrite !app_nil_r.
  - unfold framesText in *. cbn [fmap list_fmap concat joinedText] in *.
    rewrite IH. by rewrite <- !app_assoc.
Qed.

(** The scan for empty lines runs through this text, whatever follows. *)
Definition passes (segment : jsstring) : Prop :=
  forall rest pending,
    splitFrom blankLine (segment ++ rest) pending
    = splitFrom blankLine rest (rev segment ++ pending).

Lemma split_joined crlf bs : forall b,
  passes b -> Forall passes bs ->
  split blankLine (joinedText crlf (b :: bs)) = b :: bs.
Proof.
  change (split blankLine) with (fun s => splitFrom blankLine s []).
  induction bs as [|b' bs IH]; intros b Hb Hbs; cbn beta.
  - cbn [joinedText fmap list_fmap concat]. rewrite Hb, splitFrom_nil.
    by rewrite app_nil_r, rev_involutive.
  - apply Forall_cons in Hbs as [Hb' Hbs].
    cbn [joinedText fmap list_fmap concat]. rewrite Hb.
    rewrite <- !app_assoc.
    rewrite (splitFrom_match _ separates_blankLine _ _ _ (blankLine_newline crlf _)).
    rewrite app_nil_r, rev_involutive. f_equal. by apply IH.
Qed.

Definition startsInked (s : jsstring) : Prop := exists c s', s = c :: s' /\ inked c.
Definition endsInked (s : jsstring) : Prop := exists s' c, s = s' ++ [c] /\ inked c.

Lemma endsInked_app a b : endsInked b -> endsInked (a ++ b).
Proof. intros (b' & c & -> & Hc). exists (a ++ b'), c. by rewrite app_assoc. Qed.

Lemma startsInked_app a b : startsInked a -> startsInked (a ++ b).
Proof. intros (c & a' & -> & Hc). by exists c, (a' ++ b). Qed.

Lemma tight_joined crlf bs : forall b,
  tight b -> Forall tight bs -> tight (joinedText crlf (b :: bs)).
Proof.
  intros b [Hstart Hend] Hbs. split; [by apply startsInked_app|].
  revert b Hstart Hend. induction Hbs as [|b' bs Hb' _ IH]; intros b Hstart Hend.
  - cbn [joinedText fmap list_fmap concat]. by rewrite app_nil_r.
  - cbn [joinedText fmap list_fmap concat]. apply endsInked_app.
    rewrite <- !app_assoc. do 2 apply endsInked_app.
    destruct Hb' as [Hs He]. by apply (IH b').
Qed.

Lemma blank_newline crlf : Forall blank (newline crlf ++ newline crlf).
Proof. destruct crlf; repeat constructor. Qed.


(** *** One event *)

Lemma split_line l : plain l -> split lineBreak l = [l].
Proof.
  intros Hl. change (split lineBreak l) with (splitFrom lineBreak l []).
  rewrite <- (app_nil_r l) at 1.
  rewrite (splitFrom_plain _ separates_lineBreak) by done.
  by rewrite splitFrom_nil, app_nil_r, rev_involutive.
Qed.

Lemma split_two_lines crlf l1 l2 :
  plain l1 -> plain l2 -> split lineBreak (l1 ++ newline crlf ++ l2) = [l1; l2].
Proof.
  intros H1 H2.
  change (split lineBreak (l1 ++ newline crlf ++ l2))
    with (splitFrom lineBreak (l1 ++ newline crlf ++ l2) []).
  rewrite (splitFrom_plain _ separates_lineBreak) by done.
  rewrite (splitFrom_match _ separates_lineBreak _ _ _ (lineBreak_newline crlf _)).
  rewrite app_nil_r, rev_involutive. f_equal. by apply split_line.
Qed.

Lemma tight_data_line data : tight data -> tight (jlit "data: " ++ data).
Proof.
  intros [_ Hend]. split.
  - by exists 100%N, (jlit "ata: " ++ data).
  - by apply endsInked_app.
Qed.

Lemma segmentStep_frame crlf f objects :
  wellFormed f ->
  segmentStep objects (frameText crlf f) = objects ++ [safeParseJson (frame_data f)].
Proof.
  intros (Hname & Hdata & Htight & Hdone & Hparse).
  assert (plain (jlit "data: " ++ frame_data f)) as Hline
    by (apply Forall_app; split; [apply plain_jlit_data|done]).
  assert (frame_data f <> []) as Hne.
  { destruct Htight as [(c & s' & -> & _) _]. done. }
  assert (filter (fun line => startsWith line (jlit "data:") = true)
                 (map trim (split lineBreak (frameText crlf f)))
          = [jlit "data: " ++ frame_data f]) as Hlines.
  { unfold frameText. destruct (frame_event f) as [name|]; cbn [default] in Hname.
    - rewrite <- !app_assoc, (app_assoc (jlit "event: ")).
      rewrite split_two_lines; [|apply Forall_app; split; [apply plain_jlit_event|done]|done].
      cbn [map]. rewrite (trim_tight (jlit "data: " ++ _)) by (by apply tight_data_line).
      destruct (trim_head 101%N (jlit "vent: " ++ name)) as [s' Hs']; [done|].
      change (jlit "event: " ++ name) with (101%N :: jlit "vent: " ++ name).
      rewrite Hs'. rewrite filter_cons_False by (by vm_compute).
      by rewrite filter_cons_True.
    - change ([] ++ jlit "data: " ++ frame_data f) with (jlit "data: " ++ frame_data f).
      rewrite split_line by done. cbn [map].
      rewrite trim_tight by (by apply tight_data_line).
      by rewrite filter_cons_True. }
  unfold StreamSplit.segmentStep. rewrite Hlines.
  assert (truthy (frameText crlf f) = true) as ->.
  { unfold frameText, truthy. apply negb_true_iff, bool_decide_eq_false.
    destruct (frame_event f); done. }
  cbn [negb length map concat]. rewrite decide_False by done.
  change (drop 5 (jlit "data: " ++ frame_data f)) with ([32%N] ++ frame_data f).
  rewrite trim_blank_l by (done || by repeat constructor). rewrite app_nil_r.
  assert (truthy (frame_data f) = true) as ->
    by (by apply negb_true_iff, bool_decide_eq_false).
  rewrite bool_decide_eq_false_2 by done. cbn [negb orb].
  unfold pushParsed. by rewrite Hparse.
Qed.

Lemma segmentStep_done objects :
  segmentStep objects (jlit "data: [DONE]") = objects.
Proof. reflexivity. Qed.


(** *** The log *)

Lemma tight_frameText crlf f : wellFormed f -> tight (frameText crlf f).
Proof.
  intros (_ & _ & Htight & _). unfold frameText. split.
  - destruct (frame_event f) as [name|].
    + by exists 101%N, ((jlit "vent: " ++ name ++ newline crlf) ++ jlit "data: " ++ frame_data f).
    + by exists 100%N, (jlit "ata: " ++ frame_data f).
  - apply endsInked_app. by apply tight_data_line.
Qed.

Lemma tight_done : tight (jlit "data: [DONE]").
Proof.
  split; [by exists 100%N, (jlit "ata: [DONE]")|by exists (jlit "data: [DONE"), 93%N].
Qed.

Lemma passes_done : passes (jlit "data: [DONE]").
Proof.
  intros rest pending. apply (splitFrom_plain _ separates_blankLine).
  unfold plain. apply (bool_decide_unpack _). by vm_compute.
Qed.

(** The pieces of the log: the texts of the events, and the sentinel. *)
Definition logSegments (crlf : bool) (frames : list frame) (terminated : bool)
    : list jsstring :=
  map (frameText crlf) frames ++ if terminated then [jlit "data: [DONE]"] else [].

Lemma fold_segments crlf frames terminated : forall objects,
  Forall wellFormed frames ->
  fold_left segmentStep (logSegments crlf frames terminated) objects
  = objects ++ map (fun f => safeParseJson (frame_data f)) frames.
Proof.
  unfold logSegments.
  induction frames as [|f frames IH]; intros objects Hwf.
  - cbn [map app]. rewrite app_nil_r. by destruct terminated.
  - apply Forall_cons in Hwf as [Hf Hwf]. cbn [map app fold_left].
    rewrite segmentStep_frame by done. rewrite IH by done.
    by rewrite <- app_assoc.
Qed.

(** X19. A log in which every event (an optional [event:] line and a
    [data:] line whose payload parses to a value that is not falsy) is
    followed by an empty line is split into the parsed payloads of its
    events, one per event and in their order; the sentinel [data: [DONE]]
    gives no entry, and the line ends may be LF or CRLF. *)
Theorem sse_log_splits_into_its_events crlf (frames : list frame) terminated :
  frames <> [] -> Forall wellFormed frames ->
  splitStreamingResponse (sseText crlf frames terminated)
  = map (fun f => safeParseJson (frame_data f)) frames.
Proof.
  intros Hne Hwf.
  assert (Forall tight (logSegments crlf frames terminated)) as Htight.
  { apply Forall_app. split.
    - apply Forall_fmap. eapply Forall_impl; [exact Hwf|]. apply tight_frameText.
    - destruct terminated; [|constructor].
      apply Forall_cons_2; [apply tight_done|constructor]. }
  assert (Forall passes (logSegments crlf frames terminated)) as Hpass.
  { apply Forall_app. split.
    - apply Forall_fmap. eapply Forall_impl; [exact Hwf|].
      intros f Hf rest pending. by apply splitFrom_frameText.
    - destruct terminated; [|constructor].
      apply Forall_cons_2; [apply passes_done|constructor]. }
  assert (logSegments crlf frames terminated <> []) as Hsegs
    by (unfold logSegments; by destruct frames).
  unfold sseText. fold (logSegments crlf frames terminated).
  pose proof (fold_segments crlf frames terminated [] Hwf) as Hfold.
  destruct (logSegments crlf frames terminated) as [|b bs] eqn:Hlog; [done|].
  apply Forall_cons in Htight as [Hb Hbs]. apply Forall_cons in Hpass as [Pb Pbs].
  pose proof (tight_joined crlf bs b Hb Hbs) as Hj.
  unfold StreamSplit.splitStreamingResponse.
  rewrite framesText_joined by done.
  rewrite trim_blank_r by (done || apply blank_newline).
  assert (forall s, startsInked s -> truthy s = true) as Hink.
  { intros s (c & s' & -> & _). done. }
  rewrite (Hink (joinedText crlf (b :: bs) ++ _))
    by (apply startsInked_app, Hj).
  rewrite (Hink (joinedText crlf (b :: bs))) by apply Hj.
  cbn [negb]. rewrite split_joined by done. rewrite Hfold. cbn [app].
  set (objects := map (fun f => safeParseJson (frame_data f)) frames).
  assert (0 < length objects)%nat as Hlen
    by (subst objects; destruct frames; [done|simpl; lia]).
  rewrite (decide_False (P := length objects = 0%nat)) by lia.
  by rewrite (decide_True (P := (0 < length objects)%nat)) by lia.
Qed.


(** *** A log without empty lines *)

(** The lines of an event. *)
Definition frameLines (f : frame) : list jsstring :=
  match frame_event f with
  | Some name => [jlit "event: " ++ name]
  | None => []
  end ++ [jlit "data: " ++ frame_data f].

Definition logLines (frames : list frame) (terminated : bool) : list jsstring :=
  (frames ≫= frameLines) ++ if terminated then [jlit "data: [DONE]"] else [].

(** The log with one line end after every line, and no empty line. *)
Definition linesText (crlf : bool) (lines : list jsstring) : jsstring :=
  concat ((fun line => line ++ newline crlf) <$> lines).

(** The same without the last line end. *)
Definition joinedLines (crlf : bool) (lines : list jsstring) : jsstring :=
  match lines with
  | [] => []
  | line :: lines' => line ++ concat ((fun l => newline crlf ++ l) <$> lines')
  end.

Lemma linesText_joined crlf lines :
  lines <> [] -> linesText crlf lines = joinedLines crlf lines ++ newline crlf.
Proof.
  destruct lines as [|b bs]; [done|]. intros _. revert b.
  induction bs as [|b' bs IH]; intros b.
  - unfold linesText. simpl. by rewrite !app_nil_r.
  - unfold linesText in *. cbn [fmap list_fmap concat joinedLines] in *.
    rewrite IH. by rewrite <- !app_assoc.
Qed.

(** A line of the log: no line terminator in it, and a first code unit. *)
Definition isLine (l : jsstring) : Prop := plain l /\ l <> [].

Lemma split_joinedLines crlf bs : forall b,
  Forall plain (b :: bs) -> split lineBreak (joinedLines crlf (b :: bs)) = b :: bs.
Proof.
  change (split lineBreak) with (fun s => splitFrom lineBreak s []).
  induction bs as [|b' bs IH]; intros b Hall; cbn beta;
    apply Forall_cons in Hall as [Hb Hbs].
  - cbn [joinedLines fmap list_fmap concat].
    rewrite (splitFrom_plain _ separates_lineBreak) by done.
    by rewrite splitFrom_nil, app_nil_r, rev_involutive.
  - cbn [joinedLines fmap list_fmap concat].
    rewrite (splitFrom_plain _ separates_lineBreak) by done.
    rewrite <- app_assoc.
    rewrite (splitFrom_match _ separates_lineBreak _ _ _ (lineBreak_newline crlf _)).
    rewrite app_nil_r, rev_involutive. f_equal. by apply IH.
Qed.

Lemma no_blank_line crlf bs : forall b pending,
  Forall isLine (b :: bs) ->
  splitFrom blankLine (joinedLines crlf (b :: bs)) pending
  = [rev pending ++ joinedLines crlf (b :: bs)].
Proof.
  induction bs as [|b' bs IH]; intros b pending Hall;
    apply Forall_cons in Hall as [[Hb Hbne] Hbs].
  - cbn [joinedLines fmap list_fmap concat].
    rewrite (splitFrom_plain _ separates_blankLine) by done.
    by rewrite splitFrom_nil, rev_app_distr, rev_involutive, !app_nil_r.
  - cbn [joinedLines fmap list_fmap concat].
    rewrite (splitFrom_plain _ separates_blankLine) by done.
    pose proof Hbs as Hbs'. apply Forall_cons in Hbs' as [[Hb' Hb'ne] _].
    destruct b' as [|c b']; [done|].
    pose proof Hb' as Hc. apply Forall_cons in Hc as [[H10 H13] _].
    rewrite <- !app_assoc. rewrite <- app_comm_cons.
    rewrite splitFrom_single_newline by done.
    change (c :: b' ++ concat ((fun l => newline crlf ++ l) <$> bs))
      with (joinedLines crlf ((c :: b') :: bs)).
    rewrite IH by done. f_equal.
    rewrite !rev_app_distr, !rev_involutive, <- !app_assoc. done.
Qed.


Abbreviation lineStep := (StreamSplit.lineStep JSON_parse).
Abbreviation flushBuffer := (StreamSplit.flushBuffer JSON_parse).

Lemma joinedLines_snoc crlf ls l :
  exists prefix, joinedLines crlf (ls ++ [l]) = prefix ++ l.
Proof.
  destruct ls as [|b bs]; [exists []; simpl; by rewrite app_nil_r|].
  cbn [app joinedLines]. rewrite fmap_app, concat_app. cbn [fmap list_fmap concat].
  rewrite app_nil_r. eexists. by rewrite !app_assoc.
Qed.

Lemma logLines_snoc frames terminated :
  frames <> [] -> Forall wellFormed frames ->
  exists ls l, logLines frames terminated = ls ++ [l] /\ tight l.
Proof.
  intros Hne Hwf. unfold logLines. destruct terminated.
  { eexists _, _. split; [done|]. apply tight_done. }
  rewrite app_nil_r.
  destruct frames as [|f0 fs _] using rev_ind; [done|].
  apply Forall_app in Hwf as [_ [(_ & _ & Ht & _) _]%Forall_cons].
  rewrite bind_app. cbn [mbind list_bind]. rewrite app_nil_r. unfold frameLines at 2.
  rewrite !app_assoc. eexists _, _. split; [reflexivity|].
  by apply tight_data_line.
Qed.

Lemma isLine_logLines frames terminated :
  Forall wellFormed frames ->
  Forall (fun l => isLine l /\ startsInked l) (logLines frames terminated).
Proof.
  intros Hwf. unfold logLines. apply Forall_app. split.
  - induction Hwf as [|f frames (Hname & Hdata & _) _ IH]; [constructor|].
    cbn [mbind list_bind]. apply Forall_app. split; [|done].
    unfold frameLines. apply Forall_app. split.
    + destruct (frame_event f) as [name|]; [|constructor].
      cbn [default] in Hname. apply Forall_cons_2; [|constructor]. split; [split|].
      * apply Forall_app. split; [apply plain_jlit_event|done].
      * done.
      * by exists 101%N, (jlit "vent: " ++ name).
    + apply Forall_cons_2; [|constructor]. split; [split|].
      * apply Forall_app. split; [apply plain_jlit_data|done].
      * done.
      * by exists 100%N, (jlit "ata: " ++ frame_data f).
  - destruct terminated; [|constructor]. apply Forall_cons_2; [|constructor].
    split; [split|].
    + unfold plain. apply (bool_decide_unpack _). by vm_compute.
    + done.
    + by exists 100%N, (jlit "ata: [DONE]").
Qed.

(** The [data:] lines of the log, trimmed. *)
Lemma dataLines_logLines frames terminated :
  Forall wellFormed frames ->
  filter (fun line => startsWith line (jlit "data:") = true)
         (map trim (logLines frames terminated))
  = map (fun f => jlit "data: " ++ frame_data f) frames
    ++ if terminated then [jlit "data: [DONE]"] else [].
Proof.
  intros Hwf. unfold logLines. rewrite map_app, filter_app. f_equal.
  - induction Hwf as [|f frames (Hname & Hdata & Htight & _) _ IH]; [done|].
    cbn [mbind list_bind map]. rewrite map_app, filter_app, IH. unfold frameLines.
    rewrite map_app, filter_app. cbn [map].
    rewrite (trim_tight (jlit "data: " ++ _)) by (by apply tight_data_line).
    rewrite (filter_cons_True _ (jlit "data: " ++ _)) by done.
    destruct (frame_event f) as [name|]; [|done]. cbn [map].
    destruct (trim_head 101%N (jlit "vent: " ++ name)) as [s' Hs']; [done|].
    change (jlit "event: " ++ name) with (101%N :: jlit "vent: " ++ name).
    rewrite Hs'. by rewrite filter_cons_False by (by vm_compute).
  - by destruct terminated.
Qed.

(** What the [data:] lines carry, one after the other. *)
Definition carried (frames : list frame) (terminated : bool) : jsstring :=
  concat (map frame_data frames) ++ if terminated then jlit "[DONE]" else [].

Lemma candidate_logLines frames (terminated : bool) :
  Forall wellFormed frames ->
  concat (map (fun line => trim (drop 5 line))
              (map (fun f => jlit "data: " ++ frame_data f) frames
               ++ if terminated then [jlit "data: [DONE]"] else []))
  = carried frames terminated.
Proof.
  intros Hwf. unfold carried. rewrite map_app, concat_app. f_equal.
  - induction Hwf as [|f frames (_ & _ & Htight & _) _ IH]; [done|].
    cbn [map concat]. rewrite IH. f_equal.
    change (drop 5 (jlit "data: " ++ frame_data f)) with ([32%N] ++ frame_data f).
    by rewrite trim_blank_l by (done || by repeat constructor).
  - by destruct terminated.
Qed.

Lemma lineStep_frame f objects :
  wellFormed f ->
  fold_left lineStep (frameLines f) (objects, [])
  = (objects ++ [safeParseJson (frame_data f)], []).
Proof.
  intros (Hname & Hdata & Htight & Hdone & Hparse).
  assert (frame_data f <> []) as Hne.
  { destruct Htight as [(c & s' & -> & _) _]. done. }
  assert (lineStep (objects, []) (jlit "data: " ++ frame_data f)
          = (objects ++ [safeParseJson (frame_data f)], [])) as Hdataline.
  { unfold StreamSplit.lineStep.
    rewrite trim_tight by (by apply tight_data_line).
    change (drop 5 (jlit "data: " ++ frame_data f)) with ([32%N] ++ frame_data f).
    rewrite trim_blank_l by (done || by repeat constructor).
    assert (truthy (frame_data f) = true) as ->
      by (by apply negb_true_iff, bool_decide_eq_false).
    cbn [fst snd negb]. by rewrite Hparse. }
  unfold frameLines. destruct (frame_event f) as [name|]; [|done].
  cbn [app fold_left]. rewrite <- Hdataline. f_equal.
  unfold StreamSplit.lineStep.
  destruct (trim_head 101%N (jlit "vent: " ++ name)) as [s' Hs']; [done|].
  change (jlit "event: " ++ name) with (101%N :: jlit "vent: " ++ name).
  by rewrite Hs'.
Qed.

Lemma fold_lines frames : forall objects,
  Forall wellFormed frames ->
  fold_left lineStep (frames ≫= frameLines) (objects, [])
  = (objects ++ map (fun f => safeParseJson (frame_data f)) frames, []).
Proof.
  induction frames as [|f frames IH]; intros objects Hwf.
  - by rewrite app_nil_r.
  - apply Forall_cons in Hwf as [Hf Hwf]. cbn [mbind list_bind map].
    rewrite fold_left_app, lineStep_frame, IH by done.
    by rewrite <- app_assoc.
Qed.

(** X20. A log of the same events with no empty line between them is
    still split into the parsed payloads of its events, by the pass over
    the lines, provided the payloads written one after the other do not
    parse together (the first pass takes the whole log for one event and
    joins all its [data:] lines) and the sentinel does not parse. *)
Theorem log_without_empty_lines crlf (frames : list frame) terminated :
  frames <> [] -> Forall wellFormed frames ->
  truthyJson (safeParseJson (jlit "[DONE]")) = false ->
  truthyJson (safeParseJson (carried frames terminated)) = false ->
  splitStreamingResponse (linesText crlf (logLines frames terminated))
  = map (fun f => safeParseJson (frame_data f)) frames.
Proof.
  intros Hne Hwf Hsentinel Hcarried.
  pose proof (isLine_logLines frames terminated Hwf) as Hlines.
  destruct (logLines_snoc frames terminated Hne Hwf) as (ls & l & Hlast & Hl).
  assert (logLines frames terminated <> []) as Hnonempty
    by (rewrite Hlast; by destruct ls).
  pose proof (dataLines_logLines frames terminated Hwf) as Hdata.
  pose proof (fold_lines frames [] Hwf) as Hfold.
  unfold StreamSplit.splitStreamingResponse.
  rewrite linesText_joined by done.
  set (text := joinedLines crlf (logLines frames terminated)) in *.
  assert (tight text) as Htext.
  { subst text. split.
    - destruct (logLines frames terminated) as [|b bs]; [done|].
      apply Forall_cons in Hlines as [[_ Hb] _]. by apply startsInked_app.
    - rewrite Hlast. destruct (joinedLines_snoc crlf ls l) as [prefix ->].
      apply endsInked_app, Hl. }
  rewrite trim_blank_r by (done || destruct crlf; repeat constructor).
  assert (forall s, startsInked s -> truthy s = true) as Hink.
  { intros s (c & s' & -> & _). done. }
  rewrite (Hink (text ++ _)) by (apply startsInked_app, Htext).
  rewrite (Hink text) by apply Htext. cbn [negb].
  (* the events are not separated: one segment, whose lines do not parse
     together *)
  assert (split blankLine text = [text]) as ->.
  { subst text. destruct (logLines frames terminated) as [|b bs]; [done|].
    change (split blankLine ?s) with (splitFrom blankLine s []).
    rewrite no_blank_line; [done|].
    eapply Forall_impl; [exact Hlines|]. by intros ? [? _]. }
  assert (split lineBreak text = logLines frames terminated) as Hsplit.
  { subst text. destruct (logLines frames terminated) as [|b bs]; [done|].
    apply split_joinedLines. eapply Forall_impl; [exact Hlines|].
    by intros ? [[? _] _]. }
  assert (StreamSplit.segmentStep JSON_parse [] text = []) as Hsegment.
  { unfold StreamSplit.segmentStep. rewrite (Hink text) by apply Htext.
    cbn [negb]. rewrite Hsplit, Hdata, candidate_logLines by done.
    repeat case_match; try done. all: unfold pushParsed; cbv zeta; rewrite Hcarried; reflexivity. }
  cbn [fold_left]. rewrite Hsegment. cbn [length].
  rewrite (decide_True (P := 0%nat = 0%nat)) by done. rewrite Hsplit.
  unfold logLines. rewrite fold_left_app, Hfold. cbn [app].
  set (objects := map (fun f => safeParseJson (frame_data f)) frames).
  assert (0 < length objects)%nat as Hlen
    by (subst objects; destruct frames; [done|simpl; lia]).
  assert ((flushBuffer
             (fold_left lineStep (if terminated then [jlit "data: [DONE]"] else [])
                        (objects, []))).1 = objects) as ->.
  { destruct terminated; [|done]. cbn [fold_left].
    unfold StreamSplit.lineStep.
    change (trim (jlit "data: [DONE]")) with (jlit "data: [DONE]").
    change (trim (drop 5 (jlit "data: [DONE]"))) with (jlit "[DONE]").
    cbn [negb fst snd]. change (truthy (jlit "[DONE]")) with true.
    change (startsWith (jlit "data: [DONE]") (jlit "data:")) with true.
    change (truthy []) with false. cbn [negb]. by rewrite Hsentinel. }
  by rewrite (decide_True (P := (0 < length objects)%nat)) by lia.
Qed.

(** *** What the three passes have in common *)

Definition shown (objects : list json) : Prop :=
  Forall (fun value => truthyJson value = true) objects.

Lemma pushParsed_shown objects candidate :
  shown objects -> shown (pushParsed JSON_parse objects candidate).
Proof.
  intros H. unfold pushParsed. cbv zeta.
  destruct (truthyJson (safeParseJson candidate)) eqn:Hparsed; [|done].
  apply Forall_app. split; [done|]. by apply Forall_cons_2.
Qed.

Lemma segmentStep_shown objects segment :
  shown objects -> shown (segmentStep objects segment).
Proof.
  intros H. unfold StreamSplit.segmentStep.
  repeat case_match; try done. by apply pushParsed_shown.
Qed.

Lemma flushBuffer_shown st : shown st.1 -> shown (flushBuffer st).1.
Proof.
  intros H. unfold StreamSplit.flushBuffer. cbv zeta.
  case_match; [done|]. by apply pushParsed_shown.
Qed.

Lemma lineStep_shown st line : shown st.1 -> shown (lineStep st line).1.
Proof.
  intros H. unfold StreamSplit.lineStep. cbv zeta.
  destruct (negb (truthy (trim line))); [by apply flushBuffer_shown|].
  destruct (negb (startsWith _ _)); [done|].
  destruct (negb (truthy (trim (drop 5 _)))); [done|].
  destruct (negb (truthy st.2)).
  - destruct (truthyJson _) eqn:Hparsed; [|done].
    apply Forall_app. split; [done|]. by apply Forall_cons_2.
  - destruct (truthyJson _) eqn:Hparsed; [|done].
    apply Forall_app. split; [done|]. by apply Forall_cons_2.
Qed.

Lemma scanStep_shown st char :
  shown (scan_objects st) -> shown (scan_objects (scanStep JSON_parse st char)).
Proof.
  intros H. unfold scanStep. cbv zeta.
  repeat case_match; try done. all: by apply pushParsed_shown.
Qed.

Lemma fold_shown {A B} (objectsOf : A -> list json) (step : A -> B -> A) items :
  (forall st item, shown (objectsOf st) -> shown (objectsOf (step st item))) ->
  forall st, shown (objectsOf st) -> shown (objectsOf (fold_left step items st)).
Proof.
  intros Hstep. induction items as [|item items IH]; intros st H; [done|].
  cbn [fold_left]. by apply IH, Hstep.
Qed.

(** X21. Whatever the text, none of the values [splitStreamingResponse]
    returns is falsy: [null], [false], [0] and the empty string never
    reach the aggregators, whichever of the three passes produced the
    list. *)
Theorem no_falsy_value_is_returned raw :
  Forall (fun value => truthyJson value = true) (splitStreamingResponse raw).
Proof.
  unfold StreamSplit.splitStreamingResponse. cbv zeta.
  destruct (negb (truthy raw)); [constructor|].
  destruct (negb (truthy (trim raw))); [constructor|].
  assert (shown (fold_left segmentStep (split blankLine (trim raw)) [])) as Hfirst.
  { apply (fold_shown id); [apply segmentStep_shown|constructor]. }
  set (first := fold_left segmentStep _ _) in *.
  assert (shown (if decide (length first = 0%nat)
                 then (flushBuffer (fold_left lineStep (split lineBreak (trim raw))
                                              (first, []))).1
                 else first)) as Hsecond.
  { destruct (decide (length first = 0%nat)); [|done].
    apply flushBuffer_shown. by apply (fold_shown fst); [apply lineStep_shown|]. }
  set (second := if decide (length first = 0%nat) then _ else _) in *.
  destruct (decide (0 < length second)%nat); [done|].
  apply (fold_shown scan_objects); [apply scanStep_shown|constructor].
Qed.

End Split.

(** *** Objects that follow one another *)

(** The inside of a string literal: a backslash takes the next code unit
    with it. *)
Inductive stringBody : jsstring -> Prop :=
  | stringBody_nil : stringBody []
  | stringBody_unit c s :
      c <> 34%N -> c <> 92%N -> stringBody s -> stringBody (c :: s)
  | stringBody_escape c s : stringBody s -> stringBody (92%N :: c :: s).

(** The inside of an object: code units other than quotes, backslashes and
    braces, string literals, and objects. *)
Inductive objectBody : jsstring -> Prop :=
  | objectBody_nil : objectBody []
  | objectBody_unit c s :
      c <> 34%N -> c <> 92%N -> c <> 123%N -> c <> 125%N ->
      objectBody s -> objectBody (c :: s)
  | objectBody_string q s :
      stringBody q -> objectBody s -> objectBody (34%N :: q ++ 34%N :: s)
  | objectBody_object inner s :
      objectBody inner -> objectBody s -> objectBody (123%N :: inner ++ 125%N :: s).

Definition objectText (inside : jsstring) : jsstring := 123%N :: inside ++ [125%N].

(** Objects written one after the other, with [gap] between them. *)
Definition objectsText (gap : jsstring) (insides : list jsstring) : jsstring :=
  match insides with
  | [] => []
  | inside :: insides' =>
      objectText inside ++ concat ((fun i => gap ++ objectText i) <$> insides')
  end.

(** What the scan hands to [safeParseJson]: the white space before an
    object goes with it. *)
Definition objectPieces (gap : jsstring) (insides : list jsstring) : list jsstring :=
  match insides with
  | [] => []
  | inside :: insides' => objectText inside :: ((fun i => gap ++ objectText i) <$> insides')
  end.

(** [piece] occurs in [text]. *)
Definition within (piece text : jsstring) : Prop :=
  exists before after, text = before ++ piece ++ after.

Lemma within_refl s : within s s.
Proof. exists [], []. by rewrite app_nil_r. Qed.

Lemma within_trans a b c : within a b -> within b c -> within a c.
Proof.
  intros (x & y & ->) (x' & y' & ->). exists (x' ++ x), (y ++ y').
  by rewrite <- !app_assoc.
Qed.

Lemma trimStart_suffix s : exists w, s = w ++ trimStart s.
Proof.
  induction s as [|c s [w IH]]; [by exists []|]. cbn [trimStart].
  destruct (isWhiteSpace c); [|by exists []].
  exists (c :: w). by rewrite <- app_comm_cons, <- IH.
Qed.

Lemma within_trim s : within (trim s) s.
Proof.
  unfold trim. destruct (trimStart_suffix s) as [w Hw].
  destruct (trimStart_suffix (rev (trimStart s))) as [w' Hw'].
  exists w, (rev w'). rewrite Hw at 1. f_equal.
  rewrite <- rev_app_distr, <- Hw'. by rewrite rev_involutive.
Qed.

Lemma within_startsWith s prefix : startsWith s prefix = true -> within prefix s.
Proof.
  unfold startsWith. intros H%bool_decide_eq_true.
  exists [], (drop (length prefix) s). cbn [app]. rewrite <- H at 1.
  by rewrite take_drop.
Qed.

Lemma within_occurs piece text :
  within piece text
  <-> Exists (fun n => take (length piece) (drop n text) = piece)
             (seq 0 (S (length text))).
Proof.
  rewrite Exists_exists. split.
  - intros (before & after & ->). exists (length before). split.
    + apply elem_of_seq. rewrite !length_app. lia.
    + by rewrite drop_app_length, take_app_length.
  - intros (n & _ & Hn). exists (take n text), (drop (length piece) (drop n text)).
    rewrite <- Hn at 1. by rewrite !take_drop.
Qed.

#[global] Instance within_dec piece text : Decision (within piece text).
Proof.
  refine (cast_if (decide (Exists (fun n => take (length piece) (drop n text) = piece)
                                  (seq 0 (S (length text))))));
    by rewrite within_occurs.
Defined.

(** A match of a separator is cut off the front of the string. *)
Definition consumes (separator : jsstring -> option jsstring) : Prop :=
  forall s rest, separator s = Some rest -> exists m, s = m ++ rest.

Lemma consumes_lineBreak : consumes lineBreak.
Proof.
  intros s rest [-> | ->]%lineBreak_Some.
  - by exists [10%N].
  - by exists [13%N; 10%N].
Qed.

Lemma consumes_blankLine : consumes blankLine.
Proof.
  intros s rest. unfold blankLine.
  destruct (lineBreak s) as [mid|] eqn:E1; [|done]. cbn. intros E2.
  apply consumes_lineBreak in E1 as [m ->], E2 as [m' ->].
  exists (m ++ m'). by rewrite <- app_assoc.
Qed.

Lemma within_splitFrom separator :
  separates separator -> consumes separator ->
  forall s pending piece,
    piece ∈ splitFrom separator s pending -> within piece (rev pending ++ s).
Proof.
  intros Hsep Hcut s. remember (length s) as n eqn:Hn. revert s Hn.
  induction n as [n IH] using lt_wf_ind. intros s -> pending piece.
  destruct s as [|c s].
  - rewrite splitFrom_nil. intros ->%list_elem_of_singleton. rewrite app_nil_r. apply within_refl.
  - destruct (separator (c :: s)) as [rest|] eqn:E.
    + rewrite (splitFrom_match _ Hsep _ _ _ E).
      intros [->|Hin]%elem_of_cons.
      * by exists [], (c :: s).
      * pose proof (proj1 Hsep _ _ E) as Hlt. destruct (Hcut _ _ E) as [m Hm].
        apply (IH (length rest)) in Hin; [|done..].
        cbn [rev app] in Hin. destruct Hin as (x & y & Hxy).
        exists (rev pending ++ m ++ x), y. rewrite Hm, Hxy.
        by rewrite <- !app_assoc.
    + rewrite (splitFrom_step _ _ _ _ E). intros Hin.
      apply (IH (length s)) in Hin; [|cbn [length]; lia|done].
      cbn [rev] in Hin. by rewrite <- app_assoc in Hin.
Qed.

Lemma within_split separator s piece :
  separates separator -> consumes separator ->
  piece ∈ split separator s -> within piece s.
Proof. intros Hsep Hcut Hin. by apply (within_splitFrom _ Hsep Hcut s []). Qed.

Lemma trim_blank w : Forall blank w -> trim w = [].
Proof.
  intros Hw. unfold trim. rewrite <- (app_nil_r w), trimStart_blank by done.
  done.
Qed.

Lemma blank_unit c :
  blank c -> c <> 34%N /\ c <> 92%N /\ c <> 123%N /\ c <> 125%N.
Proof. intros Hc. repeat split; intros ->; by vm_compute in Hc. Qed.

Section Scan.

Variable JSON_parse : jsstring -> option json.

Abbreviation safeParseJson := (StreamAggregate.safeParseJson JSON_parse).
Abbreviation scanStep := (StreamSplit.scanStep JSON_parse).
Abbreviation pushParsed := (StreamSplit.pushParsed JSON_parse).
Abbreviation splitStreamingResponse := (StreamSplit.splitStreamingResponse JSON_parse).

Lemma scan_stringBody q : stringBody q -> forall objects buffer depth,
  fold_left scanStep q (mkScanState objects buffer depth true false)
  = mkScanState objects (buffer ++ q) depth true false.
Proof.
  induction 1 as [|c s H34 H92 _ IH|c s _ IH]; intros objects buffer depth.
  - by rewrite app_nil_r.
  - cbn [fold_left]. unfold StreamSplit.scanStep at 2. cbn -[fold_left].
    apply N.eqb_neq in H34, H92. rewrite H34, H92, IH.
    by rewrite <- app_assoc.
  - cbn [fold_left]. unfold StreamSplit.scanStep at 2 3. cbn -[fold_left].
    rewrite IH. by rewrite <- !app_assoc.
Qed.

Lemma scan_objectBody inside : objectBody inside -> forall objects buffer depth,
  1 <= depth ->
  fold_left scanStep inside (mkScanState objects buffer depth false false)
  = mkScanState objects (buffer ++ inside) depth false false.
Proof.
  induction 1 as [|c s H34 H92 H123 H125 _ IH|q s Hq _ IH|inner s _ IHinner _ IH];
    intros objects buffer depth Hdepth.
  - by rewrite app_nil_r.
  - cbn [fold_left]. unfold StreamSplit.scanStep at 2. cbn -[fold_left].
    apply N.eqb_neq in H34, H92, H123, H125. rewrite H34, H92, H123, H125.
    assert ((depth =? 0) = false) as -> by lia. cbn -[fold_left].
    rewrite IH by done. by rewrite <- app_assoc.
  - cbn [fold_left]. unfold StreamSplit.scanStep at 2. cbn -[fold_left].
    rewrite fold_left_app, scan_stringBody by done.
    cbn [fold_left]. unfold StreamSplit.scanStep at 2. cbn -[fold_left].
    rewrite IH by done. rewrite <- !app_assoc. done.
  - cbn [fold_left]. unfold StreamSplit.scanStep at 2. cbn -[fold_left].
    assert ((depth + 1 =? 0) = false) as -> by lia. cbn -[fold_left].
    rewrite fold_left_app, IHinner by lia.
    cbn [fold_left]. unfold StreamSplit.scanStep at 2. cbn -[fold_left].
    assert ((depth + 1 - 1 =? 0) = false) as -> by lia. cbn -[fold_left].
    replace (depth + 1 - 1) with depth by lia.
    rewrite IH by done. rewrite <- !app_assoc. done.
Qed.

Lemma tight_objectText inside : tight (objectText inside).
Proof.
  split.
  - by exists 123%N, (inside ++ [125%N]).
  - by exists (123%N :: inside), 125%N.
Qed.

Lemma scan_gap gap : Forall blank gap -> forall objects buffer,
  Forall blank buffer ->
  fold_left scanStep gap (mkScanState objects buffer 0 false false)
  = mkScanState objects (buffer ++ gap) 0 false false.
Proof.
  induction 1 as [|c gap Hc Hgap IH]; intros objects buffer Hbuffer.
  - by rewrite app_nil_r.
  - cbn [fold_left]. unfold StreamSplit.scanStep at 2. cbn -[fold_left trim].
    destruct (blank_unit c Hc) as (H34 & H92 & H123 & H125).
    apply N.eqb_neq in H34, H92, H123, H125. rewrite H34, H92, H123, H125.
    assert (Forall blank (buffer ++ [c])) as Hnext
      by (apply Forall_app; split; [done|by apply Forall_cons_2]).
    rewrite trim_blank by done. cbn -[fold_left].
    rewrite IH by done. by rewrite <- app_assoc.
Qed.

Lemma scan_open objects buffer :
  scanStep (mkScanState objects buffer 0 false false) 123%N
  = mkScanState objects (buffer ++ [123%N]) 1 false false.
Proof. done. Qed.

Lemma scan_close objects buffer :
  truthy (trim (buffer ++ [125%N])) = true ->
  scanStep (mkScanState objects buffer 1 false false) 125%N
  = mkScanState (pushParsed objects (buffer ++ [125%N])) [] 0 false false.
Proof. intros H. unfold StreamSplit.scanStep. cbn -[trim]. by rewrite H. Qed.

(** The scan of one object, with white space before it. *)
Lemma scan_objectText gap inside objects :
  Forall blank gap -> objectBody inside ->
  fold_left scanStep (gap ++ objectText inside) (mkScanState objects [] 0 false false)
  = mkScanState (pushParsed objects (gap ++ objectText inside)) [] 0 false false.
Proof.
  intros Hgap Hinside. rewrite fold_left_app, scan_gap by done.
  unfold objectText. cbn [fold_left app]. rewrite scan_open.
  rewrite fold_left_app, scan_objectBody by (done || lia).
  cbn [fold_left].
  assert (((gap ++ [123%N]) ++ inside) ++ [125%N] = gap ++ objectText inside)
    as Hall by (by rewrite <- !app_assoc).
  rewrite scan_close; rewrite Hall; [done|].
  by rewrite trim_blank_l by (done || apply tight_objectText).
Qed.

Lemma scan_pieces gap insides : forall objects,
  Forall blank gap -> Forall objectBody insides ->
  fold_left scanStep (concat ((fun i => gap ++ objectText i) <$> insides))
            (mkScanState objects [] 0 false false)
  = mkScanState
      (fold_left pushParsed ((fun i => gap ++ objectText i) <$> insides) objects)
      [] 0 false false.
Proof.
  induction insides as [|inside insides IH]; intros objects Hgap Hinsides; [done|].
  apply Forall_cons in Hinsides as [Hinside Hinsides].
  cbn [fmap list_fmap concat fold_left].
  rewrite fold_left_app, scan_objectText by done. by apply IH.
Qed.

Lemma fold_pushParsed pieces : forall objects,
  fold_left pushParsed pieces objects
  = objects ++ filter (fun value => truthyJson value = true)
                      (safeParseJson <$> pieces).
Proof.
  induction pieces as [|piece pieces IH]; intros objects.
  - by rewrite app_nil_r.
  - cbn [fold_left fmap list_fmap]. rewrite IH. unfold StreamSplit.pushParsed.
    cbv zeta. destruct (truthyJson (safeParseJson piece)) eqn:Hpiece.
    + rewrite filter_cons_True by done. by rewrite <- app_assoc.
    + rewrite filter_cons_False by (by rewrite Hpiece). done.
Qed.

Lemma filter_none {A} (P : A -> Prop) `{!forall x, Decision (P x)} (l : list A) :
  (forall x, x ∈ l -> ~ P x) -> filter P l = [].
Proof.
  induction l as [|x l IH]; intros Hnone; [done|].
  rewrite filter_cons_False by (apply Hnone; left).
  apply IH. intros y Hy. apply Hnone. by right.
Qed.

(** Without a [data:] line, the two passes over the lines find nothing. *)
Lemma segmentStep_no_data segment :
  ~ within (jlit "data:") segment ->
  StreamSplit.segmentStep JSON_parse [] segment = [].
Proof.
  intros Hno. unfold StreamSplit.segmentStep.
  destruct (negb (truthy segment)); [done|]. cbv zeta.
  assert (filter (fun line => startsWith line (jlit "data:") = true)
                 (map trim (split lineBreak segment)) = []) as ->; [|done].
  apply filter_none.
  intros line (l & -> & Hl)%list_elem_of_fmap Hstarts. apply Hno.
  apply within_startsWith in Hstarts.
  eapply within_trans; [exact Hstarts|].
  eapply within_trans; [apply within_trim|].
  by apply (within_split lineBreak);
    [apply separates_lineBreak|apply consumes_lineBreak|].
Qed.

Lemma lineStep_no_data line :
  ~ within (jlit "data:") line ->
  StreamSplit.lineStep JSON_parse ([], []) line = ([], []).
Proof.
  intros Hno. unfold StreamSplit.lineStep. cbv zeta.
  destruct (negb (truthy (trim line))); [done|].
  destruct (startsWith (trim line) (jlit "data:")) eqn:Hstarts; [|done].
  destruct Hno. apply within_startsWith in Hstarts.
  eapply within_trans; [exact Hstarts|apply within_trim].
Qed.

Lemma fold_no_data {A} (step : A -> jsstring -> A) st pieces :
  (forall piece, piece ∈ pieces -> step st piece = st) ->
  fold_left step pieces st = st.
Proof.
  induction pieces as [|piece pieces IH]; intros Hstep; [done|].
  cbn [fold_left]. rewrite Hstep by left. apply IH.
  intros p Hp. apply Hstep. by right.
Qed.

Lemma tight_objectsText gap inside insides :
  tight (objectsText gap (inside :: insides)).
Proof.
  split.
  - by eexists 123%N, _.
  - unfold objectsText.
    destruct insides as [|last insides _] using rev_ind.
    + cbn [fmap list_fmap concat]. rewrite app_nil_r. apply tight_objectText.
    + rewrite fmap_app, concat_app. cbn [fmap list_fmap concat].
      rewrite app_nil_r, !app_assoc. apply endsInked_app, tight_objectText.
Qed.

(** X22. A text that is a sequence of objects (braces balanced, with
    string literals and escapes honoured), separated by white space and
    holding no [data:], is cut where each object closes: the result is the
    parsed objects in their order, without those that do not parse or parse
    to a falsy value. The white space before an object is handed to the
    parser with it. *)
Theorem objects_one_after_the_other gap (insides : list jsstring) :
  Forall blank gap -> Forall objectBody insides ->
  ~ within (jlit "data:") (objectsText gap insides) ->
  splitStreamingResponse (objectsText gap insides)
  = filter (fun value => truthyJson value = true)
           (safeParseJson <$> objectPieces gap insides).
Proof.
  intros Hgap Hinsides Hno.
  destruct insides as [|inside insides]; [done|].
  apply Forall_cons in Hinsides as [Hinside Hinsides].
  pose proof (tight_objectsText gap inside insides) as Htight.
  unfold StreamSplit.splitStreamingResponse.
  rewrite trim_tight by done.
  set (text := objectsText gap (inside :: insides)) in *.
  assert (truthy text = true) as -> by done. cbn [negb]. cbv zeta.
  assert (fold_left (StreamSplit.segmentStep JSON_parse) (split blankLine text) []
          = []) as ->.
  { apply fold_no_data. intros segment Hin. apply segmentStep_no_data.
    intros Hdata. apply Hno. eapply within_trans; [exact Hdata|].
    by apply (within_split blankLine);
      [apply separates_blankLine|apply consumes_blankLine|]. }
  cbn [length]. rewrite (decide_True (P := 0%nat = 0%nat)) by done.
  assert (fold_left (StreamSplit.lineStep JSON_parse) (split lineBreak text) ([], [])
          = ([], [])) as ->.
  { apply fold_no_data. intros line Hin. apply lineStep_no_data.
    intros Hdata. apply Hno. eapply within_trans; [exact Hdata|].
    by apply (within_split lineBreak);
      [apply separates_lineBreak|apply consumes_lineBreak|]. }
  change (StreamSplit.flushBuffer JSON_parse ([], [])).1 with (@nil json).
  cbn [length]. rewrite (decide_False (P := (0 < 0)%nat)) by lia.
  subst text. unfold objectsText, objectPieces.
  rewrite fold_left_app.
  pose proof (scan_objectText [] inside [] (Forall_nil_2 _) Hinside) as Hscan.
  cbn [app] in Hscan. rewrite Hscan.
  rewrite scan_pieces by done. cbn [scan_objects].
  rewrite fold_pushParsed. cbn [fmap list_fmap].
  unfold StreamSplit.pushParsed. cbv zeta. cbn [app].
  destruct (truthyJson (safeParseJson (objectText inside))) eqn:Hfirst.
  - by rewrite filter_cons_True by done.
  - by rewrite filter_cons_False by (by rewrite Hfirst).
Qed.

End Scan.

(** *** Instances *)

(** A parser that knows the empty object and the empty array. *)
Definition parseBrackets (text : jsstring) : option json :=
  if decide (text = jlit "{}") then Some (JObject [])
  else if decide (text = jlit "[]") then Some (JArray [])
  else None.

Definition twoEvents : list frame :=
  [mkFrame (Some (jlit "message_start")) (jlit "{}"); mkFrame None (jlit "[]")].

Lemma wellFormed_twoEvents : Forall (wellFormed parseBrackets) twoEvents.
Proof.
  unfold twoEvents.
  repeat (apply Forall_cons_2; [|]); [| |constructor].
  all: repeat split; try (apply (bool_decide_unpack _); vm_compute; exact I);
    try (vm_compute; reflexivity).
  all: try (eexists _, _; split; [reflexivity|vm_compute; reflexivity]).
  all: try (exists [123%N], 125%N; split; vm_compute; reflexivity).
  all: try (exists [91%N], 93%N; split; vm_compute; reflexivity).
Qed.

Lemma sse_log_splits_into_its_events_witness :
  splitStreamingResponse parseBrackets (sseText true twoEvents true)
  = [JObject []; JArray []].
Proof.
  apply (sse_log_splits_into_its_events parseBrackets true twoEvents true).
  - discriminate.
  - exact wellFormed_twoEvents.
Defined.

Lemma log_without_empty_lines_witness :
  splitStreamingResponse parseBrackets (linesText false (logLines twoEvents true))
  = [JObject []; JArray []].
Proof.
  apply (log_without_empty_lines parseBrackets false twoEvents true).
  - discriminate.
  - exact wellFormed_twoEvents.
  - vm_compute. reflexivity.
  - vm_compute. reflexivity.
Defined.

(** A parser that knows two texts: an object with one field, and the
    empty object after a line feed. *)
Definition quoted (s : jsstring) : jsstring := 34%N :: s ++ [34%N].

Definition fieldInside : jsstring := quoted (jlit "k") ++ jlit ":" ++ quoted (jlit "}").

Definition parseSamples (text : jsstring) : option json :=
  if decide (text = objectText fieldInside)
  then Some (JObject [(jlit "k", JString (jlit "}"))])
  else if decide (text = 10%N :: jlit "{}") then Some (JObject [])
  else None.

Lemma objects_one_after_the_other_witness :
  splitStreamingResponse parseSamples (objectsText [10%N] [fieldInside; []])
  = [JObject [(jlit "k", JString (jlit "}"))]; JObject []].
Proof.
  etrans; [apply (objects_one_after_the_other parseSamples [10%N] [fieldInside; []])|].
  - by repeat constructor.
  - apply Forall_cons_2; [|by repeat constructor].
    apply (objectBody_string (jlit "k") (jlit ":" ++ quoted (jlit "}"))).
    { by repeat constructor. }
    apply objectBody_unit; [done..|].
    apply (objectBody_string (jlit "}") []); by repeat constructor.
  - apply (bool_decide_unpack _). vm_compute. exact I.
  - vm_compute. reflexivity.
Defined.

End StreamSplitExtra.
